(** * fmihpc/xray: the X-ray flux fetcher (fetch.py) and plotter (draw.py)

    A shallow embedding of the two scripts and the properties of their
    ingestion, deduplication and plotting paths.

    Conventions of the embedding.
    - A Python [str] is a Rocq [string] holding the UTF-8 bytes of the text.
      Suffix tests, equality, substring search and the slices the scripts
      take cut only at ASCII characters, where bytes and code points agree.
    - Library functions the scripts call but do not define
      ([datetime.strptime], the collation behind SQL [max] on a varchar
      column) are Section variables; [json.loads] is modelled by the
      decoder of Module [Json].
    - The scripts are sequences of top-level statements acting on a
      database session and on standard output: they are written in a small
      state monad whose results are normal completion, [exit(status)] or an
      uncaught exception. *)

From Stdlib Require Import String Ascii List ZArith Bool Arith Lia.
From Stdlib Require Import Permutation Sorted.
From Stdlib Require PrimFloat OrderedTypeEx.
Import ListNotations.

Local Open Scope string_scope.

(** ** Python strings *)

Module PyStr.

(** The double quote character, and [q], which writes a fixture with
    apostrophes where the text has double quotes. *)
Definition dq : string := String "034"%char EmptyString.

Fixpoint q (s : string) : string :=
  match s with
  | EmptyString => EmptyString
  | String c r => String (if Ascii.eqb c "'"%char then "034"%char else c) (q r)
  end.

(** [s.endswith(suffix)] *)
Definition endswith (s suffix : string) : bool :=
  (String.length suffix <=? String.length s)%nat &&
  (substring (String.length s - String.length suffix) (String.length suffix) s =? suffix).

(** [s[:-n]] for [n > 0] *)
Definition drop_last (n : nat) (s : string) : string :=
  substring 0 (String.length s - n) s.

(** [needle in s] on two strings: substring search. *)
Fixpoint contains (needle s : string) : bool :=
  prefix needle s ||
  match s with
  | EmptyString => false
  | String _ r => contains needle r
  end.

End PyStr.

(** ** Python values

    What [json.loads] returns and the scripts pass around: [None], [bool],
    [int], [float], [str], [list] and [dict].  A [float] keeps the text of
    its literal: fetch.py never computes with one.  A [dict] built by the
    decoder has [str] keys; it is an association list in insertion order
    with pairwise distinct keys. *)

Module Py.

#[warnings="-register-all"]
Inductive value : Type :=
| PNone
| PBool (b : bool)
| PInt (z : Z)
| PFloat (lexeme : string)
| PStr (s : string)
| PList (items : list value)
| PDict (fields : list (string * value)).

(** Uncaught exceptions the scripts can die of. *)
Inductive exn : Type :=
| TypeError | KeyError | IndexError | ValueError | DatabaseError.

(** [d.get(k)] as an option, [d[k] = v], [d.pop(k, None)] and [dict(pairs)]. *)
Fixpoint dict_get (k : string) (d : list (string * value)) : option value :=
  match d with
  | [] => None
  | (k', v) :: r => if String.eqb k k' then Some v else dict_get k r
  end.

Fixpoint dict_set (k : string) (v : value) (d : list (string * value))
  : list (string * value) :=
  match d with
  | [] => [(k, v)]
  | (k', v') :: r =>
      if String.eqb k k' then (k', v) :: r else (k', v') :: dict_set k v r
  end.

Fixpoint dict_pop (k : string) (d : list (string * value))
  : list (string * value) :=
  match d with
  | [] => []
  | (k', v') :: r => if String.eqb k k' then r else (k', v') :: dict_pop k r
  end.

Definition dict_of_pairs (pairs : list (string * value)) : list (string * value) :=
  fold_left (fun d kv => dict_set (fst kv) (snd kv) d) pairs [].

End Py.
Export Py.

(** ** json.loads

    fetch.py imports [loads] from Python's standard library.  The decoder
    below accepts the language of [json.loads] with its default arguments
    (RFC 8259 plus the literals NaN, Infinity and -Infinity; strict control
    characters; white space only between tokens; nothing but white space
    after the document) and builds the same values: an integer literal
    becomes an [int], a literal with a fraction or exponent a [float], an
    object a [dict] in which a repeated key keeps its first position and
    its last value.  It is total: a scanner that reads the text one
    character at a time, then a stack machine over the tokens.
    Interpreter limits (recursion depth, the length of integer literals)
    are not modelled. *)

Module Json.

Definition code (c : ascii) : N := N_of_ascii c.
Definition chr (n : N) : ascii := ascii_of_N n.
Definition ch (c : ascii) (x : string) : bool :=
  match x with String y EmptyString => Ascii.eqb c y | _ => false end.

Definition is_ws (c : ascii) : bool :=
  (code c =? 32)%N || (code c =? 9)%N || (code c =? 10)%N || (code c =? 13)%N.
Definition is_digit (c : ascii) : bool := (48 <=? code c)%N && (code c <=? 57)%N.

Definition hex_val (c : ascii) : option N :=
  let n := code c in
  if (48 <=? n)%N && (n <=? 57)%N then Some (n - 48)%N
  else if (65 <=? n)%N && (n <=? 70)%N then Some (n - 55)%N
  else if (97 <=? n)%N && (n <=? 102)%N then Some (n - 87)%N
  else None.

(** UTF-8 bytes of a code point (a lone surrogate is written like any
    other three-byte code point), pushed on a reversed accumulator. *)
Definition utf8 (n : N) : list ascii :=
  if (n <? 128)%N then [chr n]
  else if (n <? 2048)%N then
    [chr (192 + N.shiftr n 6); chr (128 + N.land n 63)]
  else if (n <? 65536)%N then
    [chr (224 + N.shiftr n 12); chr (128 + N.land (N.shiftr n 6) 63);
     chr (128 + N.land n 63)]
  else
    [chr (240 + N.shiftr n 18); chr (128 + N.land (N.shiftr n 12) 63);
     chr (128 + N.land (N.shiftr n 6) 63); chr (128 + N.land n 63)].

Definition push (n : N) (acc : list ascii) : list ascii := rev (utf8 n) ++ acc.

Definition is_high (u : N) : bool := (55296 <=? u)%N && (u <=? 56319)%N.
Definition is_low (u : N) : bool := (56320 <=? u)%N && (u <=? 57343)%N.

Inductive token : Type :=
| TLBrace | TRBrace | TLBrack | TRBrack | TComma | TColon
| TStr (s : string)
| TAtom (v : value).

(** Where the scanner is inside a number: after the sign, after a lone
    zero, in the integer digits, after the point, in the fraction, after
    the exponent letter, after the exponent sign, in the exponent. *)
Inductive nphase : Type :=
| NMinus | NZero | NInt | NDot | NFrac | NE | NESign | NExp.

Inductive lstate : Type :=
| LStart
| LLit (expect : string) (v : value)
| LNum (ph : nphase) (lex : list ascii)
| LStr (acc : list ascii)
| LEsc (acc : list ascii)
| LUni (acc : list ascii) (hi : option N) (n : nat) (u : N)
| LHi (acc : list ascii) (hi : N)
| LHiEsc (acc : list ascii) (hi : N).

Definition text_of (rev_chars : list ascii) : string :=
  string_of_list_ascii (rev rev_chars).

Fixpoint int_of_digits (acc : Z) (s : string) : Z :=
  match s with
  | EmptyString => acc
  | String c r => int_of_digits (10 * acc + Z.of_N (code c - 48)) r
  end.

(** [int(literal)] on a literal the scanner accepted *)
Definition int_of_literal (s : string) : Z :=
  match s with
  | String c r => if ch c "-" then - int_of_digits 0 r else int_of_digits 0 s
  | EmptyString => 0
  end.

Definition num_token (ph : nphase) (lex : list ascii) : option token :=
  match ph with
  | NZero | NInt => Some (TAtom (PInt (int_of_literal (text_of lex))))
  | NFrac | NExp => Some (TAtom (PFloat (text_of lex)))
  | NMinus | NDot | NE | NESign => None
  end.

Definition start_step (c : ascii) : option (list token * lstate) :=
  if is_ws c then Some ([], LStart)
  else if ch c "{" then Some ([TLBrace], LStart)
  else if ch c "}" then Some ([TRBrace], LStart)
  else if ch c "[" then Some ([TLBrack], LStart)
  else if ch c "]" then Some ([TRBrack], LStart)
  else if ch c "," then Some ([TComma], LStart)
  else if ch c ":" then Some ([TColon], LStart)
  else if ch c PyStr.dq then Some ([], LStr [])
  else if ch c "n" then Some ([], LLit "ull" PNone)
  else if ch c "t" then Some ([], LLit "rue" (PBool true))
  else if ch c "f" then Some ([], LLit "alse" (PBool false))
  else if ch c "N" then Some ([], LLit "aN" (PFloat "NaN"))
  else if ch c "I" then Some ([], LLit "nfinity" (PFloat "Infinity"))
  else if ch c "-" then Some ([], LNum NMinus [c])
  else if ch c "0" then Some ([], LNum NZero [c])
  else if is_digit c then Some ([], LNum NInt [c])
  else None.

Definition str_step (acc : list ascii) (c : ascii) : option (list token * lstate) :=
  if ch c PyStr.dq then Some ([TStr (text_of acc)], LStart)
  else if ch c "\" then Some ([], LEsc acc)
  else if (code c <? 32)%N then None
  else Some ([], LStr (c :: acc)).

Definition esc_step (acc : list ascii) (c : ascii) : option (list token * lstate) :=
  if ch c PyStr.dq || ch c "\" || ch c "/" then Some ([], LStr (c :: acc))
  else if ch c "b" then Some ([], LStr (chr 8 :: acc))
  else if ch c "f" then Some ([], LStr (chr 12 :: acc))
  else if ch c "n" then Some ([], LStr (chr 10 :: acc))
  else if ch c "r" then Some ([], LStr (chr 13 :: acc))
  else if ch c "t" then Some ([], LStr (chr 9 :: acc))
  else if ch c "u" then Some ([], LUni acc None 0 0%N)
  else None.

(** A [\uXXXX] escape is complete with code [u]; [hi] is the high surrogate
    of the escape just before it, if that was one. *)
Definition uni_done (acc : list ascii) (hi : option N) (u : N) : lstate :=
  match hi with
  | Some h =>
      if is_low u then
        LStr (push (65536 + N.lor (N.shiftl (h - 55296) 10) (u - 56320)) acc)
      else if is_high u then LHi (push h acc) u
      else LStr (push u (push h acc))
  | None => if is_high u then LHi acc u else LStr (push u acc)
  end.

Definition num_step (ph : nphase) (lex : list ascii) (c : ascii)
  : option (list token * lstate) :=
  let continue (ph' : nphase) := Some ([], LNum ph' (c :: lex)) in
  let finish :=
    match num_token ph lex, start_step c with
    | Some t, Some (ts, st) => Some (t :: ts, st)
    | _, _ => None
    end in
  match ph with
  | NMinus =>
      if ch c "0" then continue NZero
      else if is_digit c then continue NInt
      else if ch c "I" then Some ([], LLit "nfinity" (PFloat "-Infinity"))
      else None
  | NZero =>
      if ch c "." then continue NDot
      else if ch c "e" || ch c "E" then continue NE
      else finish
  | NInt =>
      if is_digit c then continue NInt
      else if ch c "." then continue NDot
      else if ch c "e" || ch c "E" then continue NE
      else finish
  | NDot => if is_digit c then continue NFrac else None
  | NFrac =>
      if is_digit c then continue NFrac
      else if ch c "e" || ch c "E" then continue NE
      else finish
  | NE =>
      if ch c "+" || ch c "-" then continue NESign
      else if is_digit c then continue NExp
      else None
  | NESign => if is_digit c then continue NExp else None
  | NExp => if is_digit c then continue NExp else finish
  end.

Definition lstep (st : lstate) (c : ascii) : option (list token * lstate) :=
  match st with
  | LStart => start_step c
  | LLit expect v =>
      match expect with
      | String x EmptyString =>
          if Ascii.eqb c x then Some ([TAtom v], LStart) else None
      | String x r => if Ascii.eqb c x then Some ([], LLit r v) else None
      | EmptyString => None
      end
  | LNum ph lex => num_step ph lex c
  | LStr acc => str_step acc c
  | LEsc acc => esc_step acc c
  | LUni acc hi n u =>
      match hex_val c with
      | Some d =>
          let u' := (16 * u + d)%N in
          if (n =? 3)%nat then Some ([], uni_done acc hi u')
          else Some ([], LUni acc hi (S n) u')
      | None => None
      end
  | LHi acc hi =>
      if ch c "\" then Some ([], LHiEsc acc hi) else str_step (push hi acc) c
  | LHiEsc acc hi =>
      if ch c "u" then Some ([], LUni acc (Some hi) 0 0%N)
      else esc_step (push hi acc) c
  end.

Fixpoint scan (st : lstate) (s : string) : option (list token) :=
  match s with
  | EmptyString =>
      match st with
      | LStart => Some []
      | LNum ph lex => option_map (fun t => [t]) (num_token ph lex)
      | _ => None
      end
  | String c r =>
      match lstep st c with
      | Some (ts, st') => option_map (app ts) (scan st' r)
      | None => None
      end
  end.

(** The stack machine.  A frame is a list or dict under construction
    (elements and pairs in reverse), or a dict whose next key is read and
    waits for its value. *)
Inductive frame : Type :=
| FList (acc : list value)
| FDict (acc : list (string * value))
| FKey (acc : list (string * value)) (key : string).

Inductive pstate : Type :=
| PValue | PFirst | PKeyOrEnd | PKey | PColon | PNext
| PEnd (v : value).

Definition push_value (v : value) (stack : list frame) : option (pstate * list frame) :=
  match stack with
  | [] => Some (PEnd v, [])
  | FList acc :: st => Some (PNext, FList (v :: acc) :: st)
  | FKey acc k :: st => Some (PNext, FDict ((k, v) :: acc) :: st)
  | FDict _ :: _ => None
  end.

Definition open_value (t : token) (stack : list frame) : option (pstate * list frame) :=
  match t with
  | TAtom v => push_value v stack
  | TStr s => push_value (PStr s) stack
  | TLBrack => Some (PFirst, FList [] :: stack)
  | TLBrace => Some (PKeyOrEnd, FDict [] :: stack)
  | _ => None
  end.

Definition open_key (t : token) (stack : list frame) : option (pstate * list frame) :=
  match t, stack with
  | TStr k, FDict acc :: st => Some (PColon, FKey acc k :: st)
  | _, _ => None
  end.

Definition pstep (ps : pstate) (stack : list frame) (t : token)
  : option (pstate * list frame) :=
  match ps with
  | PValue => open_value t stack
  | PFirst =>
      match t, stack with
      | TRBrack, FList _ :: st => push_value (PList []) st
      | _, _ => open_value t stack
      end
  | PKeyOrEnd =>
      match t, stack with
      | TRBrace, FDict _ :: st => push_value (PDict []) st
      | _, _ => open_key t stack
      end
  | PKey => open_key t stack
  | PColon => match t with TColon => Some (PValue, stack) | _ => None end
  | PNext =>
      match t, stack with
      | TComma, FList _ :: _ => Some (PValue, stack)
      | TRBrack, FList acc :: st => push_value (PList (rev acc)) st
      | TComma, FDict _ :: _ => Some (PKey, stack)
      | TRBrace, FDict acc :: st => push_value (PDict (dict_of_pairs (rev acc))) st
      | _, _ => None
      end
  | PEnd _ => None
  end.

Fixpoint parse (ps : pstate) (stack : list frame) (ts : list token) : option value :=
  match ts with
  | [] => match ps, stack with PEnd v, [] => Some v | _, _ => None end
  | t :: r =>
      match pstep ps stack t with
      | Some (ps', stack') => parse ps' stack' r
      | None => None
      end
  end.

(** [loads(s)]: [None] stands for the [JSONDecodeError] it raises. *)
Definition loads (s : string) : option value :=
  match scan LStart s with
  | Some ts => parse PValue [] ts
  | None => None
  end.

End Json.

(** ** fetch.py: repair of a downloaded text (lines 108-116) *)

Module Repair.
Import PyStr.

(** The four endings the script looks for; [dq] is the double quote. *)
Definition dangling_object : string := ", {" ++ dq.
Definition open_object : string := "m" ++ dq.
Definition trailing_comma : string := dq ++ "},".
Definition open_array : string := dq ++ "}".

Definition repair (text : string) : string :=
  if endswith text dangling_object then drop_last 4 text ++ "]"
  else if endswith text open_object then text ++ "}]"
  else if endswith text trailing_comma then drop_last 1 text ++ "]"
  else if endswith text open_array then text ++ "]"
  else text.

End Repair.

(** ** Scripts as state-passing programs

    A script runs against a [world]: the table named by [--table] as
    committed in the database, the table as the script's session sees it
    (committed rows plus its own uncommitted statements), whether
    [connection.close()] was called, and what the script emitted so far
    (the lines fetch.py prints, the series draw.py plots).  When the
    process ends, whatever the session did not commit is gone: the durable
    result of a run is [committed]. *)

Module Script.

Section World.

Variables (Row Event : Type).

Record world : Type := World {
  committed : option (list Row);   (* [None]: no such table *)
  view : option (list Row);
  closed : bool;
  emitted : list Event
}.

(** How a statement ends: normally, by [exit(status)], or by an exception
    nothing catches (the interpreter then prints a traceback and the
    process ends with status 1). *)
Inductive outcome (A : Type) : Type :=
| Done (a : A)
| Exit (status : Z)
| Raise (e : exn).

Definition M (A : Type) : Type := world -> outcome A * world.

Definition ret {A} (a : A) : M A := fun w => (Done A a, w).

Definition bind {A B} (m : M A) (f : A -> M B) : M B :=
  fun w =>
    match m w with
    | (Done _ a, w') => f a w'
    | (Exit _ s, w') => (Exit B s, w')
    | (Raise _ e, w') => (Raise B e, w')
    end.

Definition and_then {A B} (o : outcome A) (f : A -> outcome B) : outcome B :=
  match o with
  | Done _ a => f a
  | Exit _ s => Exit B s
  | Raise _ e => Raise B e
  end.

Definition lift {A} (o : outcome A) : M A := fun w => (o, w).
Definition exit {A} (status : Z) : M A := lift (Exit A status).
Definition raise {A} (e : exn) : M A := lift (Raise A e).

Definition emit (e : Event) : M unit :=
  fun w => (Done unit tt,
            World (committed w) (view w) (closed w) (emitted w ++ [e])).

(** [connection.commit()] and [connection.close()] *)
Definition commit : M unit :=
  fun w => (Done unit tt, World (view w) (view w) (closed w) (emitted w)).

Definition close : M unit :=
  fun w => (Done unit tt, World (committed w) (view w) true (emitted w)).

(** What the session sees of the table, for a statement that reads it
    (the statement fails when there is no such table) or changes it, and
    [create table if not exists]. *)
Definition read_table : M (list Row) :=
  fun w =>
    match view w with
    | Some t => (Done (list Row) t, w)
    | None => (Raise (list Row) DatabaseError, w)
    end.

Definition write_table (t : list Row) : M unit :=
  fun w => (Done unit tt, World (committed w) (Some t) (closed w) (emitted w)).

Definition create_table : M unit :=
  fun w =>
    (Done unit tt,
     World (committed w)
           (Some match view w with Some t => t | None => [] end)
           (closed w) (emitted w)).

(** [for x in xs: body], with the variables the loop updates as [s] *)
Fixpoint for_each {A S} (xs : list A) (body : A -> S -> M S) (s : S) : M S :=
  match xs with
  | [] => ret s
  | x :: r => bind (body x s) (for_each r body)
  end.

(** The rows of a table, none when it does not exist. *)
Definition rows (t : option (list Row)) : list Row :=
  match t with Some l => l | None => [] end.

End World.

Arguments World {Row Event}.
Arguments committed {Row Event}.
Arguments view {Row Event}.
Arguments closed {Row Event}.
Arguments emitted {Row Event}.
Arguments Done {A}.
Arguments Exit {A}.
Arguments Raise {A}.
Arguments and_then {A B}.
Arguments ret {Row Event A}.
Arguments bind {Row Event A B}.
Arguments lift {Row Event A}.
Arguments exit {Row Event A}.
Arguments raise {Row Event A}.
Arguments emit {Row Event}.
Arguments commit {Row Event}.
Arguments read_table {Row Event}.
Arguments write_table {Row Event}.
Arguments create_table {Row Event}.
Arguments close {Row Event}.
Arguments for_each {Row Event A S}.
Arguments rows {Row}.

Declare Scope script_scope.
Delimit Scope script_scope with script.
Notation "x <- m ;; k" := (bind m (fun x => k))
  (at level 61, m at next level, right associativity) : script_scope.
Notation "' pat <- m ;; k" := (bind m (fun x => match x with pat => k end))
  (at level 61, pat pattern, m at next level, right associativity) : script_scope.
Notation "m ;; k" := (bind m (fun _ => k))
  (at level 61, right associativity) : script_scope.

End Script.

(** ** Python operations the scripts apply to decoded values *)

Module PyOps.
Import Script.

(** [v == None] *)
Definition is_none (v : value) : bool :=
  match v with PNone => true | _ => false end.

(** [v[0]].  A dict from the decoder has only [str] keys, so the key [0]
    is never there.  The first character of a str is taken as its first
    byte. *)
Definition index0 (v : value) : outcome value :=
  match v with
  | PList (x :: _) => Done x
  | PList [] => Raise IndexError
  | PStr (String c _) => Done (PStr (String c EmptyString))
  | PStr EmptyString => Raise IndexError
  | PDict _ => Raise KeyError
  | PNone | PBool _ | PInt _ | PFloat _ => Raise TypeError
  end.

Definition is_str (s : string) (v : value) : bool :=
  match v with PStr s' => String.eqb s s' | _ => false end.

(** [key in v] for a str [key]: a key of a dict, an element of a list, a
    substring of a str. *)
Definition contains (key : string) (v : value) : outcome bool :=
  match v with
  | PDict fields =>
      Done (match dict_get key fields with Some _ => true | None => false end)
  | PList items => Done (existsb (is_str key) items)
  | PStr s => Done (PyStr.contains key s)
  | PNone | PBool _ | PInt _ | PFloat _ => Raise TypeError
  end.

Fixpoint chars (s : string) : list value :=
  match s with
  | EmptyString => []
  | String c r => PStr (String c EmptyString) :: chars r
  end.

(** [for item in v]: what the loop ranges over. *)
Definition iter (v : value) : outcome (list value) :=
  match v with
  | PList items => Done items
  | PDict fields => Done (map (fun kv => PStr (fst kv)) fields)
  | PStr s => Done (chars s)
  | PNone | PBool _ | PInt _ | PFloat _ => Raise TypeError
  end.

(** [v[key]] for a str [key]: only a dict can be indexed by a str. *)
Definition getitem (v : value) (key : string) : outcome value :=
  match v with
  | PDict fields =>
      match dict_get key fields with
      | Some x => Done x
      | None => Raise KeyError
      end
  | _ => Raise TypeError
  end.

(** [==] on the values that can be members of a set or keys of a dict.
    [True] and [False] equal [1] and [0].  Floats are compared by their
    literals, and never equal an int.  fetch.py only compares satellites
    and energy channels, as members of its sets and keys of its dict of
    watermarks: numbers that are equal for Python and differ here get an
    entry each, with the watermark of one and the same query, so every
    reading is tested against the watermark it would be tested against
    with one entry for both. *)
Definition eqb (a b : value) : bool :=
  match a, b with
  | PNone, PNone => true
  | PBool x, PBool y => Bool.eqb x y
  | PBool x, PInt z | PInt z, PBool x => Z.eqb z (if x then 1 else 0)
  | PInt x, PInt y => Z.eqb x y
  | PFloat x, PFloat y => String.eqb x y
  | PStr x, PStr y => String.eqb x y
  | _, _ => false
  end.

Definition hashable (v : value) : bool :=
  match v with PList _ | PDict _ => false | _ => true end.

(** [s.add(v)] on a set, kept in insertion order *)
Definition set_add (v : value) (s : list value) : outcome (list value) :=
  if hashable v then Done (if existsb (eqb v) s then s else (s ++ [v])%list)
  else Raise TypeError.

(** A dict keyed by such values: [k in d], [d[k]] and [d[k] = x]. *)
Section Dict.
Context {A : Type}.

Fixpoint has_key (k : value) (d : list (value * A)) : bool :=
  match d with
  | [] => false
  | (k', _) :: r => eqb k k' || has_key k r
  end.

Fixpoint lookup (k : value) (d : list (value * A)) : outcome A :=
  match d with
  | [] => Raise KeyError
  | (k', x) :: r => if eqb k k' then Done x else lookup k r
  end.

Fixpoint store (k : value) (x : A) (d : list (value * A)) : list (value * A) :=
  match d with
  | [] => [(k, x)]
  | (k', x') :: r => if eqb k k' then (k', x) :: r else (k', x') :: store k x r
  end.

End Dict.

End PyOps.

(** ** Python floats

    A JSON literal with a fraction or an exponent becomes a Python
    [float]: the binary64 number nearest to the decimal it writes.  The
    scripts hand such values to the database as parameters, and what the
    database makes of them depends on the number, not on the literal; this
    module computes the number. *)

Module Float64.

(** The number a literal denotes: [m * 10 ^ e], negated when [neg]. *)
Inductive number : Type :=
| Nan
| Inf (neg : bool)
| Dec (neg : bool) (m e : Z).

(** The Python [float]: [m * 2 ^ p], negated when [neg]. *)
Inductive double : Type :=
| DNan
| DInf (neg : bool)
| DFin (neg : bool) (m p : Z).

Fixpoint all_digits (s : string) : bool :=
  match s with
  | EmptyString => true
  | String c r => Json.is_digit c && all_digits r
  end.

Definition digits (s : string) : option Z :=
  match s with
  | EmptyString => None
  | _ => if all_digits s then Some (Json.int_of_digits 0 s) else None
  end.

(** [s] up to the first character that satisfies [p], and what follows
    that character. *)
Fixpoint cut (p : ascii -> bool) (s : string) : string * option string :=
  match s with
  | EmptyString => (EmptyString, None)
  | String c r =>
      if p c then (EmptyString, Some r)
      else let '(a, b) := cut p r in (String c a, b)
  end.

Definition signed (s : string) : bool * string :=
  match s with
  | String c r =>
      if Json.ch c "-" then (true, r)
      else if Json.ch c "+" then (false, r)
      else (false, s)
  | EmptyString => (false, s)
  end.

Definition exponent (s : option string) : option Z :=
  match s with
  | None => Some 0%Z
  | Some x =>
      let '(neg, d) := signed x in
      option_map (fun n => if neg : bool then (- n)%Z else n) (digits d)
  end.

Definition number_of (lexeme : string) : option number :=
  if String.eqb lexeme "NaN" then Some Nan
  else if String.eqb lexeme "Infinity" then Some (Inf false)
  else if String.eqb lexeme "-Infinity" then Some (Inf true)
  else
    let '(neg, body) :=
      match lexeme with
      | String c r => if Json.ch c "-" then (true, r) else (false, lexeme)
      | EmptyString => (false, lexeme)
      end in
    let '(mantissa, exp) := cut (fun c => Json.ch c "e" || Json.ch c "E") body in
    let '(int, frac) := cut (fun c => Json.ch c ".") mantissa in
    match digits int,
          match frac with
          | None => Some EmptyString
          | Some f => if all_digits f && negb (String.eqb f EmptyString)
                      then Some f else None
          end,
          exponent exp with
    | Some _, Some f, Some e =>
        Some (Dec neg (Json.int_of_digits 0 (int ++ f))
                  (e - Z.of_nat (String.length f)))
    | _, _, _ => None
    end.

(** [n / d] rounded to an integer, a tie to the even one. *)
Definition round_even (n d : Z) : Z :=
  let q := (n / d)%Z in
  let r := (n mod d)%Z in
  if (2 * r <? d)%Z then q
  else if (d <? 2 * r)%Z then (q + 1)%Z
  else if Z.even q then q else (q + 1)%Z.

(** [float(literal)]: the nearest binary64 number, a tie to the one with
    an even significand; infinite from [2 ^ 1024 - 2 ^ 970] on. *)
Definition nearest (neg : bool) (m e : Z) : double :=
  if (m =? 0)%Z then DFin neg 0 0
  else
    let n := (if 0 <=? e then m * 10 ^ e else m)%Z in
    let d := (if 0 <=? e then 1 else 10 ^ (- e))%Z in
    let k0 := (Z.log2 n - Z.log2 d)%Z in
    let below :=
      (if 0 <=? k0 then n <? d * 2 ^ k0 else n * 2 ^ (- k0) <? d)%Z in
    let k := (if below then k0 - 1 else k0)%Z in
    let p := Z.max (k - 52) (-1074) in
    let s := (if 0 <=? p then round_even n (d * 2 ^ p)
              else round_even (n * 2 ^ (- p)) d)%Z in
    if (0 <=? p)%Z && (2 ^ 1024 <=? s * 2 ^ p)%Z then DInf neg
    else DFin neg s p.

Definition double_of (n : number) : double :=
  match n with
  | Nan => DNan
  | Inf neg => DInf neg
  | Dec neg m e => nearest neg m e
  end.

(** The integer a finite float equals, if it equals one. *)
Definition integer (neg : bool) (m p : Z) : option Z :=
  let z :=
    if (0 <=? p)%Z then Some (m * 2 ^ p)%Z
    else if (m mod 2 ^ (- p) =? 0)%Z then Some (m / 2 ^ (- p))%Z
    else None in
  option_map (fun z => if neg then (- z)%Z else z) z.

(** A finite float rounded to an integer, a tie away from zero. *)
Definition rounded (neg : bool) (m p : Z) : Z :=
  let z :=
    if (0 <=? p)%Z then (m * 2 ^ p)%Z
    else ((2 * m + 2 ^ (- p)) / 2 ^ (- p + 1))%Z in
  if neg then (- z)%Z else z.

End Float64.

(** ** fetch.py *)

Module Fetch.
Import Script PyOps Repair.
Local Open Scope script_scope.

(** A row of the table the script creates (line 171); the primary key is
    (datetime, satellite, energy). *)
Record row : Type := Row {
  datetime : string;
  satellite : Z;
  energy : string;
  corrected_flux : value;
  observed_flux : value;
  electron_correction : value
}.

(** The lines the script prints. *)
Inductive line : Type :=
| CouldntDownload (url : string)
| NoDataFromDownload (url : string)
| NoDataFromDownloads
| CouldntInterpretJson (url : string)
| NoJsonDataFrom (url : string)
| NoTimeTagInFirstItem (url : string) (item : value)
| NoJsonData
| SomeoneAlreadyWriting
| NewValuesAdded (inserted : nat).

Abbreviation world := (Script.world row line).
Abbreviation M := (Script.M row line).
Abbreviation print := (@Script.emit row line).

(** *** The database

    Python values reach PostgreSQL as statement parameters, written by
    psycopg2 as literals.  In a comparison [None] is NULL and equals
    nothing; in the primary key it violates the constraint.  psycopg2
    refuses a str it cannot send: one with a NUL character, or with a lone
    surrogate (which the decoder makes of an unpaired [\uD800]-[\uDFFF]
    escape and the model writes as the three bytes of that code point).
    A satellite that is a float is compared as a number (so it equals the
    stored integer only when it is integral) and is rounded to the
    nearest integer when it is inserted, a tie away from zero; a flux
    outside the range of [real] is refused: a float between the largest
    [real] and infinity, a float that is not zero but rounds to zero, an
    int from [2 ^ 128 - 2 ^ 103] on.  A satellite or a flux given as a
    str, which PostgreSQL reads as a number or rejects text by text, is
    outside the model and raises; so does every value of a type the
    column cannot take. *)

Definition has_nul (s : string) : bool :=
  existsb (fun c => Ascii.eqb c Ascii.zero) (list_ascii_of_string s).

(** A code point from U+D800 to U+DFFF: the byte 237 and then one from
    160 to 191. *)
Fixpoint has_surrogate (s : string) : bool :=
  match s with
  | String c1 ((String c2 _) as r) =>
      ((Json.code c1 =? 237)%N && (160 <=? Json.code c2)%N
       && (Json.code c2 <=? 191)%N)
      || has_surrogate r
  | _ => false
  end.

Definition unsendable (s : string) : bool := has_nul s || has_surrogate s.

Definition in_int4 (z : Z) : bool := (-2147483648 <=? z)%Z && (z <=? 2147483647)%Z.

(** [m * 2 ^ p <= c * 2 ^ q], and the range of [real]: a float rounds to
    zero up to [2 ^ -150] and to infinity above [2 ^ 128 - 2 ^ 103]. *)
Definition le_scaled (m p c q : Z) : bool :=
  if (q <=? p)%Z then (m * 2 ^ (p - q) <=? c)%Z else (m <=? c * 2 ^ (q - p))%Z.

Definition in_real (d : Float64.double) : bool :=
  match d with
  | Float64.DNan | Float64.DInf _ => true
  | Float64.DFin _ m p =>
      (m =? 0)%Z
      || (negb (le_scaled m p 1 (-150)) && le_scaled m p 33554431 103)
  end.

Definition where_int (v : value) : outcome (option Z) :=
  match v with
  | PInt z => Done (Some z)
  | PFloat x =>
      match option_map Float64.double_of (Float64.number_of x) with
      | Some (Float64.DFin neg m p) => Done (Float64.integer neg m p)
      | Some _ => Done None
      | None => Raise DatabaseError
      end
  | PNone => Done None
  | _ => Raise DatabaseError
  end.

Definition where_text (v : value) : outcome (option string) :=
  match v with
  | PStr s => if unsendable s then Raise ValueError else Done (Some s)
  | PNone => Done None
  | _ => Raise DatabaseError
  end.

Definition insert_int (v : value) : outcome Z :=
  match v with
  | PInt z => if in_int4 z then Done z else Raise DatabaseError
  | PFloat x =>
      match option_map Float64.double_of (Float64.number_of x) with
      | Some (Float64.DFin neg m p) =>
          if in_int4 (Float64.rounded neg m p)
          then Done (Float64.rounded neg m p) else Raise DatabaseError
      | _ => Raise DatabaseError
      end
  | _ => Raise DatabaseError
  end.

Definition insert_text (v : value) : outcome string :=
  match v with
  | PStr s => if unsendable s then Raise ValueError else Done s
  | _ => Raise DatabaseError
  end.

Definition insert_real (v : value) : outcome value :=
  match v with
  | PNone => Done v
  | PInt z =>
      if (Z.abs z <? 33554431 * 2 ^ 103)%Z then Done v else Raise DatabaseError
  | PFloat x =>
      match option_map Float64.double_of (Float64.number_of x) with
      | Some d => if in_real d then Done v else Raise DatabaseError
      | None => Raise DatabaseError
      end
  | _ => Raise DatabaseError
  end.

Definition matches (sat : option Z) (nrj : option string) (r : row) : bool :=
  match sat, nrj with
  | Some z, Some s => Z.eqb (satellite r) z && String.eqb (energy r) s
  | _, _ => false
  end.

Definition same_key (a b : row) : bool :=
  String.eqb (datetime a) (datetime b) && Z.eqb (satellite a) (satellite b)
  && String.eqb (energy a) (energy b).

(** [insert ... on conflict (datetime, satellite, energy) do nothing] *)
Definition insert_do_nothing (r : row) (t : list row) : list row :=
  if existsb (same_key r) t then t else (t ++ [r])%list.

Section Program.

(** [datetime.strptime(s, '%Y-%m-%dT%H:%M:%S%z')] as the instant it
    denotes, [None] when it raises [ValueError]; and the order of the
    collation by which the database takes [max] of a varchar column. *)
Variable strptime : string -> option Z.
Variable collate_ltb : string -> string -> bool.

Definition py_strptime (v : value) : outcome Z :=
  match v with
  | PStr s =>
      match strptime s with
      | Some t => Done t
      | None => Raise ValueError
      end
  | _ => Raise TypeError
  end.

Definition sentinel : string := "1900-01-01T00:00:00Z".

Definition sql_max (l : list string) : option string :=
  fold_left (fun acc s =>
               match acc with
               | None => Some s
               | Some m => if collate_ltb m s then Some s else Some m
               end) l None.

(** [select max(datetime) from T where satellite = %s and energy = %s]
    and [fetchone()[0]] (lines 182-183) *)
Definition select_max (sat nrj : value) : M (option string) :=
  z <- lift (where_int sat) ;;
  s <- lift (where_text nrj) ;;
  t <- read_table ;;
  ret (sql_max (map datetime (filter (matches z s) t))).

(** [insert into T (...) values (...) on conflict ... do nothing]
    (line 203) *)
Definition insert (time_tag sat nrj cf obs ec : value) : M unit :=
  dt <- lift (insert_text time_tag) ;;
  z <- lift (insert_int sat) ;;
  s <- lift (insert_text nrj) ;;
  cf <- lift (insert_real cf) ;;
  obs <- lift (insert_real obs) ;;
  ec <- lift (insert_real ec) ;;
  t <- read_table ;;
  write_table (insert_do_nothing (Row dt z s cf obs ec) t).

(** *** The script

    [sources] pairs each URL of [--url] with the text [requests.get]
    returns for it, [None] when the request raises; [locked] tells whether
    another session holds a lock that conflicts with
    [lock table ... in exclusive mode nowait]. *)

(** Lines 103-120: the body of the loop, then the loop. *)
Definition download_step (source : string * option string)
  (texts : list (option string)) : M (list (option string)) :=
  let '(url, response) := source in
  match response with
  | Some raw => ret (texts ++ [Some (repair raw)])%list
  | None => print (CouldntDownload url) ;; ret (texts ++ [None])%list
  end.

Definition download (sources : list (string * option string))
  : M (list (option string)) :=
  for_each sources download_step [].

(** Lines 122-130. *)
Definition check_step (download : string * option string) (ok : bool) : M bool :=
  let '(url, text) := download in
  match text with
  | Some (String _ _) => ret true
  | Some EmptyString | None => print (NoDataFromDownload url) ;; ret ok
  end.

Definition check_texts (urls : list string) (texts : list (option string))
  : M unit :=
  ok <- for_each (combine urls texts) check_step false ;;
  if ok : bool then ret tt else (print NoDataFromDownloads ;; exit 0).

(** Lines 132-141. *)
Definition parse_step (download : string * option string) (jsons : list value)
  : M (list value) :=
  let '(url, text) := download in
  match text with
  | Some t =>
      match Json.loads t with
      | Some json => ret (jsons ++ [json])%list
      | None => print (CouldntInterpretJson url) ;; ret (jsons ++ [PNone])%list
      end
  | None => ret (jsons ++ [PNone])%list
  end.

Definition parse (urls : list string) (texts : list (option string))
  : M (list value) :=
  for_each (combine urls texts) parse_step [].

(** Lines 143-154. *)
Definition validate_step (document : string * value) (ok : bool) : M bool :=
  let '(url, json) := document in
  if is_none json then print (NoJsonDataFrom url) ;; ret ok
  else
    first <- lift (index0 json) ;;
    has <- lift (contains "time_tag" first) ;;
    if has : bool then ret true
    else print (NoTimeTagInFirstItem url first) ;; ret ok.

Definition validate (urls : list string) (jsons : list value) : M unit :=
  ok <- for_each (combine urls jsons) validate_step false ;;
  if ok : bool then ret tt else (print NoJsonData ;; exit 1).

(** Lines 156-165: the body of the inner loop, then the two loops. *)
Definition collect (item : value) (acc : list value * list value * list value)
  : M (list value * list value * list value) :=
  let '(data, satellites, energies) := acc in
  sat <- lift (getitem item "satellite") ;;
  satellites <- lift (set_add sat satellites) ;;
  nrj <- lift (getitem item "energy") ;;
  energies <- lift (set_add nrj energies) ;;
  flux <- lift (getitem item "flux") ;;
  match item with
  | PDict fields =>
      let item' := PDict (dict_pop "flux" (dict_set "corrected_flux" flux fields)) in
      ret (data ++ [item'], satellites, energies)%list
  | _ => raise TypeError
  end.

Definition collect_all (json : value) (acc : list value * list value * list value)
  : M (list value * list value * list value) :=
  items <- lift (iter json) ;;
  for_each items collect acc.

Definition aggregate (jsons : list value)
  : M (list value * list value * list value) :=
  for_each jsons collect_all ([], [], []).

(** Lines 176-187.  Python iterates over a set in an order of its own;
    the order only decides which query is sent first. *)
Definition latest (sat nrj : value) : M Z :=
  result <- select_max sat nrj ;;
  match result with
  | None => lift (py_strptime (PStr sentinel))
  | Some s => lift (py_strptime (PStr s))
  end.

Definition watermark_step (sat nrj : value)
  (latest_data : list (value * list (value * Z)))
  : M (list (value * list (value * Z))) :=
  t <- latest sat nrj ;;
  by_sat <- lift (lookup sat latest_data) ;;
  ret (store sat (store nrj t by_sat) latest_data).

Definition watermarks_of (energies : list value) (sat : value)
  (latest_data : list (value * list (value * Z)))
  : M (list (value * list (value * Z))) :=
  let latest_data :=
    if has_key sat latest_data then latest_data
    else store sat [] latest_data in
  for_each energies (watermark_step sat) latest_data.

Definition watermarks (satellites energies : list value)
  : M (list (value * list (value * Z))) :=
  for_each satellites (watermarks_of energies) [].

(** Lines 189-192. *)
Definition select_step (latest_data : list (value * list (value * Z)))
  (d : value) (new_data : list value) : M (list value) :=
  time_tag <- lift (getitem d "time_tag") ;;
  t <- lift (py_strptime time_tag) ;;
  sat <- lift (getitem d "satellite") ;;
  by_sat <- lift (lookup sat latest_data) ;;
  nrj <- lift (getitem d "energy") ;;
  mark <- lift (lookup nrj by_sat) ;;
  if (mark <? t)%Z then ret (new_data ++ [d])%list else ret new_data.

Definition select_new (data : list value)
  (latest_data : list (value * list (value * Z))) : M (list value) :=
  for_each data (select_step latest_data) [].

(** Lines 194-199. *)
Definition lock_table (locked : bool) : M unit :=
  if locked then print SomeoneAlreadyWriting ;; exit 0 else ret tt.

(** Lines 201-204. *)
Definition insert_step (d : value) (inserted : nat) : M nat :=
  time_tag <- lift (getitem d "time_tag") ;;
  sat <- lift (getitem d "satellite") ;;
  nrj <- lift (getitem d "energy") ;;
  cf <- lift (getitem d "corrected_flux") ;;
  obs <- lift (getitem d "observed_flux") ;;
  ec <- lift (getitem d "electron_correction") ;;
  insert time_tag sat nrj cf obs ec ;;
  ret (inserted + 1)%nat.

Definition insert_all (new_data : list value) : M nat :=
  for_each new_data insert_step 0%nat.

(** Lines 103-154: from the downloads to the validated documents. *)
Definition checked (sources : list (string * option string)) : M (list value) :=
  let urls := map fst sources in
  texts <- download sources ;;
  check_texts urls texts ;;
  jsons <- parse urls texts ;;
  validate urls jsons ;;
  ret jsons.

(** Lines 103-165: from the downloads to the aggregated data. *)
Definition gather (sources : list (string * option string))
  : M (list value * list value * list value) :=
  jsons <- checked sources ;;
  aggregate jsons.

(** Lines 103-192: up to the readings that are to be inserted. *)
Definition prepare (sources : list (string * option string)) : M (list value) :=
  '(data, satellites, energies) <- gather sources ;;
  create_table ;;
  commit ;;
  latest_data <- watermarks satellites energies ;;
  select_new data latest_data.

(** Lines 194-208. *)
Definition write (locked : bool) (new_data : list value) : M unit :=
  lock_table locked ;;
  inserted <- insert_all new_data ;;
  commit ;;
  close ;;
  print (NewValuesAdded inserted).

(** *** What the loops compute

    The same computations as functions of the table and of one reading:
    the watermark lines 182-187 obtain for the parameters [sat] and [nrj],
    the test of line 191 against the dict of watermarks, and the row line
    203 sends for a reading. *)
Definition latest_of (t : list row) (sat nrj : value) : outcome Z :=
  and_then (where_int sat) (fun z =>
  and_then (where_text nrj) (fun s =>
  match sql_max (map datetime (filter (matches z s) t)) with
  | None => py_strptime (PStr sentinel)
  | Some m => py_strptime (PStr m)
  end)).

Definition is_new (latest_data : list (value * list (value * Z))) (d : value)
  : outcome bool :=
  and_then (getitem d "time_tag") (fun time_tag =>
  and_then (py_strptime time_tag) (fun t =>
  and_then (getitem d "satellite") (fun sat =>
  and_then (lookup sat latest_data) (fun by_sat =>
  and_then (getitem d "energy") (fun nrj =>
  and_then (lookup nrj by_sat) (fun mark =>
  Done (mark <? t)%Z)))))).

Definition kept (latest_data : list (value * list (value * Z))) (d : value)
  : bool :=
  match is_new latest_data d with
  | Done b => b
  | _ => false
  end.

(** The watermark of a satellite and an energy channel: the instant of
    the datetime stored for the two that is greatest in the order of the
    collation, of the sentinel when no row is stored for them.  It is the
    latest instant stored for them only where that order is the order of
    the instants. *)
Definition watermark (t : list row) (z : Z) (s : string) : option Z :=
  match sql_max (map datetime (filter (matches (Some z) (Some s)) t)) with
  | None => strptime sentinel
  | Some m => strptime m
  end.

(** The script from line 103, where the connection is open. *)
Definition main (sources : list (string * option string)) (locked : bool) : M unit :=
  new_data <- prepare sources ;;
  write locked new_data.

End Program.

Definition row_of (d : value) : outcome row :=
  and_then (getitem d "time_tag") (fun time_tag =>
  and_then (getitem d "satellite") (fun sat =>
  and_then (getitem d "energy") (fun nrj =>
  and_then (getitem d "corrected_flux") (fun cf =>
  and_then (getitem d "observed_flux") (fun obs =>
  and_then (getitem d "electron_correction") (fun ec =>
  and_then (insert_text time_tag) (fun dt =>
  and_then (insert_int sat) (fun z =>
  and_then (insert_text nrj) (fun s =>
  and_then (insert_real cf) (fun cf =>
  and_then (insert_real obs) (fun obs =>
  and_then (insert_real ec) (fun ec =>
  Done (Row dt z s cf obs ec))))))))))))).

(** The primary key of a row. *)
Definition key (r : row) : string * Z * string :=
  (datetime r, satellite r, energy r).

(** The rows of a satellite and an energy channel; a strict total order,
    as the order of a collation is on the values of a column; and a table
    in which that order puts the datetimes stored for a satellite and an
    energy channel as [strptime] puts their instants. *)
Definition of_pair (z : Z) (s : string) (r : row) : Prop :=
  satellite r = z /\ energy r = s.

Definition strict_order (ltb : string -> string -> bool) : Prop :=
  (forall a, ltb a a = false) /\
  (forall a b c, ltb a b = true -> ltb b c = true -> ltb a c = true) /\
  (forall a b, a = b \/ ltb a b = true \/ ltb b a = true).

Definition in_order (strptime : string -> option Z)
  (ltb : string -> string -> bool) (z : Z) (s : string) (t : list row) : Prop :=
  forall r r' i j,
    In r t -> In r' t -> of_pair z s r -> of_pair z s r' ->
    ltb (datetime r) (datetime r') = true ->
    strptime (datetime r) = Some i -> strptime (datetime r') = Some j ->
    (i <= j)%Z.

(** The world in which a run starts: the session sees the committed
    table, the connection is open, nothing is printed yet. *)
Definition start (t : option (list row)) : world := World t t false [].

(** The readings lines 156-165 hand on, which do not depend on the table
    (none when the run ends before line 165), and a reading whose
    satellite is an [int], as the upstream service writes it. *)
Definition aggregated (sources : list (string * option string)) : list value :=
  match fst (gather sources (start None)) with
  | Done (data, _, _) => data
  | _ => []
  end.

Definition int_satellite (d : value) : bool :=
  match getitem d "satellite" with
  | Done (PInt _) => true
  | _ => false
  end.

(** The table a run leaves behind, and the table a sequence of runs
    leaves behind, each with its own downloads and its own luck with the
    lock. *)
Definition after_run (strptime : string -> option Z)
  (collate_ltb : string -> string -> bool)
  (t : option (list row)) (run : list (string * option string) * bool)
  : option (list row) :=
  committed (snd (main strptime collate_ltb (fst run) (snd run) (start t))).

Definition after_runs (strptime : string -> option Z)
  (collate_ltb : string -> string -> bool)
  (runs : list (list (string * option string) * bool))
  (t : option (list row)) : option (list row) :=
  fold_left (after_run strptime collate_ltb) runs t.

(** The latest instant stored for a satellite and an energy channel, over
    the rows whose datetime reads as one. *)
Definition instants (strptime : string -> option Z) (z : Z) (s : string)
  (t : list row) : list Z :=
  flat_map (fun r =>
              if matches (Some z) (Some s) r then
                match strptime (datetime r) with
                | Some i => [i]
                | None => []
                end
              else []) t.

Definition latest_instant (l : list Z) : option Z :=
  fold_left (fun acc i =>
               match acc with
               | None => Some i
               | Some m => Some (Z.max m i)
               end) l None.

Definition option_le (a b : option Z) : Prop :=
  match a, b with
  | None, _ => True
  | Some x, Some y => (x <= y)%Z
  | Some _, None => False
  end.

(** What lines 103-141 make of one source: the repaired text, and the
    document or [None]. *)
Definition text_of (src : string * option string) : option string :=
  option_map repair (snd src).

Definition json_of_text (text : option string) : value :=
  match text with
  | Some t =>
      match Json.loads t with
      | Some json => json
      | None => PNone
      end
  | None => PNone
  end.

Definition json_of (src : string * option string) : value :=
  json_of_text (text_of src).

Definition usable (text : option string) : bool :=
  match text with
  | Some (String _ _) => true
  | _ => false
  end.

End Fetch.

(** ** Instances of the library functions

    [strptime_z] reads the timestamps the upstream service and fetch.py's
    sentinel are written in, [YYYY-MM-DDTHH:MM:SSZ], as seconds since
    1970-01-01T00:00:00Z; it rejects every other text, also those the
    library accepts (a numeric offset, one-digit fields).
    [strptime_offset] also reads the offsets [+HH:MM], [-HH:MM], [+HHMM]
    and [-HHMM] of [%z], of less than a day, and gives the instant: the
    time written minus the offset.  The two and the byte order
    [String.ltb] instantiate the Section variables in the examples. *)

Module Utc.

Definition digit (c : ascii) : option Z :=
  if Json.is_digit c then Some (Z.of_N (Json.code c) - 48)%Z else None.

Definition number (cs : list ascii) : option Z :=
  fold_left (fun acc c =>
               match acc, digit c with
               | Some n, Some d => Some (10 * n + d)%Z
               | _, _ => None
               end) cs (Some 0%Z).

Definition leap (y : Z) : bool :=
  ((y mod 4 =? 0) && negb (y mod 100 =? 0) || (y mod 400 =? 0))%Z.

Definition days_in_month (y m : Z) : Z :=
  if (m =? 2)%Z then (if leap y then 29 else 28)
  else if ((m =? 4) || (m =? 6) || (m =? 9) || (m =? 11))%Z then 30
  else 31.

Definition days_from_civil (y m d : Z) : Z :=
  let y' := (if m <=? 2 then y - 1 else y)%Z in
  let era := (y' / 400)%Z in
  let yoe := (y' - era * 400)%Z in
  let doy := ((153 * (if 2 <? m then m - 3 else m + 9) + 2) / 5 + d - 1)%Z in
  let doe := (yoe * 365 + yoe / 4 - yoe / 100 + doy)%Z in
  (era * 146097 + doe - 719468)%Z.

Definition strptime_z (s : string) : option Z :=
  match list_ascii_of_string s with
  | [y1; y2; y3; y4; h1; m1; m2; h2; d1; d2; t;
     hh1; hh2; c1; mm1; mm2; c2; s1; s2; z] =>
      if Json.ch h1 "-" && Json.ch h2 "-" && Json.ch t "T" && Json.ch c1 ":"
         && Json.ch c2 ":" && Json.ch z "Z" then
        match number [y1; y2; y3; y4], number [m1; m2], number [d1; d2],
              number [hh1; hh2], number [mm1; mm2], number [s1; s2] with
        | Some y, Some m, Some d, Some hh, Some mm, Some ss =>
            if ((1 <=? y) && (1 <=? m) && (m <=? 12) && (1 <=? d)
                && (d <=? days_in_month y m) && (hh <=? 23) && (mm <=? 59)
                && (ss <=? 59))%Z
            then Some (days_from_civil y m d * 86400 + hh * 3600 + mm * 60 + ss)%Z
            else None
        | _, _, _, _, _, _ => None
        end
      else None
  | _ => None
  end.

Definition seconds (sign : ascii) (h1 h2 m1 m2 : ascii) : option Z :=
  match number [h1; h2], number [m1; m2] with
  | Some h, Some m =>
      if ((h <=? 23) && (m <=? 59))%Z then
        if Json.ch sign "+" then Some (h * 3600 + m * 60)%Z
        else if Json.ch sign "-" then Some (- (h * 3600 + m * 60))%Z
        else None
      else None
  | _, _ => None
  end.

Definition offset (s : string) : option Z :=
  match list_ascii_of_string s with
  | [z] => if Json.ch z "Z" then Some 0%Z else None
  | [sign; h1; h2; m1; m2] => seconds sign h1 h2 m1 m2
  | [sign; h1; h2; c; m1; m2] =>
      if Json.ch c ":" then seconds sign h1 h2 m1 m2 else None
  | _ => None
  end.

Definition strptime_offset (s : string) : option Z :=
  match strptime_z (substring 0 19 s ++ "Z"),
        offset (substring 19 (String.length s - 19) s) with
  | Some local, Some off => Some (local - off)%Z
  | _, _ => None
  end.

End Utc.

(** ** draw.py *)

Module Draw.
Import Script.
Local Open Scope script_scope.

(** A row as psycopg2 hands it over: the columns of the primary key are
    never NULL, a [real] column is a Python [float] or [None]. *)
Record row : Type := Row {
  datetime : string;
  satellite : Z;
  energy : string;
  corrected_flux : option PrimFloat.float;
  observed_flux : option PrimFloat.float;
  electron_correction : option PrimFloat.float
}.

(** An element of [data[satellite][energy]]: the tuple
    [(dt, corrected_flux)] with [dt] as an instant. *)
Definition point : Type := Z * option PrimFloat.float.

(** A call [plot(dts, values, '*', ..., label = ...)] (line 155). *)
Record series : Type := Series {
  of_satellite : Z;
  of_energy : string;
  dts : list Z;
  values : list (option PrimFloat.float)
}.

Abbreviation world := (Script.world row series).
Abbreviation M := (Script.M row series).
Abbreviation plot := (@Script.emit row series).

(** [data]: satellite -> energy -> points, both dicts in insertion
    order. *)
Definition groups : Type := list (Z * list (string * list point)).

(** [d[k] = f(d.get(k))] on an insertion-ordered dict *)
Fixpoint alter {K V} (eqb : K -> K -> bool) (k : K) (f : option V -> V)
  (d : list (K * V)) : list (K * V) :=
  match d with
  | [] => [(k, f None)]
  | (k', v) :: r =>
      if eqb k k' then (k', f (Some v)) :: r else (k', v) :: alter eqb k f r
  end.

Fixpoint find {K V} (eqb : K -> K -> bool) (k : K) (d : list (K * V)) : option V :=
  match d with
  | [] => None
  | (k', v) :: r => if eqb k k' then Some v else find eqb k r
  end.

Definition or_empty {A} (o : option (list A)) : list A :=
  match o with Some l => l | None => [] end.

(** Lines 141-145: create the two levels when missing, then append. *)
Definition add_point (sat : Z) (nrj : string) (p : point) (data : groups) : groups :=
  alter Z.eqb sat
    (fun by_sat =>
       alter String.eqb nrj (fun pts => (or_empty pts ++ [p])%list) (or_empty by_sat))
    data.

(** [<] on two floats or [None]s, and [==] *)
Definition flux_eqb (a b : option PrimFloat.float) : bool :=
  match a, b with
  | None, None => true
  | Some x, Some y => PrimFloat.eqb x y
  | _, _ => false
  end.

Definition flux_ltb (a b : option PrimFloat.float) : outcome bool :=
  match a, b with
  | Some x, Some y => Done (PrimFloat.ltb x y)
  | _, _ => Raise TypeError
  end.

(** [a < b] on two tuples: the first components that differ decide. *)
Definition point_lt (a b : point) : outcome bool :=
  if negb (fst a =? fst b)%Z then Done (fst a <? fst b)%Z
  else if flux_eqb (snd a) (snd b) then Done false
  else flux_ltb (snd a) (snd b).

(** [l.sort()] and [sorted(keys)].  The library's sort is stable; so is
    the insertion sort below, which therefore returns the same list
    whenever [<] is a strict weak order on the elements.  Which pairs the
    library compares is its own business: where a comparison can raise
    (two points at one instant, one with a [None] flux), the model raises
    if the insertion sort meets the pair. *)
Fixpoint insert_point (x : point) (l : list point) : outcome (list point) :=
  match l with
  | [] => Done [x]
  | y :: r =>
      and_then (point_lt x y)
        (fun lt => if lt : bool then Done (x :: y :: r)
                   else and_then (insert_point x r) (fun r' => Done (y :: r')))
  end.

Definition sort_points (l : list point) : outcome (list point) :=
  fold_left (fun acc x => and_then acc (insert_point x)) l (Done []).

Fixpoint insert_key (x : Z) (l : list Z) : list Z :=
  match l with
  | [] => [x]
  | y :: r => if (x <? y)%Z then x :: y :: r else y :: insert_key x r
  end.

Definition sorted_keys (l : list Z) : list Z :=
  fold_left (fun acc x => insert_key x acc) l [].

Section Program.

(** [datetime.strptime(s, '%Y-%m-%dT%H:%M:%S%z')] as the instant it
    denotes, and [<=] of the collation of the varchar column. *)
Variable strptime : string -> option Z.
Variable collate_leb : string -> string -> bool.

(** Lines 132-133. *)
Definition select_range (start_ end_ : string) : M (list row) :=
  t <- read_table ;;
  ret (filter (fun r => collate_leb start_ (datetime r)
                        && collate_leb (datetime r) end_) t).

(** Lines 137-145. *)
Definition group (result : list row) : M groups :=
  for_each result
    (fun items data =>
       match strptime (datetime items) with
       | Some dt =>
           ret (add_point (satellite items) (energy items)
                          (dt, corrected_flux items) data)
       | None => raise ValueError
       end) [].

(** Lines 148-155. *)
Definition plot_group (sat : Z) (g : string * list point) : M unit :=
  pts <- lift (sort_points (snd g)) ;;
  plot (Series sat (fst g) (map fst pts) (map snd pts)).

Definition plot_all (data : groups) : M unit :=
  for_each (sorted_keys (map fst data))
    (fun sat _ =>
       for_each (or_empty (find Z.eqb sat data))
         (fun g _ => plot_group sat g) tt) tt.

(** The script from line 130, where the connection is open, to the last
    call of [plot]. *)
Definition main (start_ end_ : string) : M unit :=
  result <- select_range start_ end_ ;;
  close ;;
  data <- group result ;;
  plot_all data.

(** The points of a satellite and an energy channel among rows, in the
    order of the rows. *)
Definition points_of (sat : Z) (nrj : string) (result : list row) : list point :=
  flat_map (fun r =>
              if Z.eqb sat (satellite r) && String.eqb nrj (energy r) then
                match strptime (datetime r) with
                | Some dt => [(dt, corrected_flux r)]
                | None => []
                end
              else []) result.

End Program.

(** The world in which the script reaches line 130. *)
Definition start (t : option (list row)) : world := World t t false [].

End Draw.

(** ** Command-line arguments

    fetch.py keeps [--url] as one str and cuts it at the commas (line 85):
    [s.split(sep)] for a one-character separator. *)

Module Args.

Fixpoint split (sep : ascii) (s : string) : list string :=
  match s with
  | EmptyString => [EmptyString]
  | String c r =>
      if Ascii.eqb c sep then EmptyString :: split sep r
      else
        match split sep r with
        | part :: parts => String c part :: parts
        | [] => [String c EmptyString]
        end
  end.

(** [sep.join(parts)] *)
Fixpoint join (sep : ascii) (parts : list string) : string :=
  match parts with
  | [] => EmptyString
  | [part] => part
  | part :: rest => part ++ String sep (join sep rest)
  end.

(** [args.url] after line 85 *)
Definition urls (arg : string) : list string := split ","%char arg.

Definition has_char (c : ascii) (s : string) : bool :=
  existsb (Ascii.eqb c) (list_ascii_of_string s).

End Args.

(** ** What fetch.py's checks and aggregation compute

    The test of line 147 on a document, the documents on which lines
    143-165 meet no exception of their own, what lines 163-164 make of
    one item, and the readings every statement of the script accepts. *)

Module Batch.
Import Script PyOps Fetch.

(** [json] is not [None] and ['time_tag' in json[0]], for a document whose
    first item is an object. *)
Definition tagged (json : value) : bool :=
  match json with
  | PList (PDict fields :: _) =>
      match dict_get "time_tag" fields with Some _ => true | None => false end
  | _ => false
  end.

(** A source that gave nothing, or a non-empty array that starts with an
    object. *)
Definition shaped (json : value) : Prop :=
  json = PNone \/ exists fields rest, json = PList (PDict fields :: rest).

(** Lines 163-164 on one item: [flux] becomes [corrected_flux]. *)
Definition renamed (item : value) : value :=
  match item with
  | PDict fields =>
      match dict_get "flux" fields with
      | Some flux => PDict (dict_pop "flux" (dict_set "corrected_flux" flux fields))
      | None => item
      end
  | _ => item
  end.

(** An item lines 161-164 accept: an object with a satellite and an energy
    channel that can be members of a set, and a flux. *)
Definition reading (item : value) : Prop :=
  exists fields sat nrj flux,
    item = PDict fields /\
    dict_get "satellite" fields = Some sat /\ hashable sat = true /\
    dict_get "energy" fields = Some nrj /\ hashable nrj = true /\
    dict_get "flux" fields = Some flux.

Definition items_of (json : value) : list value :=
  match json with PList items => items | _ => [] end.

Definition readings (json : value) : Prop :=
  exists items, json = PList items /\ Forall reading items.

(** A reading as the upstream service writes it: the six fields fetch.py
    reads, with values the statements of lines 182 and 203 accept: an int
    satellite in the range of [integer], strs the driver can send, fluxes
    that are [None] or numbers in the range of [real]. *)
Definition complete (strptime : string -> option Z) (item : value) : Prop :=
  exists fields z s time_tag i flux obs ec,
    item = PDict fields /\
    dict_get "satellite" fields = Some (PInt z) /\ in_int4 z = true /\
    dict_get "energy" fields = Some (PStr s) /\ unsendable s = false /\
    dict_get "time_tag" fields = Some (PStr time_tag) /\
    unsendable time_tag = false /\ strptime time_tag = Some i /\
    dict_get "flux" fields = Some flux /\ insert_real flux = Done flux /\
    dict_get "observed_flux" fields = Some obs /\ insert_real obs = Done obs /\
    dict_get "electron_correction" fields = Some ec /\
    insert_real ec = Done ec.

End Batch.

(** ** The order of draw.py's plot calls *)

Module Legend.
Import Draw.

(** The keys of [data[satellite]] as lines 141-145 leave them: an energy
    channel is added at the end when a row of the satellite brings it for
    the first time. *)
Definition add_key (k : string) (keys : list string) : list string :=
  if existsb (String.eqb k) keys then keys else (keys ++ [k])%list.

Definition first_seen (sat : Z) (result : list row) : list string :=
  fold_left (fun keys r =>
               if Z.eqb sat (satellite r) then add_key (energy r) keys else keys)
            result [].

End Legend.

(** ** Fixtures

    Downloads used in the examples: two readings of satellite 16 as the
    upstream service writes them, an error page, and a document whose
    first object has no [time_tag]. *)

Module Fixtures.
Import PyStr.

Definition two_readings : string :=
  q "[{'time_tag': '2024-05-01T00:00:00Z', 'satellite': 16, 'flux': 1.5e-07, 'observed_flux': 2.5e-07, 'electron_correction': 1.0e-07, 'energy': '0.05-0.4nm'}, {'time_tag': '2024-05-01T00:01:00Z', 'satellite': 16, 'flux': 3.5e-07, 'observed_flux': 4.5e-07, 'electron_correction': 1.0e-07, 'energy': '0.05-0.4nm'}]".

Definition error_page : string := "<html>503 Service Unavailable</html>".

Definition untagged : string :=
  q "[{'satellite': 18, 'flux': 9.5e-07, 'observed_flux': 9.5e-07, 'electron_correction': 0.0, 'energy': '0.1-0.8nm'}]".

Definition untagged_item : value :=
  PDict [("satellite", PInt 18); ("observed_flux", PFloat "9.5e-07");
         ("electron_correction", PFloat "0.0"); ("energy", PStr "0.1-0.8nm");
         ("corrected_flux", PFloat "9.5e-07")].

Definition second_reading : value :=
  PDict [("time_tag", PStr "2024-05-01T00:01:00Z"); ("satellite", PInt 16);
         ("observed_flux", PFloat "4.5e-07");
         ("electron_correction", PFloat "1.0e-07");
         ("energy", PStr "0.05-0.4nm"); ("corrected_flux", PFloat "3.5e-07")].

Definition stored (time_tag : string) (flux : string) : Fetch.row :=
  Fetch.Row time_tag 16 "0.05-0.4nm" (PFloat flux) (PFloat "2.5e-07")
            (PFloat "1.0e-07").

(** Three rows of satellite 15 and one energy channel, stored in the
    order third, first, second, and their instants. *)
Definition plotted_rows : list Draw.row :=
  [Draw.Row "2024-05-01T00:03:00Z" 15 "0.1-0.8nm" (Some PrimFloat.two) None None;
   Draw.Row "2024-05-01T00:01:00Z" 15 "0.1-0.8nm" (Some PrimFloat.zero) None None;
   Draw.Row "2024-05-01T00:02:00Z" 15 "0.1-0.8nm" (Some PrimFloat.one) None None].

Definition plotted_series : Draw.series :=
  Draw.Series 15 "0.1-0.8nm" [1714521660; 1714521720; 1714521780]%Z
              [Some PrimFloat.zero; Some PrimFloat.one; Some PrimFloat.two].

End Fixtures.

(** More inputs for the examples: a reading as the upstream service
    writes it and as line 165 hands it on, a download whose only item has
    no [flux], rows of one satellite on two energy channels, and a row
    whose datetime lacks the offset. *)

Module Samples.
Import PyStr.

Definition raw_reading : value :=
  PDict [("time_tag", PStr "2024-05-01T00:00:00Z"); ("satellite", PInt 16);
         ("flux", PFloat "1.5e-07"); ("observed_flux", PFloat "2.5e-07");
         ("electron_correction", PFloat "1.0e-07");
         ("energy", PStr "0.05-0.4nm")].

Definition renamed_reading : value :=
  PDict [("time_tag", PStr "2024-05-01T00:00:00Z"); ("satellite", PInt 16);
         ("observed_flux", PFloat "2.5e-07");
         ("electron_correction", PFloat "1.0e-07");
         ("energy", PStr "0.05-0.4nm"); ("corrected_flux", PFloat "1.5e-07")].

Definition no_flux_item : value :=
  PDict [("time_tag", PStr "2024-05-01T00:00:00Z"); ("satellite", PInt 16);
         ("energy", PStr "0.05-0.4nm")].

Definition no_flux : string :=
  q "[{'time_tag': '2024-05-01T00:00:00Z', 'satellite': 16, 'energy': '0.05-0.4nm'}]".

Definition two_channels : list Draw.row :=
  [Draw.Row "2024-05-01T00:01:00Z" 16 "0.1-0.8nm" (Some PrimFloat.one) None None;
   Draw.Row "2024-05-01T00:01:00Z" 16 "0.05-0.4nm" (Some PrimFloat.zero) None None;
   Draw.Row "2024-05-01T00:02:00Z" 16 "0.1-0.8nm" (Some PrimFloat.two) None None].

Definition without_offset : Draw.row :=
  Draw.Row "2024-05-01T00:02:00" 15 "0.1-0.8nm" (Some PrimFloat.one) None None.



(** The same reading with a flux beyond the range of [real], with an
    unpaired surrogate as its energy channel, and with its satellite
    written as a float. *)
Definition huge_flux : string :=
  q "[{'time_tag': '2024-05-01T00:30:00Z', 'satellite': 16, 'flux': 1e39, 'observed_flux': 2.5e-07, 'electron_correction': 1.0e-07, 'energy': '0.05-0.4nm'}]".

Definition lone_surrogate : string :=
  q "[{'time_tag': '2024-05-01T00:30:00Z', 'satellite': 16, 'flux': 1.5e-07, 'observed_flux': 2.5e-07, 'electron_correction': 1.0e-07, 'energy': '\ud800'}]".

Definition whole_float : string :=
  q "[{'time_tag': '2024-05-01T00:30:00Z', 'satellite': 16.0, 'flux': 1.5e-07, 'observed_flux': 2.5e-07, 'electron_correction': 1.0e-07, 'energy': '0.05-0.4nm'}]".

(** A download with that reading and one whose satellite is written
    [16.4] and whose timestamp has the offset [+02:00]. *)
Definition float_satellite : string :=
  q "[{'time_tag': '2024-05-01T00:30:00Z', 'satellite': 16, 'flux': 1.5e-07, 'observed_flux': 2.5e-07, 'electron_correction': 1.0e-07, 'energy': '0.05-0.4nm'}, {'time_tag': '2024-05-01T02:00:00+02:00', 'satellite': 16.4, 'flux': 1.5e-07, 'observed_flux': 2.5e-07, 'electron_correction': 1.0e-07, 'energy': '0.05-0.4nm'}]".

End Samples.

(** * Properties *)

(** ** Strings *)

Module PyStrFacts.
Import PyStr.

Lemma length_append (a b : string) :
  String.length (a ++ b) = (String.length a + String.length b)%nat.
Proof. induction a as [|c a IH]; simpl; [reflexivity | now rewrite IH]. Qed.

Lemma append_nil_r (a : string) : a ++ "" = a.
Proof. induction a as [|c a IH]; simpl; [reflexivity | now rewrite IH]. Qed.

Lemma append_assoc (a b c : string) : (a ++ b) ++ c = a ++ (b ++ c).
Proof. induction a as [|x a IH]; simpl; [reflexivity | now rewrite IH]. Qed.

Lemma substring_all (s : string) : substring 0 (String.length s) s = s.
Proof. induction s as [|c s IH]; simpl; [reflexivity | now rewrite IH]. Qed.

Lemma substring_skip (p s : string) (n : nat) :
  substring (String.length p) n (p ++ s) = substring 0 n s.
Proof. induction p as [|c p IH]; simpl; [reflexivity | exact IH]. Qed.

Lemma substring_take (p s : string) :
  substring 0 (String.length p) (p ++ s) = p.
Proof.
  induction p as [|c p IH]; simpl.
  - destruct s; reflexivity.
  - now rewrite IH.
Qed.

Lemma substring_split (s : string) (n : nat) :
  (n <= String.length s)%nat ->
  s = substring 0 n s ++ substring n (String.length s - n) s.
Proof.
  revert n; induction s as [|c s IH]; intros n Hn; simpl in *.
  - destruct n; [reflexivity | lia].
  - destruct n as [|n]; simpl.
    + now rewrite substring_all.
    + rewrite <- IH by lia. reflexivity.
Qed.

(** [endswith] holds exactly of the strings that are some prefix followed
    by the suffix. *)
Lemma endswith_spec (s suffix : string) :
  endswith s suffix = true <-> exists p, s = p ++ suffix.
Proof.
  unfold endswith. rewrite andb_true_iff, Nat.leb_le, String.eqb_eq. split.
  - intros [Hle Hsub].
    exists (substring 0 (String.length s - String.length suffix) s).
    pose proof (substring_split s (String.length s - String.length suffix)) as H.
    replace (String.length s - (String.length s - String.length suffix))%nat
      with (String.length suffix) in H by lia.
    rewrite Hsub in H. apply H. lia.
  - intros [p ->]. rewrite length_append. split; [lia|].
    replace (String.length p + String.length suffix - String.length suffix)%nat with (String.length p) by lia.
    rewrite substring_skip. apply substring_all.
Qed.

Lemma endswith_app (p suffix : string) : endswith (p ++ suffix) suffix = true.
Proof. apply endswith_spec. now exists p. Qed.

Lemma drop_last_app (p suffix : string) :
  drop_last (String.length suffix) (p ++ suffix) = p.
Proof.
  unfold drop_last. rewrite length_append.
  replace (String.length p + String.length suffix - String.length suffix)%nat with (String.length p) by lia.
  apply substring_take.
Qed.


End PyStrFacts.

(** ** Dicts *)

Module PyFacts.

Lemma dict_get_set_same k v d : dict_get k (dict_set k v d) = Some v.
Proof.
  induction d as [|[k' v'] r IH]; simpl.
  - now rewrite String.eqb_refl.
  - destruct (String.eqb k k') eqn:E; simpl; rewrite E; [reflexivity | exact IH].
Qed.

Lemma dict_get_set_other k k' v d :
  k <> k' -> dict_get k (dict_set k' v d) = dict_get k d.
Proof.
  intros Hne. induction d as [|[k2 v2] r IH]; simpl.
  - apply String.eqb_neq in Hne. now rewrite Hne.
  - destruct (String.eqb_spec k' k2) as [->|E]; simpl.
    + apply String.eqb_neq in Hne. now rewrite Hne.
    + now rewrite IH.
Qed.

Lemma dict_get_pop_other k k' d :
  k <> k' -> dict_get k (dict_pop k' d) = dict_get k d.
Proof.
  intros Hne. induction d as [|[k2 v2] r IH]; simpl; [reflexivity|].
  destruct (String.eqb_spec k' k2) as [->|E]; simpl.
  - apply String.eqb_neq in Hne. now rewrite Hne.
  - now rewrite IH.
Qed.

End PyFacts.

(** ** The repair of a downloaded text *)

Module RepairFacts.
Import PyStr PyStrFacts Repair.

Lemma endswith_suffix (s a b : string) :
  endswith s (a ++ b) = true -> endswith s b = true.
Proof.
  intros H. apply endswith_spec in H as [p ->].
  rewrite <- append_assoc. apply endswith_app.
Qed.

(** Two suffixes of one text that have the same length are equal. *)
Lemma endswith_same_length (s a b : string) :
  endswith s a = true -> endswith s b = true ->
  String.length a = String.length b -> a = b.
Proof.
  unfold endswith. rewrite !andb_true_iff, !String.eqb_eq.
  intros [_ Ha] [_ Hb] Hlen. rewrite Hlen in Ha. congruence.
Qed.

Lemma endswith_exclusive (s a a' b b' : string) :
  String.length a' = String.length b' -> a' <> b' ->
  endswith s (a ++ a') = true -> endswith s (b ++ b') = false.
Proof.
  intros Hlen Hne Ha. destruct (endswith s (b ++ b')) eqn:Hb; [|reflexivity].
  apply endswith_suffix in Ha, Hb.
  elim Hne. exact (endswith_same_length s a' b' Ha Hb Hlen).
Qed.

(** No text has two of the four endings, so the order of the tests does
    not matter. *)
Lemma open_object_not_dangling (s : string) :
  endswith s open_object = true -> endswith s dangling_object = false.
Proof.
  apply (endswith_exclusive s "" open_object ", " ("{" ++ dq)); [reflexivity | discriminate].
Qed.

Lemma trailing_comma_only (s : string) :
  endswith s trailing_comma = true ->
  endswith s dangling_object = false /\ endswith s open_object = false.
Proof.
  intros H. split.
  - apply (endswith_exclusive s (dq ++ "}") "," ", {" dq); [reflexivity | discriminate | exact H].
  - apply (endswith_exclusive s (dq ++ "}") "," "m" dq); [reflexivity | discriminate | exact H].
Qed.

Lemma open_array_only (s : string) :
  endswith s open_array = true ->
  endswith s dangling_object = false /\ endswith s open_object = false /\
  endswith s trailing_comma = false.
Proof.
  intros H. repeat split.
  - apply (endswith_exclusive s dq "}" ", {" dq); [reflexivity | discriminate | exact H].
  - apply (endswith_exclusive s dq "}" "m" dq); [reflexivity | discriminate | exact H].
  - apply (endswith_exclusive s dq "}" (dq ++ "}") ","); [reflexivity | discriminate | exact H].
Qed.

Lemma repair_dangling_object (p : string) :
  repair (p ++ dangling_object) = p ++ "]".
Proof.
  unfold repair. rewrite endswith_app.
  change 4%nat with (String.length dangling_object). now rewrite drop_last_app.
Qed.

Lemma repair_open_object (text : string) :
  endswith text open_object = true -> repair text = text ++ "}]".
Proof.
  intros H. unfold repair. now rewrite (open_object_not_dangling _ H), H.
Qed.

Lemma repair_trailing_comma (p : string) :
  repair (p ++ trailing_comma) = p ++ open_array ++ "]".
Proof.
  pose proof (endswith_app p trailing_comma) as H.
  destruct (trailing_comma_only _ H) as [H1 H2].
  unfold repair. rewrite H1, H2, H.
  change trailing_comma with (open_array ++ ",").
  rewrite <- !append_assoc.
  change 1%nat with (String.length ","). now rewrite drop_last_app.
Qed.

Lemma repair_open_array (text : string) :
  endswith text open_array = true -> repair text = text ++ "]".
Proof.
  intros H. destruct (open_array_only _ H) as (H1 & H2 & H3).
  unfold repair. now rewrite H1, H2, H3, H.
Qed.

Lemma repair_other (text : string) :
  endswith text dangling_object = false -> endswith text open_object = false ->
  endswith text trailing_comma = false -> endswith text open_array = false ->
  repair text = text.
Proof. intros H1 H2 H3 H4. unfold repair. now rewrite H1, H2, H3, H4. Qed.

(** Two truncated downloads of the kind the script is written for, and
    what it makes of them. *)
Example repair_truncated_in_key :
  let text := q "[{'time_tag': '2024-01-01T00:00:00Z', 'satellite': 16}, {'" in
  repair text = q "[{'time_tag': '2024-01-01T00:00:00Z', 'satellite': 16}]" /\
  Json.loads (repair text) =
    Some (PList [PDict [("time_tag", PStr "2024-01-01T00:00:00Z");
                        ("satellite", PInt 16)]]).
Proof. split; reflexivity. Qed.

Example repair_truncated_after_energy :
  let text := q "[{'satellite': 16, 'energy': '0.1-0.8nm'" in
  repair text = q "[{'satellite': 16, 'energy': '0.1-0.8nm'}]" /\
  Json.loads (repair text) =
    Some (PList [PDict [("satellite", PInt 16); ("energy", PStr "0.1-0.8nm")]]).
Proof. split; reflexivity. Qed.

(** C4 as stated fails: a text can end in the first or the second pattern
    without being a truncated array, and then the patched text does not
    parse.  Here an error page that ends in [, {'] and one that ends in
    [m'] (the apostrophe standing for the double quote). *)
Lemma repair_result_unparseable :
  let page1 := q "upstream error, {'" in
  let page2 := q "<a href='status.htm'" in
  endswith page1 dangling_object = true /\ repair page1 = "upstream error]" /\
  Json.loads (repair page1) = None /\
  endswith page2 open_object = true /\
  repair page2 = q "<a href='status.htm'}]" /\
  Json.loads (repair page2) = None.
Proof. cbv zeta. split; [|split; [|split; [|split; [|split]]]]; reflexivity. Qed.

(** C4, amended: the repair recognises exactly four endings.  A text
    ending in the dangling [, {'] loses these four characters and gets [']']
    (so it parses as the array of the complete objects exactly when the text
    before the ending, closed by [']'], does); a text ending in [m'] gets
    ['}]']; in a text ending in ['},] the comma is replaced by [']']; a text
    ending in ['}] gets [']']; every other text is passed through
    unmodified. *)
Theorem repair_four_cases (text : string) :
  (forall p, text = p ++ dangling_object ->
     repair text = p ++ "]" /\
     Json.loads (repair text) = Json.loads (p ++ "]")) /\
  (endswith text open_object = true -> repair text = text ++ "}]") /\
  (forall p, text = p ++ trailing_comma -> repair text = p ++ open_array ++ "]") /\
  (endswith text open_array = true -> repair text = text ++ "]") /\
  (endswith text dangling_object = false -> endswith text open_object = false ->
   endswith text trailing_comma = false -> endswith text open_array = false ->
   repair text = text).
Proof.
  split; [|split; [|split; [|split]]].
  - intros p ->. now rewrite repair_dangling_object.
  - apply repair_open_object.
  - intros p ->. apply repair_trailing_comma.
  - apply repair_open_array.
  - apply repair_other.
Qed.

Lemma repair_four_cases_witness :
  let complete := q "[{'satellite': 16, 'energy': '0.1-0.8nm'}" in
  let parsed := PList [PDict [("satellite", PInt 16); ("energy", PStr "0.1-0.8nm")]] in
  Json.loads (repair (complete ++ dangling_object)) = Some parsed /\
  repair (q "[{'satellite': 16, 'energy': '0.1-0.8nm'") = complete ++ "]" /\
  repair (complete ++ ",") = complete ++ "]" /\
  repair complete = complete ++ "]" /\
  repair "[]" = "[]".
Proof.
  intros complete parsed. split; [|split; [|split; [|split]]].
  - destruct (repair_four_cases (complete ++ dangling_object)) as [H _].
    destruct (H complete eq_refl) as [_ ->]. reflexivity.
  - destruct (repair_four_cases (q "[{'satellite': 16, 'energy': '0.1-0.8nm'"))
      as (_ & H & _).
    rewrite H; reflexivity.
  - destruct (repair_four_cases (complete ++ ",")) as (_ & _ & H & _).
    rewrite (H (q "[{'satellite': 16, 'energy': '0.1-0.8nm")); reflexivity.
  - destruct (repair_four_cases complete) as (_ & _ & _ & H & _).
    rewrite H; reflexivity.
  - destruct (repair_four_cases "[]") as (_ & _ & _ & _ & H).
    apply H; reflexivity.
Defined.

End RepairFacts.

(** ** Reasoning about scripts *)

Module ScriptFacts.
Import Script.
Local Open Scope script_scope.

Section Facts.

Context {Row Event : Type}.

Local Abbreviation world := (Script.world Row Event).
Local Abbreviation M := (Script.M Row Event).

Lemma bind_done {A B} (m : M A) (f : A -> M B) w a w1 :
  m w = (Done a, w1) -> bind m f w = f a w1.
Proof. unfold bind. now intros ->. Qed.

Lemma bind_exit {A B} (m : M A) (f : A -> M B) w s w1 :
  m w = (Exit s, w1) -> bind m f w = (Exit s, w1).
Proof. unfold bind. now intros ->. Qed.

Lemma bind_raise {A B} (m : M A) (f : A -> M B) w e w1 :
  m w = (Raise e, w1) -> bind m f w = (Raise e, w1).
Proof. unfold bind. now intros ->. Qed.

Lemma bind_inv_done {A B} (m : M A) (f : A -> M B) w b w' :
  bind m f w = (Done b, w') ->
  exists a w1, m w = (Done a, w1) /\ f a w1 = (Done b, w').
Proof.
  unfold bind. destruct (m w) as [[a|s|e] w1]; intros H; try discriminate.
  now exists a, w1.
Qed.

(** A property of the world that every step of a computation keeps. *)
Definition preserves (I : world -> Prop) {A} (m : M A) : Prop :=
  forall w, I w -> I (snd (m w)).

Lemma preserves_ret I {A} (a : A) : preserves I (ret a).
Proof. intros w H. exact H. Qed.

Lemma preserves_lift I {A} (o : outcome A) : preserves I (lift o).
Proof. intros w H. exact H. Qed.

Lemma preserves_bind I {A B} (m : M A) (f : A -> M B) :
  preserves I m -> (forall a, preserves I (f a)) -> preserves I (bind m f).
Proof.
  intros Hm Hf w H. unfold bind. specialize (Hm w H).
  destruct (m w) as [[a|s|e] w1]; simpl in *; auto. now apply Hf.
Qed.

Lemma preserves_for_each I {A S} (xs : list A) (body : A -> S -> M S) :
  (forall x s, preserves I (body x s)) ->
  forall s, preserves I (for_each xs body s).
Proof.
  intros Hb. induction xs as [|x r IH]; intros s; simpl.
  - apply preserves_ret.
  - apply preserves_bind; auto.
Qed.

(** What a loop establishes when it runs to its end: [I done s w] holds
    of the elements handled so far, the loop variables and the world. *)
Lemma for_each_done {A S} (I : list A -> S -> world -> Prop)
  (body : A -> S -> M S) :
  (forall done x s w s' w',
     I done s w -> body x s w = (Done s', w') -> I (done ++ [x])%list s' w') ->
  forall xs done s w s' w',
    I done s w -> for_each xs body s w = (Done s', w') ->
    I (done ++ xs)%list s' w'.
Proof.
  intros Hb. induction xs as [|x r IH]; intros done s w s' w' HI H; simpl in H.
  - inversion H; subst. now rewrite app_nil_r.
  - apply bind_inv_done in H as (s1 & w1 & H1 & H2).
    replace (done ++ x :: r)%list with ((done ++ [x]) ++ r)%list
      by (now rewrite <- app_assoc).
    eapply IH; [|exact H2]. eapply Hb; eauto.
Qed.

(** The same for a property of the loop variables and the world that
    every round keeps. *)
Lemma for_each_inv {A S} (I : S -> world -> Prop) (body : A -> S -> M S)
  (xs : list A) :
  (forall x s w s' w',
     In x xs -> I s w -> body x s w = (Done s', w') -> I s' w') ->
  forall s w s' w',
    I s w -> for_each xs body s w = (Done s', w') -> I s' w'.
Proof.
  induction xs as [|x r IH]; intros Hb s w s' w' HI H; simpl in H.
  - now inversion H; subst.
  - apply bind_inv_done in H as (s1 & w1 & H1 & H2).
    eapply IH; [| |exact H2].
    + intros y; intros. eapply Hb; eauto. now right.
    + eapply Hb; eauto. now left.
Qed.

(** A loop whose body never calls [exit] and raises at one of the
    elements, whatever the loop variables, raises. *)
Definition raises {A} (r : outcome A * world) : Prop :=
  exists e, fst r = Raise e.

Definition no_exit {A} (r : outcome A * world) : Prop :=
  forall s, fst r <> Exit s.

Lemma for_each_raises {A S} (xs : list A) (body : A -> S -> M S) (x : A) :
  (forall y s w, no_exit (body y s w)) ->
  In x xs -> (forall s w, raises (body x s w)) ->
  forall s w, raises (for_each xs body s w).
Proof.
  intros Hne Hin Hx. induction xs as [|y r IH]; [easy|].
  intros s w. simpl. unfold bind.
  destruct Hin as [->|Hin].
  - destruct (Hx s w) as [e He]. destruct (body x s w) as [o w1]; simpl in He.
    subst o. now exists e.
  - specialize (Hne y s w). destruct (body y s w) as [[s1|c|e] w1]; simpl in *.
    + now apply IH.
    + now elim (Hne c).
    + now exists e.
Qed.

Lemma no_exit_bind {A B} (m : M A) (f : A -> M B) w :
  no_exit (m w) -> (forall a w1, no_exit (f a w1)) -> no_exit (bind m f w).
Proof.
  intros Hm Hf. unfold bind. destruct (m w) as [[a|c|e] w1]; simpl in *.
  - apply Hf.
  - now elim (Hm c).
  - intros s; discriminate.
Qed.

Lemma no_exit_lift {A} (o : outcome A) (w : world) :
  (forall s, o <> Exit s) -> no_exit (lift o w).
Proof. intros H s. simpl. apply H. Qed.

Lemma no_exit_for_each {A S} (xs : list A) (body : A -> S -> M S) :
  (forall y s w, no_exit (body y s w)) ->
  forall s w, no_exit (for_each xs body s w).
Proof.
  intros Hb. induction xs as [|y r IH]; intros s w; simpl.
  - intros c; discriminate.
  - apply no_exit_bind; auto.
Qed.

(** Steps that leave the session alone: they only emit. *)
Definition same_session (w w' : world) : Prop :=
  committed w' = committed w /\ view w' = view w /\ closed w' = closed w.

Lemma same_session_refl w : same_session w w.
Proof. now repeat split. Qed.

Lemma same_session_trans w1 w2 w3 :
  same_session w1 w2 -> same_session w2 w3 -> same_session w1 w3.
Proof. intros (a & b & c) (d & e & f). repeat split; congruence. Qed.

Definition silent {A} (m : M A) : Prop :=
  forall w, same_session w (snd (m w)).

Lemma silent_ret {A} (a : A) : silent (ret a).
Proof. intros w. apply same_session_refl. Qed.

Lemma silent_lift {A} (o : outcome A) : silent (lift o).
Proof. intros w. apply same_session_refl. Qed.

Lemma silent_emit (e : Event) : silent (emit e).
Proof. intros w. now repeat split. Qed.

Lemma silent_bind {A B} (m : M A) (f : A -> M B) :
  silent m -> (forall a, silent (f a)) -> silent (bind m f).
Proof.
  intros Hm Hf w. unfold bind. specialize (Hm w).
  destruct (m w) as [[a|s|e] w1]; simpl in *; auto.
  eapply same_session_trans; [exact Hm | apply Hf].
Qed.

Lemma silent_for_each {A S} (xs : list A) (body : A -> S -> M S) :
  (forall x s, silent (body x s)) -> forall s, silent (for_each xs body s).
Proof.
  intros Hb. induction xs as [|x r IH]; intros s; simpl.
  - apply silent_ret.
  - apply silent_bind; auto.
Qed.

(** A loop that appends one thing per element and otherwise only emits. *)
Lemma for_each_append {A B} (f : A -> B) (body : A -> list B -> M (list B)) :
  (forall x acc w, exists w',
      body x acc w = (Done (acc ++ [f x])%list, w') /\ same_session w w') ->
  forall xs acc w, exists w',
    for_each xs body acc w = (Done (acc ++ map f xs)%list, w') /\
    same_session w w'.
Proof.
  intros Hb. induction xs as [|x r IH]; intros acc w; simpl.
  - exists w. rewrite app_nil_r. split; [reflexivity | apply same_session_refl].
  - destruct (Hb x acc w) as (w1 & E1 & S1).
    destruct (IH (acc ++ [f x])%list w1) as (w' & E & S).
    exists w'. split.
    + rewrite (bind_done _ _ _ _ _ E1), E. now rewrite <- app_assoc.
    + eapply same_session_trans; eauto.
Qed.


(** A loop that only emits, one batch per element. *)
Definition emits (w : world) (es : list Event) (w' : world) : Prop :=
  w' = World (committed w) (view w) (closed w) (emitted w ++ es).

Lemma for_each_emits {A} (R : A -> list Event -> Prop) (xs : list A)
  (body : A -> unit -> M unit) :
  (forall x w w', In x xs -> body x tt w = (Done tt, w') ->
                  exists es, R x es /\ emits w es w') ->
  forall w w', for_each xs body tt w = (Done tt, w') ->
               exists ess, Forall2 R xs ess /\ emits w (concat ess) w'.
Proof.
  unfold emits. induction xs as [|x r IH]; intros Hb w w' H; simpl in H.
  - injection H as <-. exists []. split; [constructor|]. simpl.
    rewrite app_nil_r. now destruct w.
  - apply bind_inv_done in H as ([] & w1 & H1 & H2).
    destruct (Hb x w w1 (or_introl eq_refl) H1) as (es & HR & ->).
    destruct (IH (fun y w0 w0' Hy => Hb y w0 w0' (or_intror Hy)) _ _ H2)
      as (ess & HF & ->).
    exists (es :: ess). split; [now constructor|]. simpl.
    now rewrite <- app_assoc.
Qed.

Lemma silent_preserves (I : world -> Prop) {A} (m : M A) :
  (forall w w', same_session w w' -> I w -> I w') ->
  silent m -> preserves I m.
Proof. intros HI Hm w H. exact (HI _ _ (Hm w) H). Qed.

(** Steps that leave the whole world as it is. *)
Definition readonly {A} (m : M A) : Prop := forall w, snd (m w) = w.

Lemma readonly_ret {A} (a : A) : readonly (ret a).
Proof. easy. Qed.

Lemma readonly_lift {A} (o : outcome A) : readonly (lift o).
Proof. easy. Qed.

Lemma readonly_bind {A B} (m : M A) (f : A -> M B) :
  readonly m -> (forall a, readonly (f a)) -> readonly (bind m f).
Proof.
  intros Hm Hf w. unfold bind. specialize (Hm w).
  destruct (m w) as [[a|s|e] w1]; simpl in *; subst; auto. apply Hf.
Qed.

Lemma readonly_for_each {A S} (xs : list A) (body : A -> S -> M S) :
  (forall x s, readonly (body x s)) -> forall s, readonly (for_each xs body s).
Proof.
  intros Hb. induction xs as [|x r IH]; intros s; simpl.
  - apply readonly_ret.
  - apply readonly_bind; auto.
Qed.

Lemma readonly_preserves (I : world -> Prop) {A} (m : M A) :
  readonly m -> preserves I m.
Proof. intros Hm w H. now rewrite Hm. Qed.

Lemma readonly_read_table : readonly (@read_table Row Event).
Proof. intros w. unfold read_table. now destruct (view w). Qed.

(** Computations whose result does not depend on the world. *)
Definition blind {A} (m : M A) : Prop :=
  forall w w', fst (m w) = fst (m w').

Lemma blind_ret {A} (a : A) : blind (ret a).
Proof. easy. Qed.

Lemma blind_lift {A} (o : outcome A) : blind (lift o).
Proof. easy. Qed.

Lemma blind_emit (e : Event) : blind (emit e).
Proof. easy. Qed.

Lemma blind_bind {A B} (m : M A) (f : A -> M B) :
  blind m -> (forall a, blind (f a)) -> blind (bind m f).
Proof.
  intros Hm Hf w w'. unfold bind. specialize (Hm w w').
  destruct (m w) as [[a|s|e] w1], (m w') as [[a'|s'|e'] w1'];
    simpl in *; try congruence.
  inversion Hm; subst. apply Hf.
Qed.

Lemma blind_for_each {A S} (xs : list A) (body : A -> S -> M S) :
  (forall x s, blind (body x s)) -> forall s, blind (for_each xs body s).
Proof.
  intros Hb. induction xs as [|x r IH]; intros s; simpl.
  - apply blind_ret.
  - apply blind_bind; auto.
Qed.

End Facts.

(** Split a goal [preserves I m], or [readonly m], along the structure
    of [m]; what is left are the steps that act on the world. *)
Ltac preserve :=
  repeat lazymatch goal with
    | |- preserves _ (ret _) => apply preserves_ret
    | |- preserves _ (lift _) => apply preserves_lift
    | |- preserves _ (raise _) => apply preserves_lift
    | |- preserves _ (exit _) => apply preserves_lift
    | |- preserves _ (bind _ _) => apply preserves_bind; [|intros]
    | |- preserves _ (for_each _ _ _) => apply preserves_for_each; intros
    | |- preserves _ (match ?x with _ => _ end) => destruct x
    end.

Ltac blinded :=
  repeat lazymatch goal with
    | |- blind (ret _) => apply blind_ret
    | |- blind (lift _) => apply blind_lift
    | |- blind (raise _) => apply blind_lift
    | |- blind (exit _) => apply blind_lift
    | |- blind (emit _) => apply blind_emit
    | |- blind (bind _ _) => apply blind_bind; [|intros]
    | |- blind (for_each _ _ _) => apply blind_for_each; intros
    | |- blind (match ?x with _ => _ end) => destruct x
    end.

Ltac quiet :=
  repeat lazymatch goal with
    | |- readonly (ret _) => apply readonly_ret
    | |- readonly (lift _) => apply readonly_lift
    | |- readonly (raise _) => apply readonly_lift
    | |- readonly (exit _) => apply readonly_lift
    | |- readonly read_table => apply readonly_read_table
    | |- readonly (bind _ _) => apply readonly_bind; [|intros]
    | |- readonly (for_each _ _ _) => apply readonly_for_each; intros
    | |- readonly (match ?x with _ => _ end) => destruct x
    end.

End ScriptFacts.

(** ** Sets and dicts keyed by Python values *)

Module PyOpsFacts.
Import Script PyOps.

Lemma eqb_sym (a b : value) : eqb a b = eqb b a.
Proof.
  destruct a, b; simpl; try reflexivity;
    first [apply Z.eqb_sym | apply String.eqb_sym
          | now destruct b, b0 ].
Qed.

Lemma eqb_trans (a b c : value) :
  eqb a b = true -> eqb b c = true -> eqb a c = true.
Proof.
  destruct a, b; simpl; try discriminate; destruct c; simpl;
    try discriminate;
    rewrite ?Z.eqb_eq, ?String.eqb_eq, ?Bool.eqb_true_iff;
    try congruence;
    repeat match goal with b : bool |- _ => destruct b end;
    try congruence; try lia.
Qed.

Section Dict.
Context {A : Type}.

Lemma lookup_in (k : value) (d : list (value * A)) (x : A) :
  lookup k d = Done x -> exists k', In (k', x) d /\ eqb k k' = true.
Proof.
  induction d as [|[k' x'] r IH]; simpl; [discriminate|].
  destruct (eqb k k') eqn:E.
  - intros H; inversion H; subst. exists k'. auto.
  - intros H. destruct (IH H) as (k2 & Hin & He). exists k2. auto.
Qed.

Lemma in_store (k k' : value) (x x' : A) (d : list (value * A)) :
  In (k, x) (store k' x' d) ->
  In (k, x) d \/ (x = x' /\ (k = k' \/ eqb k' k = true)).
Proof.
  induction d as [|[k2 x2] r IH]; simpl.
  - intros [H|[]]. inversion H; subst. auto.
  - destruct (eqb k' k2) eqn:E; simpl.
    + intros [H|H]; [inversion H; subst|]; auto.
    + intros [H|H]; auto. destruct (IH H) as [?|?]; auto.
Qed.






End Dict.

Lemma eqb_refl_hashable (v : value) : hashable v = true -> eqb v v = true.
Proof.
  destruct v; simpl; try discriminate; intros _;
    auto using Z.eqb_refl, String.eqb_refl.
  now destruct b.
Qed.

End PyOpsFacts.

(** ** fetch.py: from the downloads to the aggregated data *)

Module GatherFacts.
Import Script ScriptFacts PyOps Repair Fetch.
Local Open Scope script_scope.

Lemma raises_bind {A B} (m : M A) (f : A -> M B) (w : world) :
  raises (m w) -> raises (bind m f w).
Proof.
  intros [e He]. unfold bind. destruct (m w) as [o w1]; simpl in He; subst o.
  now exists e.
Qed.

Lemma combine_map {A B C} (f : A -> B) (g : A -> C) (l : list A) :
  combine (map f l) (map g l) = map (fun x => (f x, g x)) l.
Proof. induction l as [|x r IH]; simpl; [reflexivity | now rewrite IH]. Qed.

(** Lines 103-120 always run to their end and keep one text per source. *)
Lemma download_spec (sources : list (string * option string)) (w : world) :
  exists w', download sources w = (Done (map text_of sources), w') /\
             same_session w w'.
Proof.
  apply (for_each_append text_of download_step).
  intros [url [raw|]] acc w0; simpl.
  - exists w0. split; [reflexivity | apply same_session_refl].
  - eexists. split; [reflexivity | apply silent_emit].
Qed.

(** Lines 122-130 let the run go on exactly when some text is there and
    not empty. *)
Lemma check_loop_spec (l : list (string * option string)) (ok : bool) (w : world) :
  exists w', same_session w w' /\
    for_each l check_step ok w = (Done (ok || existsb usable (map snd l)), w').
Proof.
  revert ok w. induction l as [|[url text] r IH]; intros ok w; simpl.
  - exists w. rewrite orb_false_r. split; [apply same_session_refl | reflexivity].
  - destruct text as [[|c t]|]; simpl.
    + destruct (IH ok (snd (print (NoDataFromDownload url) w))) as (w' & S & E).
      exists w'. split; [|exact E].
      eapply same_session_trans; [|exact S]. apply silent_emit.
    + destruct (IH true w) as (w' & S & E). exists w'. split; [exact S|].
      rewrite orb_true_r. exact E.
    + destruct (IH ok (snd (print (NoDataFromDownload url) w))) as (w' & S & E).
      exists w'. split; [|exact E].
      eapply same_session_trans; [|exact S]. apply silent_emit.
Qed.

Lemma check_texts_spec (urls : list string) (texts : list (option string))
  (w : world) :
  exists w', same_session w w' /\
    check_texts urls texts w =
      (if existsb usable (map snd (combine urls texts)) then Done tt else Exit 0,
       w').
Proof.
  unfold check_texts.
  destruct (check_loop_spec (combine urls texts) false w) as (w1 & S & E).
  rewrite (bind_done _ _ _ _ _ E). simpl.
  destruct (existsb usable (map snd (combine urls texts))).
  - now exists w1.
  - eexists. split; [|reflexivity].
    eapply same_session_trans; [exact S | apply silent_emit].
Qed.

(** Lines 132-141 always run to their end: a text that does not parse
    leaves [None] in its place. *)
Lemma parse_spec (urls : list string) (texts : list (option string)) (w : world) :
  exists w', parse urls texts w =
               (Done (map (fun d => json_of_text (snd d)) (combine urls texts)), w')
             /\ same_session w w'.
Proof.
  apply (for_each_append (fun d => json_of_text (snd d)) parse_step).
  intros [url [t|]] acc w0; simpl.
  - destruct (Json.loads t) as [json|].
    + exists w0. split; [reflexivity | apply same_session_refl].
    + eexists. split; [reflexivity | apply silent_emit].
  - exists w0. split; [reflexivity | apply same_session_refl].
Qed.

(** The documents lines 103-141 hand on, in terms of the sources. *)
Lemma texts_of_sources (sources : list (string * option string)) :
  combine (map fst sources) (map text_of sources)
  = map (fun src => (fst src, text_of src)) sources.
Proof. apply combine_map. Qed.

Lemma jsons_of_sources (sources : list (string * option string)) :
  map (fun d => json_of_text (snd d))
      (combine (map fst sources) (map text_of sources))
  = map json_of sources.
Proof. rewrite texts_of_sources, map_map. reflexivity. Qed.

(** Lines 143-154: the loop never exits; it raises at a document that is
    the empty list. *)
Lemma validate_step_no_exit (d : string * value) (ok : bool) (w : world) :
  no_exit (validate_step d ok w).
Proof.
  destruct d as [url json]. unfold validate_step.
  destruct (is_none json); [intros s; discriminate|].
  apply no_exit_bind; [apply no_exit_lift; destruct json as [| | | |[|]|[|]|]; easy|].
  intros first w1.
  apply no_exit_bind; [apply no_exit_lift; destruct first; easy|].
  intros [|] w2 s; discriminate.
Qed.

Lemma validate_raises (urls : list string) (jsons : list value) (url : string)
  (w : world) :
  In (url, PList []) (combine urls jsons) -> raises (validate urls jsons w).
Proof.
  intros Hin. unfold validate. apply raises_bind.
  apply (for_each_raises _ _ (url, PList [])); auto.
  - apply validate_step_no_exit.
  - intros ok w0. now exists IndexError.
Qed.

Lemma silent_validate_step d ok : silent (validate_step d ok).
Proof.
  destruct d as [url json]. unfold validate_step. destruct (is_none json).
  - apply silent_bind; [apply silent_emit | intros; apply silent_ret].
  - apply silent_bind; [apply silent_lift|]. intros first.
    apply silent_bind; [apply silent_lift|]. intros [|].
    + apply silent_ret.
    + apply silent_bind; [apply silent_emit | intros; apply silent_ret].
Qed.

Lemma silent_validate urls jsons : silent (validate urls jsons).
Proof.
  unfold validate. apply silent_bind.
  - apply silent_for_each. apply silent_validate_step.
  - intros [|]; [apply silent_ret|].
    apply silent_bind; [apply silent_emit | intros; apply silent_lift].
Qed.

(** Lines 156-165 touch neither the session nor standard output. *)
Lemma silent_collect item acc : silent (collect item acc).
Proof.
  destruct acc as [[data satellites] energies]. unfold collect.
  repeat (apply silent_bind; [apply silent_lift | intros]).
  destruct item; first [apply silent_ret | apply silent_lift].
Qed.

Lemma silent_aggregate jsons : silent (aggregate jsons).
Proof.
  apply silent_for_each. intros json acc. unfold collect_all.
  apply silent_bind; [apply silent_lift|]. intros items.
  apply silent_for_each. apply silent_collect.
Qed.

Lemma silent_checked sources : silent (checked sources).
Proof.
  intros w. unfold checked.
  destruct (download_spec sources w) as (w1 & E1 & S1).
  rewrite (bind_done _ _ _ _ _ E1).
  destruct (check_texts_spec (map fst sources) (map text_of sources) w1)
    as (w2 & S2 & E2).
  assert (S12 := same_session_trans _ _ _ S1 S2).
  destruct (existsb usable _).
  - rewrite (bind_done _ _ _ _ _ E2).
    destruct (parse_spec (map fst sources) (map text_of sources) w2)
      as (w3 & E3 & S3).
    rewrite (bind_done _ _ _ _ _ E3).
    eapply same_session_trans; [exact S12|].
    eapply same_session_trans; [exact S3|].
    apply (silent_bind (validate _ _) (fun _ => ret _)).
    + apply silent_validate.
    + intros; apply silent_ret.
  - rewrite (bind_exit _ _ _ _ _ E2). exact S12.
Qed.

Lemma silent_gather sources : silent (gather sources).
Proof.
  apply silent_bind; [apply silent_checked | intros; apply silent_aggregate].
Qed.

(** When a source parses to the empty list, lines 103-154 raise. *)
Lemma checked_empty_list (sources : list (string * option string))
  (url raw : string) (w : world) :
  In (url, Some raw) sources -> Json.loads (repair raw) = Some (PList []) ->
  raises (checked sources w).
Proof.
  intros Hin Hload. unfold checked.
  destruct (download_spec sources w) as (w1 & E1 & _).
  rewrite (bind_done _ _ _ _ _ E1).
  destruct (check_texts_spec (map fst sources) (map text_of sources) w1)
    as (w2 & _ & E2).
  replace (existsb usable _) with true in E2.
  2:{ symmetry. apply existsb_exists. exists (Some (repair raw)). split.
      - rewrite texts_of_sources, map_map. simpl.
        apply in_map_iff. now exists (url, Some raw).
      - destruct (repair raw); [discriminate Hload | reflexivity]. }
  rewrite (bind_done _ _ _ _ _ E2).
  destruct (parse_spec (map fst sources) (map text_of sources) w2)
    as (w3 & E3 & _).
  rewrite (bind_done _ _ _ _ _ E3).
  apply raises_bind. apply (validate_raises _ _ url).
  rewrite jsons_of_sources, combine_map.
  apply in_map_iff. exists (url, Some raw). split; [|exact Hin].
  unfold json_of, text_of. simpl. now rewrite Hload.
Qed.

End GatherFacts.

(** ** fetch.py: the run as a whole *)

Module FetchFacts.
Import Script ScriptFacts PyOps PyOpsFacts Repair Fetch GatherFacts.
Local Open Scope script_scope.

Section Run.

Variable strptime : string -> option Z.
Variable collate_ltb : string -> string -> bool.

Local Abbreviation prepare := (Fetch.prepare strptime collate_ltb).
Local Abbreviation main := (Fetch.main strptime collate_ltb).

(** What lines 103-154 hand on when they run to their end: every
    source's document, whatever the validation printed about it. *)
Lemma checked_done (sources : list (string * option string)) (w w' : world)
  (jsons : list value) :
  checked sources w = (Done jsons, w') -> jsons = map json_of sources.
Proof.
  unfold checked. intros H.
  apply bind_inv_done in H as (texts & w1 & E1 & H).
  destruct (download_spec sources w) as (w1' & E1' & _).
  rewrite E1 in E1'. inversion E1'; subst texts w1'. clear E1'.
  apply bind_inv_done in H as ([] & w2 & _ & H).
  apply bind_inv_done in H as (jsons' & w3 & E3 & H).
  destruct (parse_spec (map fst sources) (map text_of sources) w2)
    as (w3' & E3' & _).
  rewrite E3 in E3'. inversion E3'; subst jsons' w3'. clear E3'.
  apply bind_inv_done in H as ([] & w4 & _ & H).
  inversion H. apply jsons_of_sources.
Qed.

Lemma collect_all_no_exit (json : value) acc (w : world) :
  no_exit (collect_all json acc w).
Proof.
  unfold collect_all.
  apply no_exit_bind; [apply no_exit_lift; destruct json; easy|].
  intros items w1. apply no_exit_for_each.
  intros item [[data satellites] energies] w2. unfold collect.
  apply no_exit_bind;
    [apply no_exit_lift; unfold getitem; destruct item; try easy;
     destruct (dict_get _ _); easy|].
  intros sat w3.
  apply no_exit_bind;
    [apply no_exit_lift; unfold set_add; destruct (hashable sat); easy|].
  intros satellites' w4.
  apply no_exit_bind;
    [apply no_exit_lift; unfold getitem; destruct item; try easy;
     destruct (dict_get _ _); easy|].
  intros nrj w5.
  apply no_exit_bind;
    [apply no_exit_lift; unfold set_add; destruct (hashable nrj); easy|].
  intros energies' w6.
  apply no_exit_bind;
    [apply no_exit_lift; unfold getitem; destruct item; try easy;
     destruct (dict_get _ _); easy|].
  intros flux w7 s. destruct item; discriminate.
Qed.

(** Lines 156-165 iterate over every document, also over [None]. *)
Lemma aggregate_absent (jsons : list value) (w : world) :
  In PNone jsons -> raises (aggregate jsons w).
Proof.
  intros Hin. apply (for_each_raises _ _ PNone); auto.
  - apply collect_all_no_exit.
  - intros acc w0. now exists TypeError.
Qed.

(** A run in which some source has no document (the download failed, or
    the text is not JSON) never completes, and does nothing to the
    database. *)
Lemma absent_source_aborts (sources : list (string * option string))
  (locked : bool) (w : world) (src : string * option string) :
  In src sources -> json_of src = PNone ->
  exists o w', main sources locked w = (o, w') /\ (forall u, o <> Done u) /\
               same_session w w'.
Proof.
  intros Hin Hnone.
  assert (Hg : exists o w', gather sources w = (o, w') /\
                            (forall u, o <> Done u) /\ same_session w w').
  { pose proof (silent_gather sources w) as S.
    unfold gather in *. unfold bind in *.
    destruct (checked sources w) as [[jsons|c|e] w1] eqn:E.
    - assert (Hj : In PNone jsons).
      { rewrite (checked_done _ _ _ _ E), <- Hnone. now apply in_map. }
      destruct (aggregate_absent jsons w1 Hj) as [e He].
      destruct (aggregate jsons w1) as [o w2]; simpl in *; subst o.
      exists (Raise e), w2. repeat split; try apply S; easy.
    - exists (Exit c), w1. repeat split; try apply S; easy.
    - exists (Raise e), w1. repeat split; try apply S; easy. }
  destruct Hg as (o & w' & E & Hd & S).
  unfold Fetch.main, Fetch.prepare. unfold bind at 1 2. rewrite E.
  destruct o as [u|c|e].
  - now elim (Hd u).
  - exists (Exit c), w'. repeat split; try apply S; easy.
  - exists (Raise e), w'. repeat split; try apply S; easy.
Qed.

(** C10: when a source's text parses to the empty array, the validation
    (line 147) indexes its first element; the run dies of the exception
    before it aggregates anything or sends a statement to the database,
    whatever the other sources returned. *)
Theorem empty_array_aborts (sources : list (string * option string))
  (locked : bool) (w : world) (url raw : string) :
  In (url, Some raw) sources ->
  Json.loads (repair raw) = Some (PList []) ->
  exists e w', checked sources w = (Raise e, w') /\
               main sources locked w = (Raise e, w') /\ same_session w w'.
Proof.
  intros Hin Hload.
  destruct (checked_empty_list sources url raw w Hin Hload) as [e He].
  pose proof (silent_checked sources w) as S.
  destruct (checked sources w) as [o w'] eqn:E. simpl in He; subst o.
  exists e, w'. split; [reflexivity|]. split; [|exact S].
  unfold Fetch.main, Fetch.prepare, gather. unfold bind at 1 2 3.
  now rewrite E.
Qed.

End Run.

(** C10 on two sources: the first returns the empty array, the second two
    readings. *)
Lemma empty_array_aborts_witness :
  exists w',
    Fetch.main Utc.strptime_z String.ltb
      [("primary", Some "[]"); ("secondary", Some Fixtures.two_readings)]
      false (start None)
    = (Raise IndexError, w') /\ same_session (start None) w'.
Proof.
  destruct (empty_array_aborts Utc.strptime_z String.ltb
              [("primary", Some "[]"); ("secondary", Some Fixtures.two_readings)]
              false (start None) "primary" "[]")
    as (e & w' & E1 & E2 & S).
  - simpl; auto.
  - reflexivity.
  - exists w'. split; [|exact S]. rewrite E2.
    assert (He : e = IndexError).
    { vm_compute in E1. now inversion E1. }
    now rewrite He.
Defined.

(** *** What a run does to the session *)

Section Session.

Variable strptime : string -> option Z.
Variable collate_ltb : string -> string -> bool.

Local Abbreviation prepare := (Fetch.prepare strptime collate_ltb).
Local Abbreviation main := (Fetch.main strptime collate_ltb).
Local Abbreviation watermarks := (Fetch.watermarks strptime collate_ltb).
Local Abbreviation select_new := (Fetch.select_new strptime).
Local Abbreviation latest := (Fetch.latest strptime collate_ltb).

Lemma readonly_select_max sat nrj : readonly (select_max collate_ltb sat nrj).
Proof. unfold select_max. quiet. Qed.

Lemma readonly_latest sat nrj : readonly (latest sat nrj).
Proof. unfold Fetch.latest. quiet. apply readonly_select_max. Qed.

Lemma readonly_watermarks satellites energies :
  readonly (watermarks satellites energies).
Proof.
  unfold Fetch.watermarks, watermarks_of, watermark_step. quiet.
  apply readonly_latest.
Qed.

Lemma readonly_select_new data latest_data :
  readonly (select_new data latest_data).
Proof. unfold Fetch.select_new, select_step. quiet. Qed.

Lemma insert_do_nothing_cases (r : row) (t : list row) :
  insert_do_nothing r t = t \/ insert_do_nothing r t = (t ++ [r])%list.
Proof. unfold insert_do_nothing. destruct (existsb _ _); auto. Qed.

(** The connection stays open until line 207. *)
Definition open_ (w : world) : Prop := closed w = false.

Lemma open_session (w w' : world) : same_session w w' -> open_ w -> open_ w'.
Proof. unfold open_. intros (_ & _ & ->). easy. Qed.

Lemma open_insert tt sat nrj cf obs ec :
  preserves open_ (insert tt sat nrj cf obs ec).
Proof.
  unfold insert. preserve.
  - apply readonly_preserves, readonly_read_table.
  - easy.
Qed.

Lemma open_prepare sources : preserves open_ (prepare sources).
Proof.
  unfold Fetch.prepare. preserve.
  - apply (silent_preserves _ _ open_session), silent_gather.
  - easy.
  - easy.
  - apply readonly_preserves, readonly_watermarks.
  - apply readonly_preserves, readonly_select_new.
Qed.

Lemma open_insert_all new_data : preserves open_ (insert_all new_data).
Proof.
  unfold insert_all, insert_step. preserve. apply open_insert.
Qed.

(** The table only grows: the session sees the rows of [t] followed by
    what it committed and then by what it inserted since. *)
Definition grown (t : list row) (w : world) : Prop :=
  exists a b, rows (view w) = (t ++ a ++ b)%list /\
              rows (committed w) = (t ++ a)%list.

Lemma grown_session t (w w' : world) :
  same_session w w' -> grown t w -> grown t w'.
Proof. unfold grown. intros (-> & -> & _). easy. Qed.

Lemma grown_commit t : preserves (grown t) commit.
Proof.
  intros w (a & b & Hv & Hc). exists (a ++ b)%list, []. simpl.
  rewrite app_nil_r. auto.
Qed.

Lemma grown_create_table t : preserves (grown t) create_table.
Proof.
  intros w (a & b & Hv & Hc). exists a, b. simpl. split; [|exact Hc].
  rewrite <- Hv. now destruct (view w).
Qed.

Lemma grown_insert t tt sat nrj cf obs ec :
  preserves (grown t) (insert tt sat nrj cf obs ec).
Proof.
  unfold insert.
  do 6 (apply preserves_bind; [apply preserves_lift | intros ?]).
  intros w (x & y & Hv & Hc). unfold bind, read_table.
  destruct (view w) as [rs|] eqn:E; simpl; [|exists x, y; rewrite E; auto].
  simpl in Hv. subst rs.
  match goal with
  | |- context [insert_do_nothing ?r ?l] =>
      destruct (insert_do_nothing_cases r l) as [->| ->];
      [exists x, y | exists x, (y ++ [r])%list]
  end.
  - auto.
  - split; [|exact Hc]. now rewrite <- !app_assoc.
Qed.

Lemma grown_main sources locked t : preserves (grown t) (main sources locked).
Proof.
  unfold Fetch.main, Fetch.prepare, write, lock_table, insert_all, insert_step.
  preserve;
    try (apply readonly_preserves;
         first [apply readonly_watermarks | apply readonly_select_new]);
    try apply grown_commit; try apply grown_create_table;
    try apply grown_insert;
    try (apply (silent_preserves _ _ (grown_session t));
         first [apply silent_gather | apply silent_emit]).
Qed.

Lemma grown_start (t : option (list row)) : grown (rows t) (start t).
Proof. exists [], []. simpl. now rewrite app_nil_r. Qed.

Lemma latest_instant_from (acc : option Z) (l : list Z) :
  option_le acc
    (fold_left (fun acc i =>
                  match acc with
                  | None => Some i
                  | Some m => Some (Z.max m i)
                  end) l acc).
Proof.
  revert acc. induction l as [|i r IH]; intros acc; simpl.
  - destruct acc; simpl; lia.
  - specialize (IH (match acc with None => Some i | Some m => Some (Z.max m i) end)).
    destruct acc as [m|]; [|exact I].
    destruct (fold_left _ r _); simpl in *; lia.
Qed.

Lemma latest_instant_app (l l' : list Z) :
  option_le (latest_instant l) (latest_instant (l ++ l')).
Proof. unfold latest_instant. rewrite fold_left_app. apply latest_instant_from. Qed.

Lemma option_le_refl (a : option Z) : option_le a a.
Proof. destruct a; simpl; lia. Qed.

Lemma option_le_trans (a b c : option Z) :
  option_le a b -> option_le b c -> option_le a c.
Proof. destruct a, b, c; simpl; try lia; easy. Qed.

Lemma run_grows (run : list (string * option string) * bool)
  (t : option (list row)) :
  exists added,
    rows (after_run strptime collate_ltb t run) = (rows t ++ added)%list.
Proof.
  destruct (grown_main (fst run) (snd run) (rows t) (start t) (grown_start t))
    as (a & b & _ & Hc).
  now exists a.
Qed.

(** C7: over any sequence of runs, whatever each run downloads (readings
    older than the stored ones, out of order, malformed) and however it
    ends, the rows stored before are still there, unchanged and in place,
    followed by the rows added; so the latest instant stored for a
    satellite and an energy channel never decreases. *)
Theorem watermark_never_decreases
  (runs : list (list (string * option string) * bool))
  (t : option (list row)) :
  (exists added,
      rows (after_runs strptime collate_ltb runs t) = (rows t ++ added)%list) /\
  (forall z s,
      option_le
        (latest_instant (instants strptime z s (rows t)))
        (latest_instant
           (instants strptime z s (rows (after_runs strptime collate_ltb runs t))))).
Proof.
  assert (H : exists added,
             rows (after_runs strptime collate_ltb runs t) = (rows t ++ added)%list).
  { unfold after_runs. revert t. induction runs as [|run r IH]; intros t; simpl.
    - exists []. now rewrite app_nil_r.
    - destruct (run_grows run t) as (a & Ha).
      destruct (IH (after_run strptime collate_ltb t run)) as (b & Hb).
      exists (a ++ b)%list. rewrite Hb, Ha. now rewrite app_assoc. }
  split; [exact H|]. intros z s. destruct H as (added & ->).
  unfold instants. rewrite flat_map_app. apply latest_instant_app.
Qed.

(** The session as a run that finds the table locked leaves it. *)
Definition untouched (t : list row) (w : world) : Prop :=
  rows (committed w) = t /\ rows (view w) = t /\ closed w = false.

Lemma untouched_session t (w w' : world) :
  same_session w w' -> untouched t w -> untouched t w'.
Proof. unfold untouched. intros (-> & -> & ->). easy. Qed.

Lemma untouched_prepare t sources : preserves (untouched t) (prepare sources).
Proof.
  unfold Fetch.prepare. preserve.
  - apply (silent_preserves _ _ (untouched_session t)), silent_gather.
  - intros w (Hc & Hv & Ho). split; [exact Hc|]. split; [|exact Ho].
    simpl. rewrite <- Hv. now destruct (view w).
  - intros w (Hc & Hv & Ho). split; [exact Hv|]. now split.
  - apply readonly_preserves, readonly_watermarks.
  - apply readonly_preserves, readonly_select_new.
Qed.

Lemma untouched_start (t : option (list row)) : untouched (rows t) (start t).
Proof. now repeat split. Qed.

(** C6: when the lock is held by another session, a run that gets as far
    as line 196 prints a line and leaves by [exit()], status 0, with
    nothing else done: no insert, no second attempt.  And however such a
    run ends, the stored rows are those it found. *)
Theorem lock_held_exits_cleanly (sources : list (string * option string))
  (t : option (list row)) :
  rows (after_run strptime collate_ltb t (sources, true)) = rows t /\
  (forall new_data w1,
      prepare sources (start t) = (Done new_data, w1) ->
      main sources true (start t)
      = (Exit 0,
         World (committed w1) (view w1) false
               (emitted w1 ++ [SomeoneAlreadyWriting])) /\
      rows (committed w1) = rows t /\ rows (view w1) = rows t).
Proof.
  pose proof (untouched_prepare (rows t) sources (start t) (untouched_start t))
    as Hp.
  unfold after_run. simpl fst; simpl snd.
  destruct (Fetch.prepare strptime collate_ltb sources (start t))
    as [[new_data|c|e] w1] eqn:E; simpl in Hp; destruct Hp as (Hc & Hv & Ho).
  - assert (Hm : main sources true (start t)
                 = (Exit 0,
                    World (committed w1) (view w1) false
                          (emitted w1 ++ [SomeoneAlreadyWriting]))).
    { unfold Fetch.main. rewrite (bind_done _ _ _ _ _ E).
      unfold write, lock_table, bind, emit, exit, lift. simpl. now rewrite Ho. }
    rewrite Hm. split; [exact Hc|].
    intros nd w1' E'. inversion E'; subst nd w1'. auto.
  - unfold Fetch.main. rewrite (bind_exit _ _ _ _ _ E).
    split; [exact Hc | discriminate].
  - unfold Fetch.main. rewrite (bind_raise _ _ _ _ _ E).
    split; [exact Hc | discriminate].
Qed.

(** The connection is closed by line 207 and nowhere else: it is closed
    when the run ends exactly if the run ran to its end. *)
Lemma closed_iff_done (sources : list (string * option string)) (locked : bool)
  (t : option (list row)) :
  closed (snd (main sources locked (start t))) = true <->
  fst (main sources locked (start t)) = Done tt.
Proof.
  pose proof (open_prepare sources (start t) eq_refl) as Hp.
  unfold Fetch.main.
  destruct (Fetch.prepare strptime collate_ltb sources (start t))
    as [[new_data|c|e] w1] eqn:E; simpl in Hp; unfold open_ in Hp.
  2:{ rewrite (bind_exit _ _ _ _ _ E). simpl. rewrite Hp. split; discriminate. }
  2:{ rewrite (bind_raise _ _ _ _ _ E). simpl. rewrite Hp. split; discriminate. }
  rewrite (bind_done _ _ _ _ _ E). unfold write, lock_table. destruct locked.
  - simpl. rewrite Hp. split; discriminate.
  - rewrite (bind_done _ _ w1 tt w1 eq_refl).
    pose proof (open_insert_all new_data w1 Hp) as Hi.
    destruct (insert_all new_data w1) as [[n|c|e] w2] eqn:E2; simpl in Hi;
      unfold open_ in Hi.
    + rewrite (bind_done _ _ _ _ _ E2). simpl. easy.
    + rewrite (bind_exit _ _ _ _ _ E2). simpl. rewrite Hi. split; discriminate.
    + rewrite (bind_raise _ _ _ _ _ E2). simpl. rewrite Hi. split; discriminate.
Qed.

End Session.

(** *** The watermarks and the filter *)

Section Filter.

Variable strptime : string -> option Z.
Variable collate_ltb : string -> string -> bool.

Local Abbreviation prepare := (Fetch.prepare strptime collate_ltb).
Local Abbreviation main := (Fetch.main strptime collate_ltb).
Local Abbreviation watermarks := (Fetch.watermarks strptime collate_ltb).
Local Abbreviation watermarks_of := (Fetch.watermarks_of strptime collate_ltb).
Local Abbreviation watermark_step := (Fetch.watermark_step strptime collate_ltb).
Local Abbreviation select_new := (Fetch.select_new strptime).
Local Abbreviation select_step := (Fetch.select_step strptime).
Local Abbreviation latest := (Fetch.latest strptime collate_ltb).
Local Abbreviation latest_of := (Fetch.latest_of strptime collate_ltb).
Local Abbreviation is_new := (Fetch.is_new strptime).
Local Abbreviation kept := (Fetch.kept strptime).
Local Abbreviation watermark := (Fetch.watermark strptime collate_ltb).

(** The query of lines 182-187 as a function of the table. *)
Lemma latest_spec (sat nrj : value) (w : world) (t : list row) :
  view w = Some t -> latest sat nrj w = (latest_of t sat nrj, w).
Proof.
  intros Hv. unfold Fetch.latest, Fetch.latest_of, select_max, bind, lift,
    read_table, ret, and_then.
  destruct (where_int sat); try reflexivity.
  destruct (where_text nrj); try reflexivity.
  rewrite Hv. now destruct (sql_max _ _).
Qed.

(** Parameters that are equal for Python and that the database accepts
    ask for the same rows. *)
Lemma where_int_eqb (a b : value) (x y : option Z) :
  eqb a b = true -> where_int a = Done x -> where_int b = Done y -> x = y.
Proof.
  destruct a, b; simpl; try discriminate; intros E H1 H2;
    try discriminate H1; try discriminate H2.
  - injection H1 as <-. now injection H2 as <-.
  - apply Z.eqb_eq in E. subst. injection H1 as <-. now injection H2 as <-.
  - apply String.eqb_eq in E. subst. rewrite H1 in H2. now injection H2.
Qed.

Lemma where_text_eqb (a b : value) (x y : option string) :
  eqb a b = true -> where_text a = Done x -> where_text b = Done y -> x = y.
Proof.
  destruct a, b; simpl; try discriminate; intros E H1 H2;
    try (inversion H1; inversion H2; subst; reflexivity).
  apply String.eqb_eq in E. subst s0.
  destruct (unsendable s); [discriminate|]. congruence.
Qed.

Lemma latest_of_inv (t : list row) (sat nrj : value) (m : Z) :
  latest_of t sat nrj = Done m ->
  exists z s, where_int sat = Done z /\ where_text nrj = Done s /\
    match sql_max collate_ltb (map datetime (filter (matches z s) t)) with
    | None => strptime sentinel
    | Some x => strptime x
    end = Some m.
Proof.
  unfold Fetch.latest_of, and_then.
  destruct (where_int sat) as [z| |]; try discriminate.
  destruct (where_text nrj) as [s| |]; try discriminate.
  intros H. exists z, s. split; [reflexivity|]. split; [reflexivity|].
  destruct (sql_max _ _); simpl in H.
  - destruct (strptime s0); now inversion H.
  - destruct (strptime sentinel); now inversion H.
Qed.

Lemma latest_of_eqb (t : list row) (s1 n1 s2 n2 : value) (m1 m2 : Z) :
  eqb s1 s2 = true -> eqb n1 n2 = true ->
  latest_of t s1 n1 = Done m1 -> latest_of t s2 n2 = Done m2 -> m1 = m2.
Proof.
  intros Es En H1 H2.
  apply latest_of_inv in H1 as (z1 & x1 & Z1 & X1 & H1).
  apply latest_of_inv in H2 as (z2 & x2 & Z2 & X2 & H2).
  rewrite (where_int_eqb _ _ _ _ Es Z1 Z2) in H1.
  rewrite (where_text_eqb _ _ _ _ En X1 X2) in H1. congruence.
Qed.

Lemma latest_of_refl (t : list row) (sat nrj : value) (m : Z) :
  latest_of t sat nrj = Done m -> eqb sat sat = true /\ eqb nrj nrj = true.
Proof.
  intros H. apply latest_of_inv in H as (z & s & Z1 & X1 & _). split.
  - destruct sat; try (simpl in Z1; discriminate Z1); simpl;
      auto using Z.eqb_refl, String.eqb_refl.
  - destruct nrj; try (simpl in X1; discriminate X1); simpl;
      auto using String.eqb_refl.
Qed.

(** Every entry of the dict of watermarks is what the query returns for
    a satellite and an energy channel of the batch that equal its keys. *)
Definition sound (t : list row) (satellites energies : list value)
  (latest_data : list (value * list (value * Z))) : Prop :=
  forall k by_sat k2 m,
    In (k, by_sat) latest_data -> In (k2, m) by_sat ->
    exists sat nrj,
      In sat satellites /\ In nrj energies /\
      eqb k sat = true /\ eqb k2 nrj = true /\ latest_of t sat nrj = Done m.

Lemma sound_step (t : list row) (satellites energies : list value)
  (sat nrj : value) (ld ld' : list (value * list (value * Z))) (w w' : world) :
  view w = Some t -> In sat satellites -> In nrj energies ->
  sound t satellites energies ld ->
  watermark_step sat nrj ld w = (Done ld', w') ->
  sound t satellites energies ld' /\ w' = w.
Proof.
  intros Hv Hs Hn Hsound H. unfold Fetch.watermark_step in H.
  apply bind_inv_done in H as (m & w1 & H1 & H).
  rewrite (latest_spec _ _ _ _ Hv) in H1. injection H1 as Hm <-.
  apply bind_inv_done in H as (by_sat & w1 & H1 & H).
  unfold lift in H1. injection H1 as Hl <-.
  unfold ret in H. injection H as <- <-. split; [|reflexivity].
  destruct (latest_of_refl _ _ _ _ Hm) as [Rs Rn].
  destruct (lookup_in _ _ _ Hl) as (k0 & Hk0 & Ek0).
  intros k by' k2 m' Hin Hin2.
  apply in_store in Hin as [Hin|[-> Hk]].
  - exact (Hsound _ _ _ _ Hin Hin2).
  - assert (Ek : eqb k sat = true).
    { destruct Hk as [->|Hk]; [exact Rs | now rewrite eqb_sym]. }
    apply in_store in Hin2 as [Hin2|[-> Hk2]].
    + destruct (Hsound _ _ _ _ Hk0 Hin2) as (sat' & nrj' & ? & ? & E1 & E2 & L).
      exists sat', nrj'. repeat split; auto.
      apply (eqb_trans _ sat); [exact Ek|].
      apply (eqb_trans _ k0); assumption.
    + exists sat, nrj. repeat split; auto.
      destruct Hk2 as [->|Hk2]; [exact Rn | now rewrite eqb_sym].
Qed.

Lemma sound_watermarks (t : list row) (satellites energies : list value)
  (ld : list (value * list (value * Z))) (w w' : world) :
  view w = Some t ->
  watermarks satellites energies w = (Done ld, w') ->
  sound t satellites energies ld /\ w' = w.
Proof.
  intros Hv H.
  apply (for_each_inv
           (fun ld w1 => sound t satellites energies ld /\ w1 = w)
           (watermarks_of energies) satellites) with (s := []) (w := w);
    [| split; [intros k by_sat k2 m [] | reflexivity] | exact H].
  intros sat ld0 w0 ld1 w1 Hs [Hsound ->] Hstep.
  unfold Fetch.watermarks_of in Hstep.
  apply (for_each_inv
           (fun ld w1 => sound t satellites energies ld /\ w1 = w)
           (watermark_step sat) energies) with (3 := Hstep).
  - intros nrj ld2 w2 ld3 w3 Hn [Hsound2 ->] Hstep2.
    exact (sound_step _ _ _ _ _ _ _ _ _ Hv Hs Hn Hsound2 Hstep2).
  - split; [|reflexivity]. destruct (has_key sat ld0); [exact Hsound|].
    intros k by_sat k2 m Hin Hin2.
    apply in_store in Hin as [Hin|[-> _]]; [|destruct Hin2].
    exact (Hsound _ _ _ _ Hin Hin2).
Qed.

(** The loop of lines 189-192 keeps the readings for which the test of
    line 191 holds, in their order. *)
Lemma select_step_spec (ld : list (value * list (value * Z))) (d : value)
  (new_data : list value) (w : world) :
  select_step ld d new_data w =
    (and_then (is_new ld d)
       (fun b => Done (if b : bool then (new_data ++ [d])%list else new_data)), w).
Proof.
  unfold Fetch.select_step, Fetch.is_new, bind, lift, ret, and_then.
  destruct (getitem d "time_tag"); try reflexivity.
  destruct (py_strptime strptime a); try reflexivity.
  destruct (getitem d "satellite"); try reflexivity.
  destruct (lookup a1 ld); try reflexivity.
  destruct (getitem d "energy"); try reflexivity.
  destruct (lookup a3 a2); try reflexivity.
  now destruct (a4 <? a0)%Z.
Qed.

Lemma select_new_spec (ld : list (value * list (value * Z)))
  (data new_data : list value) (w w' : world) :
  select_new data ld w = (Done new_data, w') ->
  new_data = filter (kept ld) data /\ w' = w /\
  forall d, In d data -> exists b, is_new ld d = Done b.
Proof.
  unfold Fetch.select_new.
  enough (H : forall acc,
             for_each data (select_step ld) acc w = (Done new_data, w') ->
             new_data = (acc ++ filter (kept ld) data)%list /\ w' = w /\
             forall d, In d data -> exists b, is_new ld d = Done b)
    by apply (H []).
  induction data as [|d r IH]; intros acc H; simpl in H.
  - inversion H; subst. rewrite app_nil_r. repeat split. intros d [].
  - apply bind_inv_done in H as (acc' & w1 & H1 & H2).
    rewrite select_step_spec in H1. injection H1 as H1 <-.
    destruct (is_new ld d) as [b| |] eqn:E; try discriminate.
    simpl in H1. injection H1 as <-.
    destruct (IH _ H2) as (-> & -> & Hall). split; [|split; [reflexivity|]].
    + simpl. unfold Fetch.kept at 2. rewrite E.
      destruct b; [now rewrite <- app_assoc | reflexivity].
    + intros d' [<-|Hin]; [now exists b | now apply Hall].
Qed.

(** A run that gets through lines 103-192 did so in these steps. *)
Lemma prepare_done (sources : list (string * option string))
  (t : option (list row)) (new_data : list value) (w1 : world) :
  prepare sources (start t) = (Done new_data, w1) ->
  exists data satellites energies w0 ld,
    gather sources (start t) = (Done (data, satellites, energies), w0) /\
    sound (rows t) satellites energies ld /\
    new_data = filter (kept ld) data /\
    (forall d, In d data -> exists b, is_new ld d = Done b) /\
    w1 = World (Some (rows t)) (Some (rows t)) false (emitted w0).
Proof.
  intros H. unfold Fetch.prepare in H.
  apply bind_inv_done in H as ([[data satellites] energies] & w0 & Hg & H).
  pose proof (silent_gather sources (start t)) as S. rewrite Hg in S.
  destruct S as (Sc & Sv & Scl). simpl in Sc, Sv, Scl.
  apply bind_inv_done in H as ([] & wa & Ha & H).
  apply bind_inv_done in H as ([] & wb & Hb & H).
  unfold create_table in Ha. injection Ha as <-.
  unfold commit in Hb. simpl in Hb. injection Hb as <-.
  apply bind_inv_done in H as (ld & wc & Hw & H).
  rewrite Sv, Scl in *.
  apply sound_watermarks with (t := rows t) in Hw as [Hsound ->];
    [|simpl; now destruct t].
  apply select_new_spec in H as (-> & -> & Hall).
  exists data, satellites, energies, w0, ld. repeat split; auto.
Qed.

(** [max] of a column: nothing for no row, else one of the values; the
    greatest of them when the collation is a strict total order. *)
Lemma sql_max_from (acc : option string) (l : list string) :
  let step := fun (acc : option string) (s : string) =>
                match acc with
                | None => Some s
                | Some m => if collate_ltb m s then Some s else Some m
                end in
  match fold_left step l acc with
  | None => acc = None /\ l = []
  | Some m => acc = Some m \/ In m l
  end.
Proof.
  intros step. revert acc. induction l as [|x r IH]; intros acc; simpl.
  - destruct acc; auto.
  - specialize (IH (step acc x)).
    destruct (fold_left step r (step acc x)) as [m|].
    + destruct IH as [IH|IH]; [|auto]. unfold step in IH.
      destruct acc as [a|]; [destruct (collate_ltb a x)|];
        injection IH as <-; auto.
    + destruct IH as [IH _]. unfold step in IH.
      destruct acc as [a|]; [destruct (collate_ltb a x)|]; discriminate.
Qed.

Lemma sql_max_none (l : list string) :
  sql_max collate_ltb l = None <-> l = [].
Proof.
  split; [|now intros ->].
  intros H. pose proof (sql_max_from None l) as Hm. simpl in Hm.
  unfold sql_max in H. rewrite H in Hm. apply Hm.
Qed.

Lemma sql_max_in (l : list string) (m : string) :
  sql_max collate_ltb l = Some m -> In m l.
Proof.
  intros H. pose proof (sql_max_from None l) as Hm. simpl in Hm.
  unfold sql_max in H. rewrite H in Hm. now destruct Hm.
Qed.

Lemma sql_max_greatest (l : list string) (m : string) :
  (forall a, collate_ltb a a = false) ->
  (forall a b c, collate_ltb a b = true -> collate_ltb b c = true ->
                 collate_ltb a c = true) ->
  (forall a b, a = b \/ collate_ltb a b = true \/ collate_ltb b a = true) ->
  sql_max collate_ltb l = Some m ->
  forall x, In x l -> collate_ltb m x = false.
Proof.
  intros Hirr Htrans Htot. unfold sql_max.
  enough (H : forall acc m,
             fold_left (fun acc s =>
                          match acc with
                          | None => Some s
                          | Some a => if collate_ltb a s then Some s else Some a
                          end) l acc = Some m ->
             (forall a, acc = Some a -> collate_ltb m a = false) /\
             forall x, In x l -> collate_ltb m x = false).
  { intros Hm. now apply (H None). }
  clear m.
  assert (Hle : forall a b c, collate_ltb b a = false ->
                  collate_ltb c b = false -> collate_ltb c a = false).
  { intros a b c Hba Hcb. destruct (collate_ltb c a) eqn:E; [|reflexivity].
    destruct (Htot b c) as [->|[H|H]]; try congruence.
    rewrite (Htrans _ _ _ H E) in Hba. discriminate. }
  induction l as [|x r IH]; intros acc m H; simpl in H.
  - subst acc. split; [|intros x []].
    intros a Ha. injection Ha as ->. apply Hirr.
  - destruct acc as [a|].
    + destruct (collate_ltb a x) eqn:E.
      * destruct (IH _ _ H) as [H1 H2].
        specialize (H1 x eq_refl). split.
        -- intros a' Ha'. injection Ha' as <-.
           apply (Hle a x m); [|exact H1].
           destruct (collate_ltb x a) eqn:E'; [|reflexivity].
           pose proof (Htrans _ _ _ E E') as Haa. rewrite Hirr in Haa.
           discriminate.
        -- intros y [<-|Hy]; auto.
      * destruct (IH _ _ H) as [H1 H2].
        specialize (H1 a eq_refl). split.
        -- intros a' Ha'. now injection Ha' as <-.
        -- intros y [<-|Hy]; auto. apply (Hle x a m); assumption.
    + destruct (IH _ _ H) as [H1 H2]. split; [discriminate|].
      intros y [<-|Hy]; auto.
Qed.

(** The watermark of a satellite and an energy channel with no row is
    the sentinel; otherwise it is the instant of a datetime stored for
    the two. *)
Lemma watermark_cases (t : list row) (z : Z) (s : string) :
  ((forall r, In r t -> matches (Some z) (Some s) r = false) /\
   watermark t z s = strptime sentinel) \/
  exists r, In r t /\ satellite r = z /\ energy r = s /\
            watermark t z s = strptime (datetime r).
Proof.
  unfold Fetch.watermark.
  destruct (sql_max collate_ltb _) as [m|] eqn:E.
  - right. apply sql_max_in in E. apply in_map_iff in E as (r & <- & Hr).
    apply filter_In in Hr as [Hr Hm]. exists r. unfold matches in Hm.
    apply andb_true_iff in Hm as [Hz Hs].
    apply Z.eqb_eq in Hz. apply String.eqb_eq in Hs. auto.
  - left. split; [|reflexivity]. apply sql_max_none in E.
    intros r Hr. destruct (matches (Some z) (Some s) r) eqn:Hm; [|reflexivity].
    assert (Hin : In (datetime r)
                     (map datetime (filter (matches (Some z) (Some s)) t))).
    { apply in_map. apply filter_In. auto. }
    rewrite E in Hin. destruct Hin.
Qed.

(** What the dict of watermarks holds for a reading whose satellite is an
    int and whose energy channel is a str. *)
Lemma sound_lookup (t : list row) (satellites energies : list value)
  (ld : list (value * list (value * Z))) (z : Z) (s : string)
  (by_sat : list (value * Z)) (mark : Z) :
  sound t satellites energies ld ->
  lookup (PInt z) ld = Done by_sat -> lookup (PStr s) by_sat = Done mark ->
  watermark t z s = Some mark.
Proof.
  intros Hsound H1 H2.
  apply lookup_in in H1 as (k & Hk & Ek). apply lookup_in in H2 as (k2 & Hk2 & Ek2).
  destruct (Hsound _ _ _ _ Hk Hk2) as (sat & nrj & _ & _ & Es & En & L).
  pose proof (eqb_trans _ _ _ Ek Es) as Es'.
  pose proof (eqb_trans _ _ _ Ek2 En) as En'.
  apply latest_of_inv in L as (oz & os & Z1 & X1 & L).
  unfold Fetch.watermark.
  destruct sat; simpl in Es', Z1; try discriminate.
  destruct nrj; simpl in En', X1; try discriminate.
  apply Z.eqb_eq in Es'. apply String.eqb_eq in En'. subst z0 s0.
  destruct (unsendable s); [discriminate|].
  injection Z1 as <-. injection X1 as <-. exact L.
Qed.

(** The watermark is the instant of the sentinel when no row is stored
    for the satellite and the energy channel; otherwise the instant of a
    datetime stored for them that none of theirs follows in the order of
    the collation. *)
Lemma watermark_greatest (t : list row) (z : Z) (s : string) (mark : Z) :
  strict_order collate_ltb ->
  watermark t z s = Some mark ->
  ((forall r, In r t -> ~ of_pair z s r) /\
   strptime "1900-01-01T00:00:00Z" = Some mark) \/
  (exists r, In r t /\ of_pair z s r /\ strptime (datetime r) = Some mark /\
             forall r', In r' t -> of_pair z s r' ->
                        collate_ltb (datetime r) (datetime r') = false).
Proof.
  intros (Hirr & Htrans & Htot) H. unfold Fetch.watermark in H.
  destruct (sql_max collate_ltb _) as [m|] eqn:E.
  - right. pose proof (sql_max_greatest _ _ Hirr Htrans Htot E) as Hmax.
    apply sql_max_in in E. apply in_map_iff in E as (r & <- & Hr).
    apply filter_In in Hr as [Hr Hm]. exists r. unfold matches in Hm.
    apply andb_true_iff in Hm as [Hz Hs].
    apply Z.eqb_eq in Hz. apply String.eqb_eq in Hs.
    split; [exact Hr|]. split; [now split|]. split; [exact H|].
    intros r' Hr' [Hz' Hs']. apply Hmax. apply in_map. apply filter_In.
    split; [exact Hr'|]. unfold matches.
    now rewrite Hz', Hs', Z.eqb_refl, String.eqb_refl.
  - left. split; [|exact H]. apply sql_max_none in E.
    intros r Hr [Hz Hs].
    assert (Hin : In (datetime r)
                     (map datetime (filter (matches (Some z) (Some s)) t))).
    { apply in_map. apply filter_In. split; [exact Hr|]. unfold matches.
      now rewrite Hz, Hs, Z.eqb_refl, String.eqb_refl. }
    rewrite E in Hin. destruct Hin.
Qed.

(** Where the collation puts the stored datetimes in the order of their
    instants, no instant stored for the satellite and the energy channel
    is later than the watermark. *)
Lemma watermark_latest (t : list row) (z : Z) (s : string) (mark : Z) :
  strict_order collate_ltb -> in_order strptime collate_ltb z s t ->
  watermark t z s = Some mark ->
  forall r j, In r t -> of_pair z s r -> strptime (datetime r) = Some j ->
              (j <= mark)%Z.
Proof.
  intros Hord Hin H r j Hr Hp Hj.
  destruct (watermark_greatest t z s mark Hord H)
    as [[Hnone _]|(g & Hg & Hpg & Hmark & Hmax)].
  - now elim (Hnone r Hr).
  - destruct Hord as (_ & _ & Htot).
    destruct (Htot (datetime g) (datetime r)) as [E|[E|E]].
    + rewrite E in Hmark. rewrite Hj in Hmark. injection Hmark as <-. lia.
    + rewrite (Hmax r Hr Hp) in E. discriminate.
    + exact (Hin r g j mark Hr Hg Hp Hpg E Hj Hmark).
Qed.


End Filter.

(** *** Running twice *)

Section Twice.

Variable strptime : string -> option Z.
Variable collate_ltb : string -> string -> bool.

Local Abbreviation prepare := (Fetch.prepare strptime collate_ltb).
Local Abbreviation main := (Fetch.main strptime collate_ltb).
Local Abbreviation latest_of := (Fetch.latest_of strptime collate_ltb).
Local Abbreviation is_new := (Fetch.is_new strptime).
Local Abbreviation kept := (Fetch.kept strptime).
Local Abbreviation after_run := (Fetch.after_run strptime collate_ltb).

(** What lines 103-165 return does not depend on the database. *)
Lemma blind_gather (sources : list (string * option string)) :
  blind (gather sources).
Proof.
  unfold gather, checked, download, download_step, check_texts, check_step,
    parse, parse_step, validate, validate_step, aggregate, collect_all, collect.
  blinded.
Qed.

Lemma aggregated_data (sources : list (string * option string))
  (t : option (list row)) (data satellites energies : list value) (w0 : world) :
  gather sources (start t) = (Done (data, satellites, energies), w0) ->
  aggregated sources = data.
Proof.
  intros H. unfold aggregated.
  rewrite (blind_gather sources (start None) (start t)), H. reflexivity.
Qed.

(** Line 203 for one reading. *)
Lemma insert_step_spec (d : value) (n : nat) (w : world) :
  insert_step d n w =
    match row_of d with
    | Done r =>
        match view w with
        | Some t =>
            (Done (n + 1)%nat,
             World (committed w) (Some (insert_do_nothing r t)) (closed w)
                   (emitted w))
        | None => (Raise DatabaseError, w)
        end
    | Exit c => (Exit c, w)
    | Raise e => (Raise e, w)
    end.
Proof.
  unfold insert_step, row_of, insert, bind, lift, ret, and_then, read_table,
    write_table.
  destruct (getitem d "time_tag"); try reflexivity.
  destruct (getitem d "satellite"); try reflexivity.
  destruct (getitem d "energy"); try reflexivity.
  destruct (getitem d "corrected_flux"); try reflexivity.
  destruct (getitem d "observed_flux"); try reflexivity.
  destruct (getitem d "electron_correction"); try reflexivity.
  destruct (insert_text a); try reflexivity.
  destruct (insert_int a0); try reflexivity.
  destruct (insert_text a1); try reflexivity.
  destruct (insert_real a2); try reflexivity.
  destruct (insert_real a3); try reflexivity.
  destruct (insert_real a4); try reflexivity.
  now destruct (view w).
Qed.

(** The rows a completed insertion loop sent, and the table after them. *)
Lemma insert_all_done (new_data : list value) (w w' : world) (n : nat)
  (t : list row) :
  view w = Some t -> insert_all new_data w = (Done n, w') ->
  exists rs,
    Forall2 (fun d r => row_of d = Done r) new_data rs /\
    view w' = Some (fold_left (fun t r => insert_do_nothing r t) rs t) /\
    committed w' = committed w.
Proof.
  unfold insert_all. generalize 0%nat.
  revert w t. induction new_data as [|d r IH]; intros w t n0 Hv H; simpl in H.
  - injection H as <- <-. exists []. repeat split; [constructor | exact Hv].
  - apply bind_inv_done in H as (n1 & w1 & H1 & H2).
    rewrite insert_step_spec, Hv in H1.
    destruct (row_of d) as [x| |] eqn:E; try discriminate.
    injection H1 as <- <-.
    destruct (fun Hv0 => IH _ (insert_do_nothing x t) _ Hv0 H2)
      as (rs & HF & Hv' & Hc); [reflexivity|].
    exists (x :: rs). repeat split; [now constructor | exact Hv' | exact Hc].
Qed.


(** Rows and keys under [insert ... on conflict do nothing]. *)
Lemma same_key_iff (a b : row) : same_key a b = true <-> key a = key b.
Proof.
  unfold same_key, key.
  rewrite !andb_true_iff, !String.eqb_eq, Z.eqb_eq. split.
  - intros [[-> ->] ->]. reflexivity.
  - intros H. injection H as -> -> ->. auto.
Qed.

Lemma insert_existing (r : row) (t : list row) :
  In (key r) (map key t) -> insert_do_nothing r t = t.
Proof.
  intros H. unfold insert_do_nothing.
  replace (existsb (same_key r) t) with true; [reflexivity|].
  symmetry. apply existsb_exists. apply in_map_iff in H as (r' & Hk & Hin).
  exists r'. split; [exact Hin|]. now apply same_key_iff.
Qed.

Lemma insert_new (r : row) (t : list row) :
  ~ In (key r) (map key t) -> insert_do_nothing r t = (t ++ [r])%list.
Proof.
  intros H. unfold insert_do_nothing.
  destruct (existsb (same_key r) t) eqn:E; [|reflexivity].
  apply existsb_exists in E as (r' & Hin & Hk). elim H.
  apply same_key_iff in Hk. rewrite Hk. now apply in_map.
Qed.

Lemma in_dec_key (r : row) (t : list row) :
  In (key r) (map key t) \/ ~ In (key r) (map key t).
Proof.
  destruct (existsb (same_key r) t) eqn:E.
  - left. apply existsb_exists in E as (r' & Hin & Hk).
    apply same_key_iff in Hk. rewrite Hk. now apply in_map.
  - right. intros H. apply in_map_iff in H as (r' & Hk & Hin).
    assert (existsb (same_key r) t = true); [|congruence].
    apply existsb_exists. exists r'. split; [exact Hin|]. now apply same_key_iff.
Qed.

(** After a batch of inserts: the old rows first, then some rows of the
    batch; every key of the batch is stored; the keys stay distinct. *)
Lemma inserts_spec (rs t : list row) :
  exists added,
    fold_left (fun t r => insert_do_nothing r t) rs t = (t ++ added)%list /\
    incl added rs /\
    (forall r, In r rs ->
       In (key r) (map key (fold_left (fun t r => insert_do_nothing r t) rs t))) /\
    (NoDup (map key t) ->
     NoDup (map key (fold_left (fun t r => insert_do_nothing r t) rs t))).
Proof.
  revert t. induction rs as [|r rs IH]; intros t; simpl.
  - exists []. rewrite app_nil_r. repeat split; [easy | intros r [] | auto].
  - destruct (in_dec_key r t) as [Hin|Hnin].
    + rewrite (insert_existing _ _ Hin).
      destruct (IH t) as (added & E & Hincl & Hkeys & Hnd).
      exists added. repeat split; auto.
      * now apply incl_tl.
      * intros r' [<-|Hr']; [|now apply Hkeys].
        rewrite E, map_app. apply in_or_app. now left.
    + rewrite (insert_new _ _ Hnin).
      destruct (IH (t ++ [r])%list) as (added & E & Hincl & Hkeys & Hnd).
      exists (r :: added). repeat split.
      * rewrite E. now rewrite <- app_assoc.
      * intros x [<-|Hx]; [now left | right; now apply Hincl].
      * intros r' [<-|Hr']; [|now apply Hkeys].
        rewrite E, !map_app. apply in_or_app. left. apply in_or_app. right.
        now left.
      * intros Ht. apply Hnd. rewrite map_app. simpl.
        apply NoDup_app; [exact Ht | constructor; [easy | constructor] |].
        intros k Hk [<-|[]]. now apply Hnin.
Qed.

(** The greatest datetime after rows are appended is the one before, or
    the datetime of an appended row. *)
Lemma sql_max_app (l l' : list string) :
  sql_max collate_ltb (l ++ l') = sql_max collate_ltb l \/
  exists x, In x l' /\ sql_max collate_ltb (l ++ l') = Some x.
Proof.
  unfold sql_max. rewrite fold_left_app.
  generalize (fold_left
                (fun acc s =>
                   match acc with
                   | None => Some s
                   | Some m => if collate_ltb m s then Some s else Some m
                   end) l None).
  induction l' as [|x r IH]; intros acc; simpl; [now left|].
  destruct (IH (match acc with
                | None => Some x
                | Some m => if collate_ltb m x then Some x else Some m
                end)) as [E|(y & Hy & E)].
  - rewrite E. destruct acc as [m|]; [destruct (collate_ltb m x)|]; eauto.
  - right. eauto.
Qed.

(** A reading that line 203 can send has a str timestamp and a str energy
    channel, those of its row, and a satellite the database stores as the
    one of its row: itself when it is an int. *)
Lemma row_of_inv (d : value) (r : row) :
  row_of d = Done r ->
  getitem d "time_tag" = Done (PStr (datetime r)) /\
  (exists sat, getitem d "satellite" = Done sat /\
               insert_int sat = Done (satellite r)) /\
  getitem d "energy" = Done (PStr (energy r)).
Proof.
  unfold row_of, and_then.
  destruct (getitem d "time_tag") as [tv| |]; try discriminate.
  destruct (getitem d "satellite") as [sv| |]; try discriminate.
  destruct (getitem d "energy") as [nv| |]; try discriminate.
  destruct (getitem d "corrected_flux"); try discriminate.
  destruct (getitem d "observed_flux"); try discriminate.
  destruct (getitem d "electron_correction"); try discriminate.
  destruct (insert_text tv) as [dt| |] eqn:Et; try discriminate.
  destruct (insert_int sv) as [z| |] eqn:Ez; try discriminate.
  destruct (insert_text nv) as [s| |] eqn:Es; try discriminate.
  destruct (insert_real a); try discriminate.
  destruct (insert_real a0); try discriminate.
  destruct (insert_real a1); try discriminate.
  intros H. injection H as <-. simpl.
  destruct tv; try discriminate. destruct nv; try discriminate.
  simpl in Et, Es.
  destruct (unsendable s0); [discriminate|].
  destruct (unsendable s1); [discriminate|].
  injection Et as <-. injection Es as <-. eauto.
Qed.

Lemma row_of_int (d : value) (r : row) :
  int_satellite d = true -> row_of d = Done r ->
  getitem d "satellite" = Done (PInt (satellite r)).
Proof.
  intros Hi Hr. apply row_of_inv in Hr as (_ & (sat & Gs & Ez) & _).
  unfold int_satellite in Hi. rewrite Gs in *.
  destruct sat; try discriminate. simpl in Ez.
  destruct (in_int4 z); [|discriminate]. now injection Ez as <-.
Qed.

(** A kept reading with an int satellite that can be sent is strictly
    later than the watermark of its satellite and energy channel. *)
Lemma kept_later (t : list row) (satellites energies : list value)
  (ld : list (value * list (value * Z))) (d : value) (r : row) :
  sound strptime collate_ltb t satellites energies ld ->
  int_satellite d = true -> kept ld d = true -> row_of d = Done r ->
  exists i m,
    strptime (datetime r) = Some i /\
    watermark strptime collate_ltb t (satellite r) (energy r) = Some m /\
    (m < i)%Z.
Proof.
  intros Hs Hz Hk Hr. pose proof (row_of_int _ _ Hz Hr) as Gs.
  apply row_of_inv in Hr as (Gt & _ & Gn).
  unfold Fetch.kept, Fetch.is_new in Hk. rewrite Gt, Gs, Gn in Hk. simpl in Hk.
  destruct (strptime (datetime r)) as [i|]; [|discriminate]. simpl in Hk.
  destruct (lookup (PInt (satellite r)) ld) as [by_sat| |] eqn:L1;
    try discriminate.
  simpl in Hk.
  destruct (lookup (PStr (energy r)) by_sat) as [m| |] eqn:L2; try discriminate.
  simpl in Hk. exists i, m. split; [reflexivity|]. split.
  - exact (sound_lookup _ _ _ _ _ _ _ _ _ _ Hs L1 L2).
  - now apply Z.ltb_lt.
Qed.

(** When every appended row of a satellite and an energy channel is
    later than their watermark, the watermark does not go back. *)
Lemma mark_grows (t added : list row) (z : option Z) (x : option string)
  (m1 m2 : Z) :
  (forall r, In r added -> matches z x r = true ->
     exists i, strptime (datetime r) = Some i /\ (m1 < i)%Z) ->
  match sql_max collate_ltb (map datetime (filter (matches z x) t)) with
  | None => strptime sentinel
  | Some y => strptime y
  end = Some m1 ->
  match sql_max collate_ltb (map datetime (filter (matches z x) (t ++ added))) with
  | None => strptime sentinel
  | Some y => strptime y
  end = Some m2 ->
  (m1 <= m2)%Z.
Proof.
  intros Hadd H1 H2. rewrite filter_app, map_app in H2.
  destruct (sql_max_app (map datetime (filter (matches z x) t))
              (map datetime (filter (matches z x) added))) as [E|(y & Hy & E)].
  - rewrite E, H1 in H2. injection H2 as <-. lia.
  - rewrite E in H2. apply in_map_iff in Hy as (r & <- & Hr).
    apply filter_In in Hr as [Hin Hm].
    destruct (Hadd r Hin Hm) as (i & Hi & Hlt). rewrite Hi in H2.
    injection H2 as <-. lia.
Qed.

Lemma is_new_inv (ld : list (value * list (value * Z))) (d : value) (b : bool) :
  is_new ld d = Done b ->
  exists i sv nv by_sat m,
    getitem d "satellite" = Done sv /\ getitem d "energy" = Done nv /\
    lookup sv ld = Done by_sat /\ lookup nv by_sat = Done m /\
    b = (m <? i)%Z.
Proof.
  unfold Fetch.is_new, and_then.
  destruct (getitem d "time_tag") as [tv| |]; try discriminate.
  destruct (py_strptime strptime tv) as [i| |]; try discriminate.
  destruct (getitem d "satellite") as [sv| |]; try discriminate.
  destruct (lookup sv ld) as [by_sat| |] eqn:L1; try discriminate.
  destruct (getitem d "energy") as [nv| |]; try discriminate.
  destruct (lookup nv by_sat) as [m| |] eqn:L2; try discriminate.
  intros H. injection H as <-. exists i, sv, nv, by_sat, m. auto.
Qed.




Lemma Forall2_in_r {A B} (P : A -> B -> Prop) (l : list A) (l' : list B) (b : B) :
  Forall2 P l l' -> In b l' -> exists a, In a l /\ P a b.
Proof.
  induction 1 as [|x y l l' Hxy HF IH]; intros Hin; [destruct Hin|].
  destruct Hin as [<-|Hin].
  - exists x. split; [now left | exact Hxy].
  - destruct (IH Hin) as (a & Ha & HP). exists a. split; [now right | exact HP].
Qed.

Lemma Forall2_in_l {A B} (P : A -> B -> Prop) (l : list A) (l' : list B) (a : A) :
  Forall2 P l l' -> In a l -> exists b, In b l' /\ P a b.
Proof.
  induction 1 as [|x y l l' Hxy HF IH]; intros Hin; [destruct Hin|].
  destruct Hin as [<-|Hin].
  - exists y. split; [now left | exact Hxy].
  - destruct (IH Hin) as (b & Hb & HP). exists b. split; [now right | exact HP].
Qed.


(** A run that runs to its end found the lock free, and committed the
    table it found followed by rows of readings it kept. *)
Lemma main_done (sources : list (string * option string)) (locked : bool)
  (t : option (list row)) (wf : world) :
  main sources locked (start t) = (Done tt, wf) ->
  exists data satellites energies w0 ld added,
    gather sources (start t) = (Done (data, satellites, energies), w0) /\
    sound strptime collate_ltb (rows t) satellites energies ld /\
    (forall d, In d data -> exists b, is_new ld d = Done b) /\
    committed wf = Some (rows t ++ added)%list /\
    (forall r, In r added ->
       exists d, In d data /\ kept ld d = true /\ row_of d = Done r) /\
    (forall d r, In d data -> kept ld d = true -> row_of d = Done r ->
       In (key r) (map key (rows t ++ added)%list)) /\
    (NoDup (map key (rows t)) -> NoDup (map key (rows t ++ added)%list)) /\
    exists w1 rs,
      prepare sources (start t) = (Done (filter (kept ld) data), w1) /\
      Forall2 (fun d r => row_of d = Done r) (filter (kept ld) data) rs.
Proof.
  intros H. unfold Fetch.main in H.
  apply bind_inv_done in H as (nd & w1 & Hp & H).
  pose proof Hp as Hp0.
  apply prepare_done in Hp as (data & sats & nrjs & w0 & ld & Hg & Hs & -> & Hall & ->).
  unfold write, lock_table in H. destruct locked; [discriminate H|].
  apply bind_inv_done in H as ([] & w1 & Hl & H).
  unfold ret in Hl. injection Hl as <-.
  apply bind_inv_done in H as (n & w2 & Hi & H).
  apply insert_all_done with (t := rows t) in Hi as (rs & HF & Hv & Hc);
    [|reflexivity].
  unfold bind, commit, close, emit in H. simpl in H. injection H as <-.
  destruct (inserts_spec rs (rows t)) as (added & E & Hincl & Hkeys & Hnd).
  rewrite E in *. simpl.
  exists data, sats, nrjs, w0, ld, added.
  split; [exact Hg|]. split; [exact Hs|]. split; [exact Hall|].
  split; [exact Hv|]. split; [|split; [|split; [exact Hnd|]]].
  - intros r Hr. apply Hincl in Hr.
    destruct (Forall2_in_r _ _ _ _ HF Hr) as (d & Hd & Hrow).
    apply filter_In in Hd as [Hd Hk]. now exists d.
  - intros d r Hd Hk Hrow.
    assert (Hnd' : In d (filter (kept ld) data)) by (now apply filter_In).
    destruct (Forall2_in_l _ _ _ _ HF Hnd') as (r' & Hr' & Hrow').
    rewrite Hrow in Hrow'. injection Hrow' as <-. now apply Hkeys.
  - eexists. exists rs. split; [exact Hp0 | exact HF].
Qed.



End Twice.

(** *** When a run gets through lines 103-192 *)

Section Total.

Variable strptime : string -> option Z.
Variable collate_ltb : string -> string -> bool.

Local Abbreviation prepare := (Fetch.prepare strptime collate_ltb).
Local Abbreviation watermarks := (Fetch.watermarks strptime collate_ltb).
Local Abbreviation watermarks_of := (Fetch.watermarks_of strptime collate_ltb).
Local Abbreviation watermark_step := (Fetch.watermark_step strptime collate_ltb).
Local Abbreviation select_new := (Fetch.select_new strptime).
Local Abbreviation latest_of := (Fetch.latest_of strptime collate_ltb).
Local Abbreviation is_new := (Fetch.is_new strptime).
Local Abbreviation watermark := (Fetch.watermark strptime collate_ltb).

(** The set collected for a field holds the values of the field in the
    aggregated readings, each up to Python's equality. *)
Definition covered (field : string) (data set : list value) : Prop :=
  (forall v, In v set -> exists d, In d data /\ getitem d field = Done v) /\
  (forall d v, In d data -> getitem d field = Done v ->
     exists v', In v' set /\ eqb v v' = true).

Lemma set_add_spec (v : value) (s s' : list value) :
  set_add v s = Done s' ->
  (forall x, In x s -> In x s') /\
  (forall x, In x s' -> In x s \/ x = v) /\
  exists v', In v' s' /\ eqb v v' = true.
Proof.
  unfold set_add. destruct (hashable v) eqn:Hh; [|discriminate].
  destruct (existsb (eqb v) s) eqn:E; intros H; injection H as <-.
  - apply existsb_exists in E as (v' & Hin & Ev). repeat split; auto.
    now exists v'.
  - repeat split.
    + intros x Hx. apply in_or_app. now left.
    + intros x Hx. apply in_app_or in Hx as [Hx|[<-|[]]]; auto.
    + exists v. split; [apply in_or_app; right; now left|].
      now apply eqb_refl_hashable.
Qed.

Lemma covered_add (field : string) (data set set' : list value) (d : value)
  (v : value) :
  getitem d field = Done v -> set_add v set = Done set' ->
  covered field data set -> covered field (data ++ [d])%list set'.
Proof.
  intros Hg Ha [H1 H2]. destruct (set_add_spec _ _ _ Ha) as (A1 & A2 & A3).
  split.
  - intros x Hx. destruct (A2 x Hx) as [Hin| ->].
    + destruct (H1 x Hin) as (d' & Hd' & G). exists d'. split; [|exact G].
      apply in_or_app. now left.
    + exists d. split; [apply in_or_app; right; now left | exact Hg].
  - intros d' x Hd' G. apply in_app_or in Hd' as [Hd'|[<-|[]]].
    + destruct (H2 d' x Hd' G) as (v' & Hv' & E). exists v'. auto.
    + rewrite Hg in G. injection G as <-. exact A3.
Qed.

Lemma collect_covered (item : value) (acc acc' : list value * list value * list value)
  (w w' : world) :
  collect item acc w = (Done acc', w') ->
  covered "satellite" (fst (fst acc)) (snd (fst acc)) ->
  covered "energy" (fst (fst acc)) (snd acc) ->
  covered "satellite" (fst (fst acc')) (snd (fst acc')) /\
  covered "energy" (fst (fst acc')) (snd acc').
Proof.
  destruct acc as [[data sats] nrjs]. unfold collect. intros H Hs Hn.
  apply bind_inv_done in H as (sat & w1 & H1 & H).
  apply bind_inv_done in H as (sats' & w2 & H2 & H).
  apply bind_inv_done in H as (nrj & w3 & H3 & H).
  apply bind_inv_done in H as (nrjs' & w4 & H4 & H).
  apply bind_inv_done in H as (flux & w5 & H5 & H).
  unfold lift in *. injection H1 as H1 _. injection H2 as H2 _.
  injection H3 as H3 _. injection H4 as H4 _.
  destruct item as [| | | | | |fields]; try discriminate.
  unfold ret in H. injection H as <- _. simpl in *.
  set (item' := PDict (dict_pop "flux" (dict_set "corrected_flux" flux fields))).
  assert (G1 : getitem item' "satellite" = Done sat).
  { simpl. rewrite PyFacts.dict_get_pop_other, PyFacts.dict_get_set_other;
      [exact H1 | discriminate | discriminate]. }
  assert (G2 : getitem item' "energy" = Done nrj).
  { simpl. rewrite PyFacts.dict_get_pop_other, PyFacts.dict_get_set_other;
      [exact H3 | discriminate | discriminate]. }
  split.
  - exact (covered_add _ _ _ _ _ _ G1 H2 Hs).
  - exact (covered_add _ _ _ _ _ _ G2 H4 Hn).
Qed.

Lemma aggregate_covered (jsons data satellites energies : list value)
  (w w' : world) :
  aggregate jsons w = (Done (data, satellites, energies), w') ->
  covered "satellite" data satellites /\ covered "energy" data energies.
Proof.
  intros H.
  apply (for_each_inv
           (fun acc (_ : world) =>
              covered "satellite" (fst (fst acc)) (snd (fst acc)) /\
              covered "energy" (fst (fst acc)) (snd acc))
           collect_all jsons) with (3 := H).
  - intros json acc w0 acc' w0' _ HI Hstep. unfold collect_all in Hstep.
    apply bind_inv_done in Hstep as (items & w1 & _ & Hstep).
    apply (for_each_inv
             (fun acc (_ : world) =>
                covered "satellite" (fst (fst acc)) (snd (fst acc)) /\
                covered "energy" (fst (fst acc)) (snd acc))
             collect items) with (2 := HI) (3 := Hstep).
    intros item a w2 a' w2' _ [Hs Hn] Hc. exact (collect_covered _ _ _ _ _ Hc Hs Hn).
  - simpl. split; (split; [intros v [] | intros d v []]).
Qed.









End Total.





(** C6 on the same table and download, with the lock held. *)
Lemma lock_held_exits_cleanly_witness :
  let t := Some [Fixtures.stored "2024-05-01T00:00:00Z" "1.5e-07"] in
  let sources := [("primary", Some Fixtures.two_readings)] in
  Fetch.main Utc.strptime_z String.ltb sources true (start t)
  = (Exit 0, World t t false [SomeoneAlreadyWriting]) /\
  rows (Fetch.after_run Utc.strptime_z String.ltb t (sources, true)) = rows t.
Proof.
  intros t sources.
  destruct (lock_held_exits_cleanly Utc.strptime_z String.ltb sources t)
    as [H1 H2].
  split; [|exact H1].
  destruct (H2 [Fixtures.second_reading] (World t t false [])) as (H & _).
  - vm_compute. reflexivity.
  - exact H.
Defined.

(** C8 as stated fails for fetch.py: [connection.close()] is line 207
    and no other.  A run that finds no usable download leaves by line 130
    and one that finds the table locked by line 199, both with the
    connection open. *)
Lemma early_exit_leaves_connection_open :
  Fetch.main Utc.strptime_z String.ltb [("primary", None)] false (start None)
  = (Exit 0,
     World None None false
           [CouldntDownload "primary"; NoDataFromDownload "primary";
            NoDataFromDownloads]) /\
  Fetch.main Utc.strptime_z String.ltb
    [("primary", Some Fixtures.two_readings)] true (start None)
  = (Exit 0, World (Some []) (Some []) false [SomeoneAlreadyWriting]).
Proof. split; vm_compute; reflexivity. Qed.

(** C1 does not hold of the code.  With a first source that returns an
    error page and a second that returns two readings, the failed parse is
    printed and recorded as [None], the validation passes on the strength
    of the second source, and the aggregation loop (line 160) then
    iterates over the [None]: the run dies of [TypeError] with nothing
    aggregated, no statement sent and no row persisted. *)
Theorem malformed_source_aborts_run :
  Fetch.main Utc.strptime_z String.ltb
    [("primary", Some Fixtures.error_page);
     ("secondary", Some Fixtures.two_readings)]
    false (start None)
  = (Raise TypeError,
     World None None false
           [CouldntInterpretJson "primary"; NoJsonDataFrom "primary"]).
Proof. vm_compute. reflexivity. Qed.

(** The same two sources in the other order: the two readings are
    collected first, and lost when the loop reaches the [None]. *)
Example malformed_source_last :
  Fetch.main Utc.strptime_z String.ltb
    [("primary", Some Fixtures.two_readings);
     ("secondary", Some Fixtures.error_page)]
    false (start None)
  = (Raise TypeError,
     World None None false
           [CouldntInterpretJson "secondary"; NoJsonDataFrom "secondary"]).
Proof. vm_compute. reflexivity. Qed.

(** C5 does not hold of the code.  The validation only prints that the
    first item of a source has no [time_tag]; the aggregation loop still
    collects the items of that source.  Here the item of the untagged
    source is the first of the aggregated data, and the run dies of
    [KeyError] when the filter (line 191) reads its [time_tag]. *)
Theorem untagged_source_is_aggregated :
  let sources := [("primary", Some Fixtures.untagged);
                  ("secondary", Some Fixtures.two_readings)] in
  (exists data satellites energies w',
      gather sources (start None) = (Done (data, satellites, energies), w') /\
      nth_error data 0 = Some Fixtures.untagged_item /\
      List.length data = 3%nat) /\
  fst (Fetch.main Utc.strptime_z String.ltb sources false (start None))
  = Raise KeyError.
Proof.
  split.
  - vm_compute. do 4 eexists. split; [reflexivity|]. split; reflexivity.
  - vm_compute. reflexivity.
Qed.

End FetchFacts.

(** ** draw.py *)

Module DrawFacts.
Import Script ScriptFacts Draw.
Local Open Scope script_scope.

(** *** Sorting *)

Definition le_dt (a b : point) : Prop := (fst a <= fst b)%Z.

Lemma point_lt_true (a b : point) : point_lt a b = Done true -> le_dt a b.
Proof.
  unfold point_lt, le_dt. destruct (Z.eqb_spec (fst a) (fst b)) as [->|Hne]; simpl.
  - intros _. lia.
  - intros H. injection H as H. apply Z.ltb_lt in H. lia.
Qed.

Lemma point_lt_false (a b : point) : point_lt a b = Done false -> le_dt b a.
Proof.
  unfold point_lt, le_dt. destruct (Z.eqb_spec (fst a) (fst b)) as [->|Hne]; simpl.
  - intros _. lia.
  - intros H. injection H as H. apply Z.ltb_ge in H. lia.
Qed.

Lemma insert_point_spec (x : point) (l l' : list point) :
  insert_point x l = Done l' ->
  Permutation (x :: l) l' /\
  (forall y, le_dt y x -> HdRel le_dt y l -> HdRel le_dt y l') /\
  (Sorted le_dt l -> Sorted le_dt l').
Proof.
  revert l'. induction l as [|y r IH]; intros l' H; simpl in H.
  - injection H as <-. repeat split; auto.
  - destruct (point_lt x y) as [[|]| |] eqn:E; simpl in H; try discriminate.
    + injection H as <-. repeat split; auto.
      intros Hs. constructor; [exact Hs|]. constructor. now apply point_lt_true.
    + destruct (insert_point x r) as [r'| |]; simpl in H; try discriminate.
      injection H as <-. destruct (IH r' eq_refl) as (HP & HH & HS).
      apply point_lt_false in E. repeat split.
      * rewrite perm_swap. now constructor.
      * intros z Hz Hd. constructor. now inversion Hd.
      * intros Hs. inversion Hs; subst. constructor; auto.
Qed.

(** [l.sort()], when no comparison raises: the same points, in
    ascending order of their instants. *)
Lemma sort_points_spec (l l' : list point) :
  sort_points l = Done l' -> Permutation l l' /\ Sorted le_dt l'.
Proof.
  unfold sort_points.
  enough (H : forall acc acc',
             Sorted le_dt acc ->
             fold_left (fun acc x => and_then acc (insert_point x)) l (Done acc)
             = Done acc' ->
             Permutation (acc ++ l) acc' /\ Sorted le_dt acc').
  { intros E. apply (H [] l'); [constructor | exact E]. }
  induction l as [|x r IH]; intros acc acc' Hs H; simpl in H.
  - injection H as <-. rewrite app_nil_r. auto.
  - destruct (insert_point x acc) as [acc1| |] eqn:E.
    + destruct (insert_point_spec _ _ _ E) as (HP & _ & HS).
      destruct (IH acc1 acc' (HS Hs) H) as (HP' & HS'). split; [|exact HS'].
      rewrite <- HP'. rewrite <- HP.
      change (x :: acc)%list with ([x] ++ acc)%list.
      rewrite (Permutation_app_comm [x] acc), <- app_assoc. reflexivity.
    + exfalso. clear -H. induction r as [|y r IH]; simpl in H; [discriminate|auto].
    + exfalso. clear -H. induction r as [|y r IH]; simpl in H; [discriminate|auto].
Qed.

Lemma sorted_dts (l : list point) : Sorted le_dt l -> Sorted Z.le (map fst l).
Proof.
  induction 1 as [|x l Hs IH Hd]; simpl; constructor; auto.
  destruct Hd; simpl; constructor; auto.
Qed.

Lemma combine_fst_snd {A B} (l : list (A * B)) :
  combine (map fst l) (map snd l) = l.
Proof. induction l as [|[a b] r IH]; simpl; [reflexivity | now rewrite IH]. Qed.

Lemma point_lt_earlier (t t' : Z) (v v' : option PrimFloat.float) :
  (t < t')%Z -> point_lt (t, v) (t', v') = Done true.
Proof.
  intros H. unfold point_lt. simpl.
  replace (t =? t')%Z with false by (symmetry; apply Z.eqb_neq; lia). simpl.
  f_equal. apply Z.ltb_lt. lia.
Qed.

Lemma point_lt_later (t t' : Z) (v v' : option PrimFloat.float) :
  (t' < t)%Z -> point_lt (t, v) (t', v') = Done false.
Proof.
  intros H. unfold point_lt. simpl.
  replace (t =? t')%Z with false by (symmetry; apply Z.eqb_neq; lia). simpl.
  f_equal. apply Z.ltb_ge. lia.
Qed.

(** Three points that arrive as third, first, second. *)
Lemma sort_three (t1 t2 t3 : Z) (v1 v2 v3 : option PrimFloat.float) :
  (t1 < t2)%Z -> (t2 < t3)%Z ->
  sort_points [(t3, v3); (t1, v1); (t2, v2)]
  = Done [(t1, v1); (t2, v2); (t3, v3)].
Proof.
  intros H12 H23. unfold sort_points.
  cbn [fold_left and_then insert_point].
  rewrite (point_lt_earlier t1 t3) by lia. cbn [and_then insert_point].
  rewrite (point_lt_later t2 t1) by lia. cbn [and_then insert_point].
  rewrite (point_lt_earlier t2 t3) by lia. reflexivity.
Qed.

(** [sorted(data.keys())] *)
Lemma insert_key_spec (x : Z) (l : list Z) :
  Permutation (x :: l) (insert_key x l) /\
  (forall y, (y <= x)%Z -> HdRel Z.le y l -> HdRel Z.le y (insert_key x l)) /\
  (Sorted Z.le l -> Sorted Z.le (insert_key x l)).
Proof.
  induction l as [|y r (HP & HH & HS)]; simpl.
  - repeat split; auto.
  - destruct (Z.ltb_spec x y).
    + repeat split; auto. intros Hs. constructor; [exact Hs|]. constructor. lia.
    + repeat split.
      * rewrite perm_swap. now constructor.
      * intros z Hz Hd. constructor. now inversion Hd.
      * intros Hs. inversion Hs; subst. constructor; auto.
Qed.

Lemma sorted_keys_spec (l : list Z) :
  Permutation l (sorted_keys l) /\ Sorted Z.le (sorted_keys l).
Proof.
  unfold sorted_keys.
  enough (H : forall acc, Sorted Z.le acc ->
             Permutation (acc ++ l) (fold_left (fun acc x => insert_key x acc) l acc)
             /\ Sorted Z.le (fold_left (fun acc x => insert_key x acc) l acc))
    by (apply (H []); constructor).
  induction l as [|x r IH]; intros acc Hs; simpl.
  - rewrite app_nil_r. auto.
  - destruct (insert_key_spec x acc) as (HP & _ & HS).
    destruct (IH _ (HS Hs)) as (HP' & HS'). split; [|exact HS'].
    rewrite <- HP', <- HP.
    change (x :: acc)%list with ([x] ++ acc)%list.
    rewrite (Permutation_app_comm [x] acc), <- app_assoc. reflexivity.
Qed.

(** *** Grouping *)

Section Assoc.

Context {K V : Type} (eqb : K -> K -> bool).
Hypothesis eqb_eq : forall a b, eqb a b = true <-> a = b.

Lemma find_alter_same (k : K) (f : option V -> V) (d : list (K * V)) :
  find eqb k (alter eqb k f d) = Some (f (find eqb k d)).
Proof.
  induction d as [|[k' v] r IH]; simpl.
  - now rewrite (proj2 (eqb_eq k k) eq_refl).
  - destruct (eqb k k') eqn:E; simpl; rewrite E; [reflexivity | exact IH].
Qed.

Lemma find_alter_other (k k' : K) (f : option V -> V) (d : list (K * V)) :
  k <> k' -> find eqb k (alter eqb k' f d) = find eqb k d.
Proof.
  intros Hne. assert (E : eqb k k' = false).
  { destruct (eqb k k') eqn:E; [|reflexivity]. now apply eqb_eq in E. }
  induction d as [|[k2 v] r IH]; simpl.
  - now rewrite E.
  - destruct (eqb k' k2) eqn:E2; simpl.
    + apply eqb_eq in E2. subst k2. now rewrite E.
    + now rewrite IH.
Qed.

Lemma keys_alter (k : K) (f : option V -> V) (d : list (K * V)) :
  NoDup (map fst d) -> NoDup (map fst (alter eqb k f d)).
Proof.
  intros Hnd.
  assert (H : map fst (alter eqb k f d) = map fst d \/
              (~ In k (map fst d) /\
               map fst (alter eqb k f d) = (map fst d ++ [k])%list)).
  { clear Hnd. induction d as [|[k' v] r IH]; simpl.
    - right. auto.
    - destruct (eqb k k') eqn:E; simpl; [now left|].
      destruct IH as [->|[Hn ->]]; [now left|]. right. split; [|reflexivity].
      intros [->|H]; [|now apply Hn].
      now rewrite (proj2 (eqb_eq k k) eq_refl) in E. }
  destruct H as [->|[Hn ->]]; [exact Hnd|].
  apply NoDup_app; [exact Hnd | constructor; [easy | constructor] |].
  intros x Hx [<-|[]]. now apply Hn.
Qed.

Lemma find_in (k : K) (v : V) (d : list (K * V)) :
  NoDup (map fst d) -> In (k, v) d -> find eqb k d = Some v.
Proof.
  induction d as [|[k' v'] r IH]; simpl; intros Hnd Hin; [destruct Hin|].
  inversion Hnd as [|? ? Hn Hnd']; subst.
  destruct Hin as [H|Hin].
  - injection H as -> ->. now rewrite (proj2 (eqb_eq k k) eq_refl).
  - destruct (eqb k k') eqn:E.
    + apply eqb_eq in E. subst k'. elim Hn.
      apply in_map_iff. now exists (k, v).
    + now apply IH.
Qed.

Lemma in_find (k : K) (v : V) (d : list (K * V)) :
  find eqb k d = Some v -> In (k, v) d.
Proof.
  induction d as [|[k' v'] r IH]; simpl; [discriminate|].
  destruct (eqb k k') eqn:E.
  - apply eqb_eq in E. subst k'. intros H. injection H as ->. now left.
  - intros H. right. now apply IH.
Qed.

End Assoc.

Lemma Z_eqb_eq (a b : Z) : Z.eqb a b = true <-> a = b.
Proof. apply Z.eqb_eq. Qed.

Lemma String_eqb_eq (a b : string) : String.eqb a b = true <-> a = b.
Proof. apply String.eqb_eq. Qed.

(** [data[sat][nrj]], empty when a level is missing. *)
Definition member (sat : Z) (nrj : string) (data : groups) : list point :=
  or_empty
    (match find Z.eqb sat data with
     | Some by_sat => find String.eqb nrj by_sat
     | None => None
     end).

(** A point goes to the end of its group and to no other. *)
Lemma member_add_point (sat s : Z) (nrj n : string) (p : point) (data : groups) :
  member sat nrj (add_point s n p data)
  = (member sat nrj data
     ++ if Z.eqb sat s && String.eqb nrj n then [p] else [])%list.
Proof.
  unfold member, add_point.
  destruct (Z.eqb_spec sat s) as [->|Hs]; simpl.
  - rewrite (find_alter_same Z.eqb Z_eqb_eq).
    destruct (String.eqb_spec nrj n) as [->|Hn].
    + rewrite (find_alter_same String.eqb String_eqb_eq).
      destruct (find Z.eqb s data) as [by_sat|]; reflexivity.
    + rewrite (find_alter_other String.eqb String_eqb_eq) by exact Hn.
      rewrite app_nil_r. destruct (find Z.eqb s data); reflexivity.
  - rewrite (find_alter_other Z.eqb Z_eqb_eq) by exact Hs.
    now rewrite app_nil_r.
Qed.

(** The keys of the two levels are pairwise distinct. *)
Definition distinct_keys (data : groups) : Prop :=
  NoDup (map fst data) /\
  forall sat by_sat, In (sat, by_sat) data -> NoDup (map fst by_sat).

Lemma in_alter {K V} (eqb : K -> K -> bool) (k k' : K) (f : option V -> V)
  (v : V) (d : list (K * V)) :
  In (k, v) (alter eqb k' f d) -> In (k, v) d \/ exists o, v = f o /\
    (o = None \/ exists v', o = Some v' /\ In (k, v') d).
Proof.
  induction d as [|[k2 v2] r IH]; simpl.
  - intros [H|[]]. injection H as <- <-. right. exists None. auto.
  - destruct (eqb k' k2); simpl.
    + intros [H|H]; [|auto]. injection H as <- <-. right. exists (Some v2).
      split; [reflexivity|]. right. exists v2. auto.
    + intros [H|H]; [auto|]. destruct (IH H) as [?|(o & -> & [->|(v' & -> & ?)])].
      * auto.
      * right. exists None. auto.
      * right. exists (Some v'). split; [reflexivity|]. right. exists v'. auto.
Qed.

Lemma distinct_keys_add_point (s : Z) (n : string) (p : point) (data : groups) :
  distinct_keys data -> distinct_keys (add_point s n p data).
Proof.
  intros [H1 H2]. split.
  - apply (keys_alter Z.eqb Z_eqb_eq), H1.
  - intros sat by_sat Hin. unfold add_point in Hin.
    apply in_alter in Hin as [Hin|(o & -> & Ho)]; [now apply (H2 sat)|].
    apply (keys_alter String.eqb String_eqb_eq).
    destruct Ho as [->|(v' & -> & Hin)]; simpl; [constructor | now apply (H2 sat)].
Qed.

Section Group.

Variable strptime : string -> option Z.

Local Abbreviation points_of := (Draw.points_of strptime).

Lemma points_of_app (sat : Z) (nrj : string) (l l' : list row) :
  points_of sat nrj (l ++ l') = (points_of sat nrj l ++ points_of sat nrj l')%list.
Proof. apply flat_map_app. Qed.

(** Lines 137-145, when every datetime reads as an instant: each group
    holds the points of its satellite and energy channel, in the order in
    which the rows arrived. *)
Lemma group_spec (result : list row) (data : groups) (w w' : world) :
  group strptime result w = (Done data, w') ->
  w' = w /\ distinct_keys data /\
  (forall r, In r result -> strptime (datetime r) <> None) /\
  (forall sat nrj, member sat nrj data = points_of sat nrj result).
Proof.
  intros H.
  apply (for_each_done
           (fun done data w1 =>
              w1 = w /\ distinct_keys data /\
              (forall r, In r done -> strptime (datetime r) <> None) /\
              (forall sat nrj, member sat nrj data = points_of sat nrj done)))
    with (done := []) (3 := H).
  - intros done r d0 w0 d1 w1 (-> & Hk & Hp & Hm) Hstep.
    destruct (strptime (datetime r)) as [dt|] eqn:E; [|discriminate].
    unfold ret in Hstep. injection Hstep as <- <-.
    split; [reflexivity|]. split; [now apply distinct_keys_add_point|]. split.
    + intros r' Hin. apply in_app_or in Hin as [Hin|[<-|[]]]; [now apply Hp|].
      now rewrite E.
    + intros sat nrj. rewrite member_add_point, points_of_app, Hm. f_equal.
      simpl. rewrite E. rewrite app_nil_r. reflexivity.
  - split; [reflexivity|]. split; [|split].
    + split; [constructor | intros sat by_sat []].
    + intros r [].
    + reflexivity.
Qed.

End Group.

(** *** Plotting *)

Lemma Forall2_combine_in {A B} (R : A -> B -> Prop) (l : list A) (l' : list B)
  (a : A) (b : B) :
  Forall2 R l l' -> In (a, b) (combine l l') -> R a b.
Proof.
  induction 1 as [|x y l l' Hxy HF IH]; simpl; [intros []|].
  intros [H|H]; [injection H as <- <-; exact Hxy | now apply IH].
Qed.

Lemma Forall2_combine {A B} (R : A -> B -> Prop) (l : list A) (l' : list B) :
  Forall2 R l l' ->
  map fst (combine l l') = l /\ map snd (combine l l') = l' /\
  forall a, In a l -> exists b, In (a, b) (combine l l').
Proof.
  induction 1 as [|x y l l' Hxy HF (IH1 & IH2 & IH3)]; simpl.
  - split; [reflexivity|]. split; [reflexivity|]. intros a [].
  - rewrite IH1, IH2. split; [reflexivity|]. split; [reflexivity|].
    intros a [<-|Ha].
    + exists y. now left.
    + destruct (IH3 a Ha) as (b & Hb). exists b. now right.
Qed.

Lemma sorted_distinct (l : list Z) :
  Sorted Z.le l -> NoDup l -> StronglySorted Z.lt l.
Proof.
  intros Hs Hnd. apply Sorted_StronglySorted in Hs; [|intros x y z; apply Z.le_trans].
  induction Hs as [|x l Hs IH Hall]; [constructor|].
  inversion Hnd as [|? ? Hn Hnd']; subst. constructor; [now apply IH|].
  rewrite Forall_forall in *. intros y Hy. specialize (Hall y Hy).
  assert (x <> y) by (intros ->; now apply Hn). lia.
Qed.

(** What one call of [plot] shows of a group. *)
Definition plotted (sat : Z) (g : string * list point) (es : list series) : Prop :=
  exists pts,
    sort_points (snd g) = Done pts /\
    es = [Series sat (fst g) (map fst pts) (map snd pts)].

Lemma plot_group_spec (sat : Z) (g : string * list point) (w w' : world) :
  plot_group sat g w = (Done tt, w') ->
  exists es, plotted sat g es /\ emits w es w'.
Proof.
  unfold plot_group. intros H.
  apply bind_inv_done in H as (pts & w1 & H1 & H).
  unfold lift in H1. injection H1 as H1 <-.
  unfold emit in H. injection H as <-.
  eexists. split; [exists pts; split; [exact H1 | reflexivity] | reflexivity].
Qed.

(** Lines 148-155: the satellites in ascending order, and for each the
    groups of [data[satellite]] in the order of the dict. *)
Lemma plot_all_spec (data : groups) (w w' : world) :
  plot_all data w = (Done tt, w') ->
  exists ess,
    Forall2 (fun sat es =>
               exists ess',
                 Forall2 (plotted sat) (or_empty (find Z.eqb sat data)) ess' /\
                 es = concat ess')
            (sorted_keys (map fst data)) ess /\
    emits w (concat ess) w'.
Proof.
  unfold plot_all. apply for_each_emits.
  intros sat w0 w0' _ H.
  apply (for_each_emits (plotted sat)) in H as (ess' & HF & He).
  - exists (concat ess'). split; [now exists ess' | exact He].
  - intros g w1 w1' _. apply plot_group_spec.
Qed.

Lemma plotted_energies (sat : Z) (gs : list (string * list point))
  (ess : list (list series)) :
  Forall2 (plotted sat) gs ess -> map of_energy (concat ess) = map fst gs.
Proof.
  induction 1 as [|g es gs ess (pts & _ & ->) HF IH]; simpl; [reflexivity|].
  now rewrite IH.
Qed.

Section Plot.

Variable strptime : string -> option Z.
Variable collate_leb : string -> string -> bool.

Local Abbreviation main := (Draw.main strptime collate_leb).
Local Abbreviation select_range := (Draw.select_range collate_leb).
Local Abbreviation points_of := (Draw.points_of strptime).

(** The steps of a run that gets to the end of the plotting loop. *)
Lemma plot_done (start_ end_ : string) (w w' : world) :
  main start_ end_ w = (Done tt, w') ->
  exists result data ess,
    select_range start_ end_ w = (Done result, w) /\
    distinct_keys data /\
    (forall r, In r result -> strptime (datetime r) <> None) /\
    (forall sat nrj, member sat nrj data = points_of sat nrj result) /\
    Forall2 (fun sat es =>
               exists ess',
                 Forall2 (plotted sat) (or_empty (find Z.eqb sat data)) ess' /\
                 es = concat ess')
            (sorted_keys (map fst data)) ess /\
    w' = World (committed w) (view w) true (emitted w ++ concat ess).
Proof.
  intros H. unfold Draw.main in H.
  apply bind_inv_done in H as (result & w1 & H1 & H).
  assert (w1 = w) as ->.
  { unfold Draw.select_range, bind, read_table in H1.
    destruct (view w); [|discriminate]. unfold ret in H1. now injection H1. }
  apply bind_inv_done in H as ([] & w2 & H2 & H).
  unfold close in H2. injection H2 as <-.
  apply bind_inv_done in H as (data & w3 & H3 & H).
  apply group_spec in H3 as (-> & Hk & Hp & Hm).
  apply plot_all_spec in H as (ess & HF & ->).
  exists result, data, ess. repeat split; auto; apply Hk.
Qed.

(** C9: when the script gets to the end of its plotting loop, what it
    plotted is, satellite by satellite in strictly ascending order, one
    series per energy channel of the satellite; the series of a satellite
    and an energy channel shows the points of the queried rows of the two,
    whatever the order in which the store returned them, sorted: its
    instants ascend.  Points that arrive as (T3,v3), (T1,v1), (T2,v2) with
    T1 < T2 < T3 are shown as (T1,v1), (T2,v2), (T3,v3).  Every queried
    row is in the series of its satellite and energy channel. *)
Theorem plot_groups_sorted (start_ end_ : string) (t : option (list row))
  (w' : world) :
  main start_ end_ (start t) = (Done tt, w') ->
  exists result per_sat,
    select_range start_ end_ (start t) = (Done result, start t) /\
    emitted w' = concat (map snd per_sat) /\
    StronglySorted Z.lt (map fst per_sat) /\
    (forall sat ss, In (sat, ss) per_sat -> NoDup (map of_energy ss)) /\
    (forall sat ss s,
        In (sat, ss) per_sat -> In s ss ->
        of_satellite s = sat /\
        sort_points (points_of sat (of_energy s) result)
        = Done (combine (dts s) (values s)) /\
        Permutation (points_of sat (of_energy s) result)
                    (combine (dts s) (values s)) /\
        Sorted Z.le (dts s) /\
        (forall t1 t2 t3 v1 v2 v3,
            points_of sat (of_energy s) result = [(t3, v3); (t1, v1); (t2, v2)] ->
            (t1 < t2)%Z -> (t2 < t3)%Z ->
            dts s = [t1; t2; t3] /\ values s = [v1; v2; v3])) /\
    (forall r, In r result ->
       exists ss s, In (satellite r, ss) per_sat /\ In s ss /\
                    of_energy s = energy r).
Proof.
  intros H.
  apply plot_done in H as (result & data & ess & Hsel & Hk & Hp & Hm & HF & ->).
  destruct (Forall2_combine _ _ _ HF) as (C1 & C2 & C3).
  destruct (sorted_keys_spec (map fst data)) as (HP & HS).
  destruct Hk as [Hk1 Hk2].
  exists result, (combine (sorted_keys (map fst data)) ess).
  split; [exact Hsel|]. split; [now rewrite C2|]. split; [|split; [|split]].
  - rewrite C1. apply sorted_distinct; [exact HS|].
    exact (Permutation_NoDup HP Hk1).
  - intros sat ss Hin.
    destruct (Forall2_combine_in _ _ _ _ _ HF Hin) as (ess' & HF' & ->).
    rewrite (plotted_energies _ _ _ HF').
    destruct (find Z.eqb sat data) as [by_sat|] eqn:E; [|constructor].
    apply (Hk2 sat). now apply (in_find Z.eqb Z_eqb_eq).
  - intros sat ss s Hin Hs.
    destruct (Forall2_combine_in _ _ _ _ _ HF Hin) as (ess' & HF' & ->).
    apply in_concat in Hs as (es & Hes & Hs).
    destruct (FetchFacts.Forall2_in_r _ _ _ _ HF' Hes) as (g & Hg & pts & Hsort & ->).
    destruct Hs as [<-|[]]. simpl.
    destruct (find Z.eqb sat data) as [by_sat|] eqn:E; [|destruct Hg].
    simpl in Hg.
    assert (Hmem : points_of sat (fst g) result = snd g).
    { rewrite <- Hm. unfold member. rewrite E.
      rewrite (find_in String.eqb String_eqb_eq (fst g) (snd g)); [reflexivity| |].
      - apply (Hk2 sat). now apply (in_find Z.eqb Z_eqb_eq).
      - now destruct g. }
    rewrite Hmem, combine_fst_snd.
    destruct (sort_points_spec _ _ Hsort) as (HPerm & HSorted).
    split; [reflexivity|]. split; [exact Hsort|]. split; [exact HPerm|].
    split; [now apply sorted_dts|].
    intros t1 t2 t3 v1 v2 v3 Hpts H12 H23.
    rewrite Hpts, (sort_three t1 t2 t3 v1 v2 v3 H12 H23) in Hsort.
    injection Hsort as <-. now split.
  - intros r Hr.
    assert (Hne : points_of (satellite r) (energy r) result <> []).
    { apply in_split in Hr as (l1 & l2 & ->).
      unfold Draw.points_of. rewrite flat_map_app. simpl.
      rewrite Z.eqb_refl, String.eqb_refl. simpl.
      destruct (strptime (datetime r)) as [dt|] eqn:E.
      - intros Habs. apply app_eq_nil in Habs as [_ Habs]. discriminate.
      - elim (Hp r); [apply in_or_app; right; now left | exact E]. }
    rewrite <- Hm in Hne. unfold member in Hne.
    destruct (find Z.eqb (satellite r) data) as [by_sat|] eqn:E1;
      [|now elim Hne].
    destruct (find String.eqb (energy r) by_sat) as [pts|] eqn:E2;
      [|now elim Hne].
    apply (in_find Z.eqb Z_eqb_eq) in E1. apply (in_find String.eqb String_eqb_eq) in E2.
    assert (Hkey : In (satellite r) (sorted_keys (map fst data))).
    { apply (Permutation_in _ HP). apply in_map_iff. now exists (satellite r, by_sat). }
    destruct (C3 _ Hkey) as (ss & Hss). exists ss.
    destruct (Forall2_combine_in _ _ _ _ _ HF Hss) as (ess' & HF' & ->).
    rewrite (find_in Z.eqb Z_eqb_eq _ _ _ Hk1 E1) in HF'. simpl in HF'.
    destruct (FetchFacts.Forall2_in_l _ _ _ _ HF' E2) as (es & Hes & ps & _ & ->).
    exists (Series (satellite r) (energy r) (map fst ps) (map snd ps)).
    split; [exact Hss|]. split; [|reflexivity].
    apply in_concat. eexists. split; [exact Hes | now left].
Qed.

(** The connection is closed by line 135, as soon as the rows are
    fetched: it is closed when the script ends exactly if the query went
    through. *)
Lemma closed_iff_queried (start_ end_ : string) (t : option (list row)) :
  closed (snd (main start_ end_ (start t))) = true <-> t <> None.
Proof.
  assert (Hplot : forall data,
             preserves (fun w : world => closed w = true) (plot_all data)).
  { intros data. unfold plot_all, plot_group. preserve. intros w Hw. exact Hw. }
  assert (Hgroup : forall result,
             preserves (fun w : world => closed w = true)
                       (group strptime result)).
  { intros result. unfold group. preserve. }
  unfold Draw.main, Draw.select_range.
  destruct t as [rows|]; simpl.
  - split; [discriminate|]. intros _.
    unfold bind at 1 2, read_table. simpl. unfold bind at 1. simpl.
    apply (preserves_bind (fun w : world => closed w = true)); auto.
  - split; [discriminate | congruence].
Qed.

End Plot.

(** *** When the script gets to the end of the plotting loop *)

Lemma for_each_total {Row Event A S} (xs : list A)
  (body : A -> S -> Script.M Row Event S) :
  (forall x s w, In x xs -> exists s' w', body x s w = (Done s', w')) ->
  forall s w, exists s' w', for_each xs body s w = (Done s', w').
Proof.
  induction xs as [|x r IH]; intros Hb s w; simpl.
  - now exists s, w.
  - destruct (Hb x s w (or_introl eq_refl)) as (s1 & w1 & E).
    rewrite (bind_done _ _ _ _ _ E). apply IH.
    intros y s0 w0 Hy. apply Hb. now right.
Qed.

Definition has_flux (p : point) : Prop := snd p <> None.

Lemma insert_point_total (x : point) (l : list point) :
  has_flux x -> Forall has_flux l -> exists l', insert_point x l = Done l'.
Proof.
  intros Hx. induction 1 as [|y r Hy Hr (r' & IH)]; simpl; [now eexists|].
  unfold point_lt, has_flux in *.
  destruct x as [tx [fx|]], y as [ty [fy|]]; simpl in *; try easy.
  destruct (negb (tx =? ty)%Z); simpl.
  - destruct (tx <? ty)%Z; [now eexists|]. rewrite IH. now eexists.
  - destruct (PrimFloat.eqb fx fy); simpl; [rewrite IH; now eexists|].
    destruct (PrimFloat.ltb fx fy); [now eexists|]. rewrite IH. now eexists.
Qed.

(** [l.sort()] raises nothing when no point has a [None] flux. *)
Lemma sort_points_total (l : list point) :
  Forall has_flux l -> exists l', sort_points l = Done l'.
Proof.
  unfold sort_points.
  enough (H : forall acc, Forall has_flux acc -> Forall has_flux l ->
             exists l',
               fold_left (fun acc x => and_then acc (insert_point x)) l (Done acc)
               = Done l')
    by (apply H; constructor).
  induction l as [|x r IH]; intros acc Hacc Hl; simpl; [now eexists|].
  inversion Hl as [|? ? Hx Hr]; subst.
  destruct (insert_point_total x acc Hx Hacc) as (acc' & E). rewrite E.
  apply IH; [|exact Hr].
  destruct (insert_point_spec _ _ _ E) as (HP & _).
  rewrite Forall_forall in *. intros p Hp.
  apply (Permutation_in _ (Permutation_sym HP)) in Hp as [<-|Hp]; auto.
Qed.

Section Total.

Variable strptime : string -> option Z.
Variable collate_leb : string -> string -> bool.

Local Abbreviation main := (Draw.main strptime collate_leb).
Local Abbreviation select_range := (Draw.select_range collate_leb).

Lemma points_of_flux (sat : Z) (nrj : string) (result : list row) :
  (forall r, In r result -> corrected_flux r <> None) ->
  Forall has_flux (Draw.points_of strptime sat nrj result).
Proof.
  intros H. apply Forall_forall. intros p Hp. unfold Draw.points_of in Hp.
  apply in_flat_map in Hp as (r & Hr & Hp).
  destruct (_ && _); [|destruct Hp].
  destruct (strptime (datetime r)); [|destruct Hp].
  destruct Hp as [<-|[]]. exact (H r Hr).
Qed.

Lemma group_total (result : list row) (w : world) :
  (forall r, In r result -> strptime (datetime r) <> None) ->
  exists data w', group strptime result w = (Done data, w').
Proof.
  intros H. unfold group. apply for_each_total.
  intros r data w0 Hr. specialize (H r Hr).
  destruct (strptime (datetime r)); [now eexists _, _ | now elim H].
Qed.

(** The script gets to the end of the plotting loop when the table
    exists, every datetime in the range reads as an instant and no
    corrected flux in the range is NULL. *)
Lemma main_total (start_ end_ : string) (t : list row) :
  (forall r, In r t ->
     collate_leb start_ (datetime r) && collate_leb (datetime r) end_ = true ->
     strptime (datetime r) <> None /\ corrected_flux r <> None) ->
  exists w', main start_ end_ (start (Some t)) = (Done tt, w').
Proof.
  intros Hall. unfold Draw.main, Draw.select_range.
  set (result := filter (fun r => collate_leb start_ (datetime r)
                                  && collate_leb (datetime r) end_) t).
  assert (Hres : forall r, In r result ->
                   strptime (datetime r) <> None /\ corrected_flux r <> None).
  { intros r Hr. apply filter_In in Hr as [Hr Hc]. now apply Hall. }
  unfold bind at 1 2, read_table. simpl. unfold bind at 1. simpl.
  fold result.
  destruct (group_total result (World (Some t) (Some t) true []))
    as (data & w1 & Hg).
  { intros r Hr. now apply Hres. }
  rewrite (bind_done _ _ _ _ _ Hg).
  apply group_spec in Hg as (-> & [Hk1 Hk2] & _ & Hm).
  enough (H : exists (u : unit) w', plot_all data
                (World (Some t) (Some t) true []) = (Done u, w')).
  { destruct H as ([] & w' & H). now exists w'. }
  apply for_each_total. intros sat [] w Hsat.
  apply for_each_total. intros g [] w0 Hg.
  destruct (find Z.eqb sat data) as [by_sat|] eqn:E; [|destruct Hg].
  simpl in Hg. unfold plot_group.
  assert (Hmem : Draw.points_of strptime sat (fst g) result = snd g).
  { rewrite <- Hm. unfold member. rewrite E.
    rewrite (find_in String.eqb String_eqb_eq (fst g) (snd g)); [reflexivity| |].
    - apply (Hk2 sat). now apply (in_find Z.eqb Z_eqb_eq).
    - now destruct g. }
  destruct (sort_points_total (snd g)) as (pts & Hs).
  { rewrite <- Hmem. apply points_of_flux. intros r Hr. now apply Hres. }
  rewrite Hs. unfold bind, lift, emit. now eexists _, _.
Qed.

End Total.

(** C9 on three rows stored as third, first, second. *)
Lemma plot_groups_sorted_witness :
  let t := Some Fixtures.plotted_rows in
  let start_ := "2024-05-01T00:00:00Z" in
  let end_ := "2024-05-02T00:00:00Z" in
  Draw.main Utc.strptime_z String.leb start_ end_ (start t)
  = (Done tt, World t t true [Fixtures.plotted_series]) /\
  exists result per_sat,
    Draw.select_range String.leb start_ end_ (start t) = (Done result, start t) /\
    [Fixtures.plotted_series] = concat (map snd per_sat) /\
    StronglySorted Z.lt (map fst per_sat).
Proof.
  intros t start_ end_.
  assert (E : Draw.main Utc.strptime_z String.leb start_ end_ (start t)
              = (Done tt, World t t true [Fixtures.plotted_series]))
    by (vm_compute; reflexivity).
  split; [exact E|].
  destruct (plot_groups_sorted Utc.strptime_z String.leb start_ end_ t _ E)
    as (result & per_sat & H1 & H2 & H3 & _).
  exists result, per_sat. split; [exact H1|]. split; [exact H2 | exact H3].
Defined.

End DrawFacts.

(** ** The connection of both scripts *)

Module ConnectionFacts.
Import Script.

(** C8, amended: fetch.py closes its connection at line 207 only, so the
    connection is closed when the process ends exactly if the run ran to
    its end; on the early exits (no usable download, no valid JSON, lock
    held) and on an uncaught exception it is left open.  draw.py closes
    its connection at line 135, as soon as the rows are fetched: it is
    closed on every path once the query went through, and left open when
    the query itself fails. *)
Theorem connection_closed_when
  (strptime : string -> option Z) (collate : string -> string -> bool) :
  (forall sources locked t,
      closed (snd (Fetch.main strptime collate sources locked (Fetch.start t)))
      = true <->
      fst (Fetch.main strptime collate sources locked (Fetch.start t)) = Done tt) /\
  (forall start_ end_ t,
      closed (snd (Draw.main strptime collate start_ end_ (Draw.start t))) = true
      <-> t <> None).
Proof.
  split.
  - apply FetchFacts.closed_iff_done.
  - apply DrawFacts.closed_iff_queried.
Qed.

Lemma connection_closed_when_witness :
  closed (snd (Fetch.main Utc.strptime_z String.ltb
                 [("primary", Some Fixtures.two_readings)] false
                 (Fetch.start None))) = true /\
  closed (snd (Draw.main Utc.strptime_z String.ltb
                 "2024-05-01T00:00:00Z" "2024-05-02T00:00:00Z"
                 (Draw.start (Some Fixtures.plotted_rows)))) = true.
Proof.
  destruct (connection_closed_when Utc.strptime_z String.ltb) as [Hf Hd].
  split.
  - apply Hf. vm_compute. reflexivity.
  - apply Hd. discriminate.
Defined.

End ConnectionFacts.

(** ** fetch.py: the list of URLs *)

Module ArgsFacts.
Import Args.

Lemma split_cons (sep : ascii) (s : string) :
  exists part parts, split sep s = part :: parts.
Proof.
  destruct s as [|c r]; simpl; [eauto|].
  destruct (Ascii.eqb c sep); [eauto|].
  destruct (split sep r); eauto.
Qed.

Lemma join_cons (sep : ascii) (c : ascii) (part : string) (parts : list string) :
  join sep (String c part :: parts) = String c (join sep (part :: parts)).
Proof. destruct parts; reflexivity. Qed.

Lemma has_char_cons (sep c : ascii) (s : string) :
  has_char sep (String c s) = Ascii.eqb sep c || has_char sep s.
Proof. reflexivity. Qed.

(** X1: Cutting [--url] at the commas loses nothing: joining the parts
    with commas gives the argument back, there is always at least one
    part (the empty argument gives one empty URL), and no part contains a
    comma. *)
Theorem split_join (sep : ascii) (s : string) :
  join sep (split sep s) = s /\
  split sep s <> [] /\
  Forall (fun part => has_char sep part = false) (split sep s).
Proof.
  induction s as [|c r IH]; simpl.
  - split; [reflexivity|]. split; [discriminate|]. repeat constructor.
  - destruct IH as (Hj & _ & Hf).
    destruct (Ascii.eqb c sep) eqn:E.
    + apply Ascii.eqb_eq in E. subst c.
      destruct (split_cons sep r) as (part & parts & Hs).
      rewrite Hs in *. split; [|split].
      * simpl. now rewrite <- Hj.
      * discriminate.
      * constructor; [reflexivity|assumption].
    + destruct (split_cons sep r) as (part & parts & Hs).
      rewrite Hs in *. split; [|split].
      * rewrite join_cons. now rewrite Hj.
      * discriminate.
      * inversion Hf; subst. constructor; [|assumption].
        rewrite has_char_cons. rewrite Ascii.eqb_sym, E. assumption.
Qed.

Lemma split_part (sep : ascii) (part : string) :
  has_char sep part = false -> split sep part = [part].
Proof.
  induction part as [|c r IH]; [reflexivity|].
  rewrite has_char_cons. intros H. apply orb_false_iff in H as [H1 H2].
  simpl. rewrite Ascii.eqb_sym, H1. now rewrite (IH H2).
Qed.

Lemma split_app (sep : ascii) (part rest : string) :
  has_char sep part = false ->
  split sep (part ++ String sep rest) = part :: split sep rest.
Proof.
  induction part as [|c r IH]; intros H.
  - simpl. now rewrite Ascii.eqb_refl.
  - rewrite has_char_cons in H. apply orb_false_iff in H as [H1 H2].
    simpl. rewrite Ascii.eqb_sym, H1. now rewrite (IH H2).
Qed.

(** X2: A non-empty list of URLs without commas, written with commas
    between them, is read back by line 85 as that list, in that order. *)
Theorem join_split (sep : ascii) (parts : list string) :
  parts <> [] ->
  Forall (fun part => has_char sep part = false) parts ->
  split sep (join sep parts) = parts.
Proof.
  induction parts as [|part rest IH]; [congruence|].
  intros _ Hf. inversion Hf as [|? ? Hp Hr]; subst.
  destruct rest as [|part' rest'].
  - simpl. now apply split_part.
  - change (join sep (part :: part' :: rest'))
      with (part ++ String sep (join sep (part' :: rest'))).
    rewrite split_app by assumption.
    f_equal. apply IH; [discriminate|assumption].
Qed.

Lemma join_split_witness :
  urls "https://a.example/primary.json,https://a.example/secondary.json"
  = ["https://a.example/primary.json"; "https://a.example/secondary.json"].
Proof.
  apply (join_split ","%char
           ["https://a.example/primary.json"; "https://a.example/secondary.json"]).
  - discriminate.
  - repeat constructor.
Defined.

End ArgsFacts.

(** ** The repair applied twice *)

Module RepairMore.
Import PyStr PyStrFacts Repair RepairFacts.

Lemma closed_array_kept (p : string) : repair (p ++ "]") = p ++ "]".
Proof.
  assert (H : endswith (p ++ "]") (EmptyString ++ "]") = true)
    by apply endswith_app.
  apply repair_other.
  - apply (endswith_exclusive _ EmptyString "]" ", {" dq); [reflexivity|discriminate|exact H].
  - apply (endswith_exclusive _ EmptyString "]" "m" dq); [reflexivity|discriminate|exact H].
  - apply (endswith_exclusive _ EmptyString "]" (dq ++ "}") ","); [reflexivity|discriminate|exact H].
  - apply (endswith_exclusive _ EmptyString "]" dq "}"); [reflexivity|discriminate|exact H].
Qed.

(** X3: The repair of lines 109-116 is idempotent: whatever it returns
    ends in none of the four patterns, so repairing a repaired text
    changes nothing.  In particular every text that ends in a closing
    bracket is left as it is. *)
Theorem repair_idempotent (text : string) :
  repair (repair text) = repair text /\
  (forall p, repair (p ++ "]") = p ++ "]").
Proof.
  split; [|exact closed_array_kept].
  unfold repair at 2 3.
  destruct (endswith text dangling_object) eqn:E1; [apply closed_array_kept|].
  destruct (endswith text open_object) eqn:E2.
  { change "}]" with ("}" ++ "]"). rewrite <- append_assoc. apply closed_array_kept. }
  destruct (endswith text trailing_comma) eqn:E3; [apply closed_array_kept|].
  destruct (endswith text open_array) eqn:E4; [apply closed_array_kept|].
  now apply repair_other.
Qed.

End RepairMore.

(** ** The repair of a complete download *)

Module ArrayFacts.
Import PyStr PyStrFacts Repair RepairFacts Json.

(** The scanner, stopped before the end of the text. *)
Fixpoint run (st : lstate) (s : string) : option (list token * lstate) :=
  match s with
  | EmptyString => Some ([], st)
  | String c r =>
      match lstep st c with
      | Some (ts, st') =>
          match run st' r with
          | Some (ts', st'') => Some ((ts ++ ts')%list, st'')
          | None => None
          end
      | None => None
      end
  end.

(** What the scanner makes of the end of the text. *)
Definition ending (st : lstate) : option (list token) := scan st EmptyString.

Arguments ending : simpl never.

Lemma scan_snoc (st : lstate) (p : string) (c : ascii) :
  scan st (p ++ String c EmptyString) =
    match run st p with
    | Some (ts, st1) =>
        match lstep st1 c with
        | Some (ts', st2) =>
            option_map (fun fin => (ts ++ ts' ++ fin)%list) (ending st2)
        | None => None
        end
    | None => None
    end.
Proof.
  revert st. induction p as [|x r IH]; intros st; simpl.
  - destruct (lstep st c) as [[ts' st2]|]; reflexivity.
  - destruct (lstep st x) as [[ts st']|]; [|reflexivity].
    rewrite IH. destruct (run st' r) as [[ts1 st1]|]; [|reflexivity].
    destruct (lstep st1 c) as [[ts' st2]|]; [|reflexivity].
    destruct (ending st2); simpl; [|reflexivity].
    now rewrite <- app_assoc.
Qed.

(** The characters the four patterns end in, and the tokens a text can
    end in after one of them. *)
Definition closes (c : ascii) : bool :=
  ch c dq || ch c "," || ch c "}".

Definition closing (t : token) : bool :=
  match t with TStr _ | TComma | TRBrace => true | _ => false end.

Definition lit_ok (st : lstate) : Prop :=
  match st with
  | LLit expect _ =>
      forallb (fun c => negb (closes c)) (list_ascii_of_string expect) = true
  | _ => True
  end.

Lemma start_step_ok (c : ascii) (ts : list token) (st : lstate) :
  start_step c = Some (ts, st) -> lit_ok st.
Proof.
  unfold start_step.
  repeat match goal with
         | |- context [if ?b then _ else _] => destruct b
         end; intros H; try discriminate; injection H as <- <-; reflexivity.
Qed.

Lemma lstep_ok (st st' : lstate) (c : ascii) (ts : list token) :
  lit_ok st -> lstep st c = Some (ts, st') -> lit_ok st'.
Proof.
  intros Hok. destruct st as [|expect v|ph lex|acc|acc|acc hi n u|acc hi|acc hi];
    simpl.
  - apply start_step_ok.
  - destruct expect as [|x [|y r]]; try discriminate.
    + destruct (Ascii.eqb c x); intros H; [|discriminate].
      now injection H as <- <-.
    + destruct (Ascii.eqb c x); intros H; [|discriminate].
      injection H as <- <-. simpl in Hok |- *.
      apply andb_prop in Hok as [_ Hok]. exact Hok.
  - unfold num_step.
    destruct ph;
      repeat match goal with
             | |- context [if ?b then _ else _] => destruct b
             end;
      intros H; try discriminate;
      try (injection H as <- <-; reflexivity);
      destruct (num_token _ lex); try discriminate;
      destruct (start_step c) as [[ts0 st0]|] eqn:E; try discriminate;
      injection H as <- <-; exact (start_step_ok _ _ _ E).
  - unfold str_step.
    repeat match goal with
           | |- context [if ?b then _ else _] => destruct b
           end; intros H; try discriminate; injection H as <- <-; reflexivity.
  - unfold esc_step.
    repeat match goal with
           | |- context [if ?b then _ else _] => destruct b
           end; intros H; try discriminate; injection H as <- <-; reflexivity.
  - destruct (hex_val c); [|discriminate].
    destruct (n =? 3)%nat; intros H; injection H as <- <-; [|reflexivity].
    unfold uni_done. destruct hi;
      repeat match goal with
             | |- context [if ?b then _ else _] => destruct b
             end; reflexivity.
  - unfold str_step.
    repeat match goal with
           | |- context [if ?b then _ else _] => destruct b
           end; intros H; try discriminate; injection H as <- <-; reflexivity.
  - unfold esc_step.
    repeat match goal with
           | |- context [if ?b then _ else _] => destruct b
           end; intros H; try discriminate; injection H as <- <-; reflexivity.
Qed.

Lemma run_ok (p : string) (st st' : lstate) (ts : list token) :
  lit_ok st -> run st p = Some (ts, st') -> lit_ok st'.
Proof.
  revert st ts. induction p as [|x r IH]; intros st ts Hok; simpl.
  - intros H. now injection H as _ <-.
  - destruct (lstep st x) as [[ts0 st0]|] eqn:E; [|discriminate].
    destruct (run st0 r) as [[ts1 st1]|] eqn:E1; [|discriminate].
    intros H. injection H as _ <-.
    exact (IH _ _ (lstep_ok _ _ _ _ Hok E) E1).
Qed.

Lemma closes_cases (c : ascii) :
  closes c = true -> c = "034"%char \/ c = ","%char \/ c = "}"%char.
Proof.
  unfold closes, ch, dq. intros H.
  apply orb_true_iff in H as [H|H]; [apply orb_true_iff in H as [H|H]|];
    apply Ascii.eqb_eq in H; auto.
Qed.

Lemma ending_some (st : lstate) (fin : list token) :
  ending st = Some fin ->
  st = LStart /\ fin = [] \/ exists ph lex, st = LNum ph lex.
Proof.
  unfold ending. destruct st; simpl; try discriminate.
  - intros H. injection H as <-. now left.
  - right. eauto.
Qed.

Lemma last_step (st st' : lstate) (c : ascii) (ts fin : list token) :
  closes c = true -> lit_ok st ->
  lstep st c = Some (ts, st') -> ending st' = Some fin ->
  exists ts0 t, (ts ++ fin)%list = (ts0 ++ [t])%list /\ closing t = true.
Proof.
  intros Hc Hok Hstep Hend.
  destruct st as [|expect v|ph lex|acc|acc|acc hi n u|acc hi|acc hi].
  - apply closes_cases in Hc as [->|[->| ->]]; vm_compute in Hstep;
      injection Hstep as <- <-.
    + discriminate Hend.
    + injection Hend as <-. now exists [], TComma.
    + injection Hend as <-. now exists [], TRBrace.
  - exfalso. simpl in Hstep, Hok.
    destruct expect as [|x [|y r]]; try discriminate.
    + destruct (Ascii.eqb c x) eqn:E; [|discriminate].
      apply Ascii.eqb_eq in E. subst x. simpl in Hok. now rewrite Hc in Hok.
    + destruct (Ascii.eqb c x) eqn:E; [|discriminate].
      apply Ascii.eqb_eq in E. subst x. simpl in Hok. now rewrite Hc in Hok.
  - simpl in Hstep. unfold num_step in Hstep.
    apply closes_cases in Hc as [->|[->| ->]];
      destruct ph; simpl in Hstep; try discriminate Hstep;
      injection Hstep as <- <-; try discriminate Hend;
      apply ending_some in Hend as [[_ ->]|(? & ? & ?)]; try discriminate;
      eexists [_], _; split; reflexivity.
  - simpl in Hstep. unfold str_step in Hstep.
    apply closes_cases in Hc as [->|[->| ->]]; simpl in Hstep;
      injection Hstep as <- <-; try discriminate Hend.
    apply ending_some in Hend as [[_ ->]|(? & ? & ?)]; try discriminate.
    eexists [], _. split; reflexivity.
  - exfalso. simpl in Hstep. unfold esc_step in Hstep.
    apply closes_cases in Hc as [->|[->| ->]]; simpl in Hstep;
      try discriminate Hstep.
    injection Hstep as <- <-. discriminate Hend.
  - exfalso. simpl in Hstep.
    apply closes_cases in Hc as [->|[->| ->]]; discriminate Hstep.
  - simpl in Hstep. unfold str_step in Hstep.
    apply closes_cases in Hc as [->|[->| ->]]; simpl in Hstep;
      injection Hstep as <- <-; try discriminate Hend.
    apply ending_some in Hend as [[_ ->]|(? & ? & ?)]; try discriminate.
    eexists [], _. split; reflexivity.
  - exfalso. simpl in Hstep. unfold esc_step in Hstep.
    apply closes_cases in Hc as [->|[->| ->]]; simpl in Hstep;
      try discriminate Hstep.
    injection Hstep as <- <-. discriminate Hend.
Qed.

Lemma push_value_list (v : value) (stack : list frame) (items : list value) :
  push_value v stack = Some (PEnd (PList items), []) -> v = PList items.
Proof.
  destruct stack as [|[acc|acc|acc k] st]; simpl; try discriminate.
  intros H. now injection H.
Qed.

Lemma pstep_closing (ps : pstate) (stack : list frame) (t : token)
  (items : list value) :
  closing t = true -> pstep ps stack t <> Some (PEnd (PList items), []).
Proof.
  intros Hc H.
  destruct t; try discriminate Hc;
    destruct ps; simpl in H; try discriminate H;
    try (destruct stack as [|[acc|acc|acc k] st]; simpl in H;
         try discriminate H;
         try (apply push_value_list in H; discriminate H)).
Qed.

Lemma parse_closing (ts : list token) (t : token) (items : list value) :
  closing t = true ->
  forall ps stack, parse ps stack (ts ++ [t]) <> Some (PList items).
Proof.
  intros Hc. induction ts as [|x r IH]; intros ps stack; simpl.
  - destruct (pstep ps stack t) as [[ps' stack']|] eqn:E; [|discriminate].
    destruct ps'; try discriminate. destruct stack'; try discriminate.
    intros H. injection H as ->. exact (pstep_closing _ _ _ _ Hc E).
  - destruct (pstep ps stack x) as [[ps' stack']|]; [apply IH | discriminate].
Qed.

(** A text that ends in one of the three characters is no JSON array. *)
Lemma closing_char_no_array (p : string) (c : ascii) (items : list value) :
  closes c = true -> loads (p ++ String c EmptyString) <> Some (PList items).
Proof.
  intros Hc. unfold loads. rewrite scan_snoc.
  destruct (run LStart p) as [[ts st1]|] eqn:E1; [|discriminate].
  destruct (lstep st1 c) as [[ts' st2]|] eqn:E2; [|discriminate].
  destruct (ending st2) as [fin|] eqn:E3; [|discriminate]. simpl.
  destruct (last_step st1 st2 c ts' fin Hc (run_ok p LStart st1 ts I E1) E2 E3)
    as (ts0 & t & E & Ht).
  rewrite E, app_assoc. now apply parse_closing.
Qed.

(** X4: The repair never touches a complete download: a text that
    [loads] reads as an array ends in none of the four patterns, so it is
    handed on as it is, and decodes to the same array after the repair. *)
Theorem repair_keeps_arrays (text : string) (items : list value) :
  loads text = Some (PList items) ->
  repair text = text /\ loads (repair text) = Some (PList items).
Proof.
  intros H.
  assert (Hno : forall a c, closes c = true ->
                  endswith text (a ++ String c EmptyString) = false).
  { intros a c Hc. destruct (endswith text (a ++ String c EmptyString)) eqn:E;
      [|reflexivity].
    apply endswith_spec in E as (p & ->).
    rewrite <- append_assoc in H.
    now elim (closing_char_no_array _ _ _ Hc H). }
  assert (E : repair text = text).
  { apply repair_other.
    - exact (Hno ", {" "034"%char eq_refl).
    - exact (Hno "m" "034"%char eq_refl).
    - exact (Hno (dq ++ "}") ","%char eq_refl).
    - exact (Hno dq "}"%char eq_refl). }
  now rewrite E.
Qed.

Lemma repair_keeps_arrays_witness :
  repair Fixtures.two_readings = Fixtures.two_readings.
Proof.
  apply (proj1 (repair_keeps_arrays Fixtures.two_readings
                  (match loads Fixtures.two_readings with
                   | Some (PList items) => items
                   | _ => []
                   end)
                  ltac:(vm_compute; reflexivity))).
Defined.

End ArrayFacts.

(** ** fetch.py: how the checks of the downloads end *)

Module CheckFacts.
Import Script ScriptFacts PyOps Repair Fetch GatherFacts Batch.
Local Open Scope script_scope.

Lemma validate_loop_spec (l : list (string * value)) (ok : bool) (w : world) :
  Forall shaped (map snd l) ->
  exists w', same_session w w' /\
    for_each l validate_step ok w = (Done (ok || existsb tagged (map snd l)), w').
Proof.
  revert ok w. induction l as [|[url json] r IH]; intros ok w Hs; simpl.
  - exists w. rewrite orb_false_r. split; [apply same_session_refl | reflexivity].
  - inversion Hs as [|? ? Hj Hr]; subst.
    destruct Hj as [->|(fields & rest & ->)]; simpl.
    + destruct (IH ok (snd (print (NoJsonDataFrom url) w)) Hr) as (w' & S & E).
      exists w'. split; [|exact E].
      eapply same_session_trans; [|exact S]. apply silent_emit.
    + unfold bind at 1 2, lift. simpl.
      destruct (dict_get "time_tag" fields) as [v|]; simpl.
      * destruct (IH true w Hr) as (w' & S & E). exists w'. split; [exact S|].
        rewrite orb_true_r. exact E.
      * destruct (IH ok (snd (print (NoTimeTagInFirstItem url (PDict fields)) w)) Hr)
          as (w' & S & E).
        exists w'. split; [|exact E].
        eapply same_session_trans; [|exact S]. apply silent_emit.
Qed.

Lemma validate_spec (urls : list string) (jsons : list value) (w : world) :
  Forall shaped (map snd (combine urls jsons)) ->
  exists w', same_session w w' /\
    validate urls jsons w =
      (if existsb tagged (map snd (combine urls jsons)) then Done tt else Exit 1,
       w').
Proof.
  intros Hs. unfold validate.
  destruct (validate_loop_spec (combine urls jsons) false w Hs) as (w1 & S & E).
  rewrite (bind_done _ _ _ _ _ E). simpl.
  destruct (existsb tagged (map snd (combine urls jsons))).
  - now exists w1.
  - eexists. split; [|reflexivity].
    eapply same_session_trans; [exact S | apply silent_emit].
Qed.

Lemma snd_combine_sources {A} (f : string * option string -> A)
  (sources : list (string * option string)) :
  map snd (combine (map fst sources) (map f sources)) = map f sources.
Proof. rewrite combine_map, map_map. reflexivity. Qed.

(** Lines 103-141 always hand the documents on to the validation, unless
    no text is usable. *)
Lemma checked_validates (sources : list (string * option string)) (w : world) :
  exists w3, same_session w w3 /\
    checked sources w =
      if existsb usable (map text_of sources)
      then (validate (map fst sources) (map json_of sources) ;;
            ret (map json_of sources)) w3
      else (Exit 0, w3).
Proof.
  unfold checked.
  destruct (download_spec sources w) as (w1 & E1 & S1).
  rewrite (bind_done _ _ _ _ _ E1).
  destruct (check_texts_spec (map fst sources) (map text_of sources) w1)
    as (w2 & S2 & E2).
  rewrite snd_combine_sources in E2.
  assert (S12 := same_session_trans _ _ _ S1 S2).
  destruct (existsb usable (map text_of sources)).
  2:{ rewrite (bind_exit _ _ _ _ _ E2). now exists w2. }
  rewrite (bind_done _ _ _ _ _ E2).
  destruct (parse_spec (map fst sources) (map text_of sources) w2)
    as (w3 & E3 & S3).
  rewrite (bind_done _ _ _ _ _ E3), jsons_of_sources.
  exists w3. split; [|reflexivity].
  eapply same_session_trans; eassumption.
Qed.

(** X5: How lines 103-154 end when every document that was decoded is a
    non-empty array starting with an object: with [exit()] (status 0) when
    no source gave a non-empty text; otherwise with [exit(1)] when no
    document has [time_tag] in its first item; otherwise normally, handing
    on one document per source ([None] for a source that failed), in the
    order of [--url].  The database session is not touched. *)
Theorem checked_outcome (sources : list (string * option string)) (w : world) :
  Forall (fun src => shaped (json_of src)) sources ->
  exists w', same_session w w' /\
    checked sources w =
      (if negb (existsb usable (map text_of sources)) then Exit 0
       else if existsb tagged (map json_of sources)
            then Done (map json_of sources)
            else Exit 1,
       w').
Proof.
  intros Hs.
  destruct (checked_validates sources w) as (w3 & S3 & E). rewrite E.
  destruct (existsb usable (map text_of sources)); simpl; [|now exists w3].
  destruct (validate_spec (map fst sources) (map json_of sources) w3)
    as (w4 & S4 & E4).
  { rewrite snd_combine_sources. now apply Forall_map. }
  rewrite snd_combine_sources in E4.
  exists w4. split; [eapply same_session_trans; eassumption|].
  destruct (existsb tagged (map json_of sources)).
  - now rewrite (bind_done _ _ _ _ _ E4).
  - now rewrite (bind_exit _ _ _ _ _ E4).
Qed.

Lemma checked_outcome_witness :
  exists w',
    checked [("primary", None); ("secondary", Some Fixtures.two_readings)]
            (start None)
    = (Done [PNone; json_of ("secondary", Some Fixtures.two_readings)], w').
Proof.
  destruct (checked_outcome
              [("primary", None); ("secondary", Some Fixtures.two_readings)]
              (start None)) as (w' & _ & E).
  - constructor; [left; reflexivity|].
    constructor; [right; vm_compute; eauto | constructor].
  - exists w'. exact E.
Defined.

End CheckFacts.

(** ** fetch.py: the aggregated data *)

Module AggregateFacts.
Import Script ScriptFacts PyOps PyOpsFacts PyFacts Repair Fetch GatherFacts FetchFacts Batch.
Local Open Scope script_scope.

Lemma collect_reading (item : value) (data satellites energies : list value)
  (w : world) :
  reading item ->
  exists satellites' energies',
    collect item (data, satellites, energies) w
    = (Done ((data ++ [renamed item])%list, satellites', energies'), w).
Proof.
  intros (fields & sat & nrj & flux & -> & Hs & Hhs & He & Hhe & Hf).
  unfold collect, bind, lift, set_add, renamed. simpl.
  rewrite Hs, Hhs, He, Hhe, Hf. simpl. unfold ret. eauto.
Qed.

Lemma collect_readings (items : list value) :
  Forall reading items ->
  forall (data satellites energies : list value) (w : world),
  exists satellites' energies',
    for_each items collect (data, satellites, energies) w
    = (Done ((data ++ map renamed items)%list, satellites', energies'), w).
Proof.
  induction 1 as [|item items Hi _ IH]; intros data satellites energies w.
  - simpl. rewrite app_nil_r. unfold ret. eauto.
  - destruct (collect_reading item data satellites energies w Hi) as (s1 & e1 & E1).
    simpl. rewrite (bind_done _ _ _ _ _ E1).
    destruct (IH (data ++ [renamed item])%list s1 e1 w) as (s2 & e2 & E2).
    rewrite E2, <- app_assoc. simpl. eauto.
Qed.

Lemma aggregate_from (jsons : list value) :
  Forall readings jsons ->
  forall (data satellites energies : list value) (w : world),
  exists satellites' energies',
    for_each jsons collect_all (data, satellites, energies) w
    = (Done ((data ++ map renamed (flat_map items_of jsons))%list,
             satellites', energies'), w).
Proof.
  induction 1 as [|json jsons (items & -> & Hi) _ IH];
    intros data satellites energies w.
  - simpl. rewrite app_nil_r. unfold ret. eauto.
  - simpl. unfold collect_all at 1. unfold bind at 2. unfold lift. simpl.
    destruct (collect_readings items Hi data satellites energies w)
      as (s1 & e1 & E1).
    rewrite (bind_done _ _ _ _ _ E1).
    destruct (IH (data ++ map renamed items)%list s1 e1 w) as (s2 & e2 & E2).
    rewrite E2, map_app, app_assoc. eauto.
Qed.

Lemma dict_get_pop_same (k : string) (d : list (string * value)) :
  NoDup (map fst d) -> dict_get k (dict_pop k d) = None.
Proof.
  induction d as [|[k' v] r IH]; intros Hn; [reflexivity|].
  inversion Hn as [|? ? Hk Hr]; subst. simpl.
  destruct (String.eqb k k') eqn:E.
  - apply String.eqb_eq in E. subst k'.
    clear IH Hn Hr. induction r as [|[k2 v2] r IH]; [reflexivity|].
    simpl in *. destruct (String.eqb k k2) eqn:E2.
    + apply String.eqb_eq in E2. subst. tauto.
    + tauto.
  - simpl. rewrite E. now apply IH.
Qed.

Lemma keys_dict_set (k : string) (v : value) (d : list (string * value)) :
  NoDup (map fst d) -> NoDup (map fst (dict_set k v d)).
Proof.
  induction d as [|[k' v'] r IH]; intros Hn; simpl.
  - repeat constructor. simpl. tauto.
  - inversion Hn as [|? ? Hk Hr]; subst.
    destruct (String.eqb k k') eqn:E; simpl; [exact Hn|].
    constructor; [|now apply IH].
    intros Hin. apply Hk. clear - Hin E.
    induction r as [|[k2 v2] r IH]; simpl in *.
    + destruct Hin as [->|[]]. now rewrite String.eqb_refl in E.
    + destruct (String.eqb k k2); simpl in *; tauto.
Qed.

(** X6: Lines 156-165 on documents that are arrays of readings: [data]
    holds every item of every document, in the order of the documents and
    of their items, each with its [flux] stored under [corrected_flux] and
    no [flux] left, every other field as it was; the database session and
    the output are not touched. *)
Theorem aggregate_renames (jsons : list value) (w : world) :
  Forall readings jsons ->
  (exists satellites energies,
      aggregate jsons w
      = (Done (map renamed (flat_map items_of jsons), satellites, energies), w) /\
      covered "satellite" (map renamed (flat_map items_of jsons)) satellites /\
      covered "energy" (map renamed (flat_map items_of jsons)) energies) /\
  (forall fields flux,
      NoDup (map fst fields) -> dict_get "flux" fields = Some flux ->
      getitem (renamed (PDict fields)) "corrected_flux" = Done flux /\
      getitem (renamed (PDict fields)) "flux" = Raise KeyError /\
      forall k, k <> "flux" -> k <> "corrected_flux" ->
                getitem (renamed (PDict fields)) k = getitem (PDict fields) k).
Proof.
  intros Hr. split.
  - destruct (aggregate_from jsons Hr [] [] [] w) as (s & e & E).
    exists s, e. split; [exact E|].
    exact (aggregate_covered _ _ _ _ _ _ E).
  - intros fields flux Hn Hf. unfold renamed. rewrite Hf. simpl.
    split; [|split].
    + rewrite dict_get_pop_other by discriminate.
      now rewrite dict_get_set_same.
    + rewrite dict_get_pop_same; [reflexivity|]. now apply keys_dict_set.
    + intros k H1 H2.
      rewrite dict_get_pop_other by assumption.
      now rewrite dict_get_set_other by assumption.
Qed.

Lemma aggregate_renames_witness :
  exists satellites energies,
    aggregate [PList [Samples.raw_reading]] (start None)
    = (Done ([Samples.renamed_reading], satellites, energies), start None).
Proof.
  destruct (aggregate_renames [PList [Samples.raw_reading]] (start None))
    as [(satellites & energies & E & _) _].
  - constructor; [|constructor].
    exists [Samples.raw_reading]. split; [reflexivity|].
    constructor; [|constructor].
    exists [("time_tag", PStr "2024-05-01T00:00:00Z"); ("satellite", PInt 16);
            ("flux", PFloat "1.5e-07"); ("observed_flux", PFloat "2.5e-07");
            ("electron_correction", PFloat "1.0e-07");
            ("energy", PStr "0.05-0.4nm")],
           (PInt 16), (PStr "0.05-0.4nm"), (PFloat "1.5e-07").
    split; [reflexivity|]. split; [reflexivity|]. split; [reflexivity|].
    split; [reflexivity|]. split; reflexivity.
  - exists satellites, energies. exact E.
Defined.

End AggregateFacts.

(** ** fetch.py: an item with a field missing *)

Module ItemFacts.
Import Script ScriptFacts PyOps PyOpsFacts PyFacts Repair Fetch GatherFacts FetchFacts.
Local Open Scope script_scope.

Lemma getitem_no_exit (item : value) (k : string) (s : Z) :
  getitem item k <> Exit s.
Proof. unfold getitem. destruct item; try easy. destruct (dict_get _ _); easy. Qed.

Lemma set_add_no_exit (v : value) (l : list value) (s : Z) :
  set_add v l <> Exit s.
Proof. unfold set_add. destruct (hashable v); easy. Qed.

Lemma collect_no_exit (item : value) acc (w : world) :
  no_exit (collect item acc w).
Proof.
  destruct acc as [[data satellites] energies]. unfold collect.
  apply no_exit_bind; [apply no_exit_lift; intros; apply getitem_no_exit|].
  intros sat w3.
  apply no_exit_bind; [apply no_exit_lift; intros; apply set_add_no_exit|].
  intros satellites' w4.
  apply no_exit_bind; [apply no_exit_lift; intros; apply getitem_no_exit|].
  intros nrj w5.
  apply no_exit_bind; [apply no_exit_lift; intros; apply set_add_no_exit|].
  intros energies' w6.
  apply no_exit_bind; [apply no_exit_lift; intros; apply getitem_no_exit|].
  intros flux w7 s. destruct item; discriminate.
Qed.

Lemma collect_incomplete (item : value) (k : string) acc (w : world) :
  In k ["satellite"; "energy"; "flux"] ->
  (forall v, getitem item k <> Done v) ->
  raises (collect item acc w).
Proof.
  intros Hk Hv.
  assert (Hn := collect_no_exit item acc w).
  destruct acc as [[data satellites] energies].
  unfold raises. unfold no_exit in Hn.
  destruct (collect item (data, satellites, energies) w) as [[acc'|s|e] w'] eqn:E;
    simpl in *; [|now elim (Hn s)|now exists e].
  exfalso. unfold collect in E.
  apply bind_inv_done in E as (sat & w1 & E1 & E).
  apply bind_inv_done in E as (sats & w2 & _ & E).
  apply bind_inv_done in E as (nrj & w3 & E3 & E).
  apply bind_inv_done in E as (nrjs & w4 & _ & E).
  apply bind_inv_done in E as (flux & w5 & E5 & _).
  unfold lift in *.
  destruct Hk as [<-|[<-|[<-|[]]]].
  - apply (Hv sat). congruence.
  - apply (Hv nrj). congruence.
  - apply (Hv flux). congruence.
Qed.

Lemma aggregate_incomplete (jsons items : list value) (item : value)
  (k : string) (w : world) :
  In (PList items) jsons -> In item items ->
  In k ["satellite"; "energy"; "flux"] ->
  (forall v, getitem item k <> Done v) ->
  raises (aggregate jsons w).
Proof.
  intros Hj Hi Hk Hv.
  apply (for_each_raises _ _ (PList items)); [|exact Hj|].
  - intros; apply collect_all_no_exit.
  - intros acc w0. unfold collect_all. unfold bind at 1, lift. simpl.
    apply (for_each_raises _ _ item); [|exact Hi|].
    + intros; apply collect_no_exit.
    + intros acc' w1. now apply (collect_incomplete item k).
Qed.

(** X7: One item without [satellite], [energy] or [flux], in any
    document, keeps the whole run from completing: lines 161-163 raise
    when they come to it ([KeyError] for an object), unless the run has
    ended before.  Nothing of the batch is stored, and the table is not
    even created. *)
Theorem incomplete_item_aborts (strptime : string -> option Z)
  (collate_ltb : string -> string -> bool)
  (sources : list (string * option string)) (locked : bool) (w : world)
  (src : string * option string) (items : list value) (item : value)
  (k : string) :
  In src sources -> json_of src = PList items -> In item items ->
  In k ["satellite"; "energy"; "flux"] ->
  (forall v, getitem item k <> Done v) ->
  exists o w', main strptime collate_ltb sources locked w = (o, w') /\
               (forall u, o <> Done u) /\ same_session w w'.
Proof.
  intros Hin Hjson Hi Hk Hv.
  assert (Hg : exists o w', gather sources w = (o, w') /\
                            (forall u, o <> Done u) /\ same_session w w').
  { pose proof (silent_gather sources w) as S.
    unfold gather in *. unfold bind in *.
    destruct (checked sources w) as [[jsons|c|e] w1] eqn:E.
    - assert (Hj : In (PList items) jsons).
      { rewrite (checked_done _ _ _ _ E), <- Hjson. now apply in_map. }
      destruct (aggregate_incomplete jsons items item k w1 Hj Hi Hk Hv) as [e He].
      destruct (aggregate jsons w1) as [o w2]; simpl in *; subst o.
      exists (Raise e), w2. repeat split; try apply S; easy.
    - exists (Exit c), w1. repeat split; try apply S; easy.
    - exists (Raise e), w1. repeat split; try apply S; easy. }
  destruct Hg as (o & w' & E & Hd & S).
  unfold Fetch.main, Fetch.prepare. unfold bind at 1 2. rewrite E.
  destruct o as [u|c|e].
  - now elim (Hd u).
  - exists (Exit c), w'. repeat split; try apply S; easy.
  - exists (Raise e), w'. repeat split; try apply S; easy.
Qed.

Lemma incomplete_item_aborts_witness :
  exists o w',
    Fetch.main Utc.strptime_z String.ltb
      [("primary", Some Fixtures.two_readings); ("secondary", Some Samples.no_flux)]
      false (start None)
    = (o, w') /\ (forall u, o <> Done u) /\ same_session (start None) w'.
Proof.
  apply (incomplete_item_aborts Utc.strptime_z String.ltb _ false (start None)
           ("secondary", Some Samples.no_flux) [Samples.no_flux_item]
           Samples.no_flux_item "flux").
  - right. left. reflexivity.
  - vm_compute. reflexivity.
  - left. reflexivity.
  - right. right. left. reflexivity.
  - intros v. vm_compute. discriminate.
Defined.

End ItemFacts.

(** ** fetch.py: what a run stores *)

Module WriteFacts.
Import Script ScriptFacts PyOps PyOpsFacts Repair Fetch GatherFacts FetchFacts.
Local Open Scope script_scope.

Section Write.

Variable strptime : string -> option Z.
Variable collate_ltb : string -> string -> bool.

Local Abbreviation prepare := (Fetch.prepare strptime collate_ltb).
Local Abbreviation main := (Fetch.main strptime collate_ltb).
Local Abbreviation watermark := (Fetch.watermark strptime collate_ltb).
Local Abbreviation after_run := (Fetch.after_run strptime collate_ltb).

(** The counter of lines 201-204 counts the statements sent. *)
Lemma insert_all_counts (new_data : list value) (w w' : world) (n : nat) :
  insert_all new_data w = (Done n, w') -> n = List.length new_data.
Proof.
  unfold insert_all. intros H.
  apply (for_each_done
           (fun done (s : nat) (_ : world) => s = List.length done) insert_step)
    with (done := []) in H; [exact H| |reflexivity].
  intros done d s w0 s' w0' -> Hd.
  rewrite insert_step_spec in Hd.
  destruct (row_of d); try discriminate.
  destruct (view w0); try discriminate.
  injection Hd as <- _. rewrite length_app. reflexivity.
Qed.

(** The insertion loop changes nothing but what the session sees of the
    table. *)
Lemma insert_all_keeps (new_data : list value) (w : world) :
  committed (snd (insert_all new_data w)) = committed w /\
  closed (snd (insert_all new_data w)) = closed w /\
  emitted (snd (insert_all new_data w)) = emitted w.
Proof.
  unfold insert_all. generalize 0%nat.
  revert w. induction new_data as [|d r IH]; intros w n0; simpl; [auto|].
  unfold bind. rewrite insert_step_spec.
  destruct (row_of d) as [x| |]; simpl; auto.
  destruct (view w) as [t|]; simpl; auto.
  specialize (IH (World (committed w) (Some (insert_do_nothing x t)) (closed w)
                        (emitted w)) (n0 + 1)%nat).
  destruct (for_each r insert_step (n0 + 1)%nat _) as [[?|?|?] w2];
    simpl in *; auto.
Qed.

Lemma inserts_length (rs t : list row) :
  (List.length (fold_left (fun t r => insert_do_nothing r t) rs t)
   <= List.length t + List.length rs)%nat.
Proof.
  revert t. induction rs as [|r rs IH]; intros t; simpl; [lia|].
  specialize (IH (insert_do_nothing r t)).
  destruct (insert_do_nothing_cases r t) as [E|E]; rewrite E in IH |- *.
  - lia.
  - rewrite length_app in IH. simpl in IH. lia.
Qed.

(** A run that runs to its end committed the table it found with the
    rows of the readings that passed the filter inserted in their order,
    and printed their number. *)
Lemma main_stores (sources : list (string * option string)) (locked : bool)
  (t : option (list row)) (wf : world) :
  main sources locked (start t) = (Done tt, wf) ->
  exists new_data w1 rs,
    prepare sources (start t) = (Done new_data, w1) /\
    Forall2 (fun d r => row_of d = Done r) new_data rs /\
    committed wf
    = Some (fold_left (fun t r => insert_do_nothing r t) rs (rows t)) /\
    emitted wf = (emitted w1 ++ [NewValuesAdded (List.length new_data)])%list.
Proof.
  intros H. unfold Fetch.main in H.
  apply bind_inv_done in H as (nd & w1 & Hp & H).
  exists nd, w1.
  assert (Hv1 : view w1 = Some (rows t)).
  { pose proof Hp as Hp'.
    apply prepare_done in Hp' as (? & ? & ? & ? & ? & _ & _ & _ & _ & ->).
    reflexivity. }
  unfold write, lock_table in H. destruct locked; [discriminate H|].
  apply bind_inv_done in H as ([] & w1' & Hl & H).
  unfold ret in Hl. injection Hl as <-.
  apply bind_inv_done in H as (n & w2 & Hi & H).
  pose proof (insert_all_counts _ _ _ _ Hi) as ->.
  assert (He : emitted w2 = emitted w1).
  { pose proof (insert_all_keeps nd w1) as (_ & _ & He). now rewrite Hi in He. }
  apply insert_all_done with (t := rows t) in Hi as (rs & HF & Hv2 & _);
    [|exact Hv1].
  unfold bind, commit, close, emit in H. simpl in H. injection H as <-.
  simpl. rewrite He. exists rs. auto.
Qed.

(** X8: The number a completed run prints in its last line is the number
    of readings that passed the watermark filter, one per [insert]
    statement sent, whether or not the statement added a row; the rows the
    run added to the table are at most that many. *)
Theorem reported_count (sources : list (string * option string)) (locked : bool)
  (t : option (list row)) (wf : world) :
  main sources locked (start t) = (Done tt, wf) ->
  exists new_data w1 added,
    prepare sources (start t) = (Done new_data, w1) /\
    emitted wf = (emitted w1 ++ [NewValuesAdded (List.length new_data)])%list /\
    rows (committed wf) = (rows t ++ added)%list /\
    (List.length added <= List.length new_data)%nat.
Proof.
  intros H.
  destruct (main_stores _ _ _ _ H) as (nd & w1 & rs & Hp & HF & Hc & He).
  destruct (inserts_spec rs (rows t)) as (added & E & _).
  exists nd, w1, added. split; [exact Hp|]. split; [exact He|].
  rewrite Hc. simpl. split; [exact E|].
  pose proof (inserts_length rs (rows t)) as Hlen.
  rewrite E, length_app in Hlen.
  rewrite (Forall2_length HF). lia.
Qed.

(** How a run ends once the readings to insert are there. *)
Lemma write_cases (locked : bool) (new_data : list value) (w : world) :
  (fst (write locked new_data w) = Done tt /\
   committed (snd (write locked new_data w))
   = view (snd (insert_all new_data w))) \/
  (fst (write locked new_data w) <> Done tt /\
   committed (snd (write locked new_data w)) = committed w).
Proof.
  unfold write, lock_table. destruct locked.
  - right. simpl. split; [discriminate | reflexivity].
  - rewrite (bind_done _ _ w tt w eq_refl).
    destruct (insert_all_keeps new_data w) as (Hc & _ & _).
    destruct (insert_all new_data w) as [[n|c|e] w2] eqn:E; simpl in Hc.
    + left. rewrite (bind_done _ _ _ _ _ E). simpl. auto.
    + right. rewrite (bind_exit _ _ _ _ _ E). simpl. split; [discriminate|exact Hc].
    + right. rewrite (bind_raise _ _ _ _ _ E). simpl. split; [discriminate|exact Hc].
Qed.

Lemma main_cases (sources : list (string * option string)) (locked : bool)
  (t : option (list row)) :
  fst (main sources locked (start t)) <> Done tt ->
  rows (committed (snd (main sources locked (start t)))) = rows t.
Proof.
  intros Hn.
  assert (Hu := untouched_prepare strptime collate_ltb (rows t) sources (start t)
                  (untouched_start t)).
  unfold Fetch.main in *.
  destruct (Fetch.prepare strptime collate_ltb sources (start t))
    as [[nd|c|e] w1] eqn:Hp; simpl in Hu; destruct Hu as (Hc & _ & _).
  - rewrite (bind_done _ _ _ _ _ Hp) in *.
    destruct (write_cases locked nd w1) as [[Hd _]|[_ Hk]]; [contradiction|].
    now rewrite Hk.
  - now rewrite (bind_exit _ _ _ _ _ Hp).
  - now rewrite (bind_raise _ _ _ _ _ Hp).
Qed.

(** X9: A batch is stored whole or not at all.  A run that does not
    reach its last line (an exception, an [exit], the lock held) leaves
    the stored rows exactly as it found them, whatever it had inserted;
    a run that does reach it has stored a row under the key of every
    reading that passed the filter. *)
Theorem batch_all_or_nothing (sources : list (string * option string))
  (locked : bool) (t : option (list row)) :
  (fst (main sources locked (start t)) <> Done tt ->
   rows (after_run t (sources, locked)) = rows t) /\
  (fst (main sources locked (start t)) = Done tt ->
   forall new_data w1 d r,
     prepare sources (start t) = (Done new_data, w1) ->
     In d new_data -> row_of d = Done r ->
     In (key r) (map key (rows (after_run t (sources, locked))))).
Proof.
  split.
  - apply main_cases.
  - intros Hd nd w1 d r Hp Hin Hrow. unfold Fetch.after_run. simpl fst; simpl snd.
    destruct (Fetch.main strptime collate_ltb sources locked (start t))
      as [o wf] eqn:Hm.
    simpl in Hd. subst o.
    destruct (main_stores _ _ _ _ Hm) as (nd' & w1' & rs & Hp' & HF & Hc & _).
    rewrite Hp in Hp'. injection Hp' as <- <-.
    simpl. rewrite Hc. simpl.
    destruct (Forall2_in_l _ _ _ _ HF Hin) as (r' & Hr' & Hrow').
    rewrite Hrow in Hrow'. injection Hrow' as <-.
    destruct (inserts_spec rs (rows t)) as (_ & _ & _ & Hk & _).
    now apply Hk.
Qed.

Lemma insert_all_view (new_data : list value) (w : world) (t : list row) :
  view w = Some t -> exists t', view (snd (insert_all new_data w)) = Some t'.
Proof.
  unfold insert_all. generalize 0%nat.
  revert w t. induction new_data as [|d r IH]; intros w t n0 Hv; simpl; [eauto|].
  unfold bind. rewrite insert_step_spec, Hv.
  destruct (row_of d) as [x| |]; simpl; eauto.
  specialize (IH (World (committed w) (Some (insert_do_nothing x t)) (closed w)
                        (emitted w)) (insert_do_nothing x t) (n0 + 1)%nat eq_refl).
  destruct (for_each r insert_step (n0 + 1)%nat _) as [[?|?|?] w2];
    simpl in *; auto.
Qed.

(** Lines 171-172 commit the table before anything is read from it. *)
Lemma prepare_creates (sources : list (string * option string))
  (t : option (list row)) g (w0 : world) :
  gather sources (start t) = (Done g, w0) ->
  snd (prepare sources (start t))
  = World (Some (rows t)) (Some (rows t)) false (emitted w0).
Proof.
  intros Hg. unfold Fetch.prepare.
  assert (S := silent_gather sources (start t)). rewrite Hg in S.
  destruct S as (Sc & Sv & Scl). simpl in *.
  rewrite (bind_done _ _ _ _ _ Hg). destruct g as [[data sats] nrjs].
  unfold bind at 1. unfold create_table at 1.
  unfold bind at 1. unfold commit at 1. cbn [view committed closed emitted].
  rewrite Sv, Scl.
  set (w2 := World (Some (rows t)) (Some (rows t)) false (emitted w0)).
  change (Some match t with Some t0 => t0 | None => [] end) with (Some (rows t)).
  fold w2.
  pose proof (readonly_watermarks strptime collate_ltb sats nrjs w2) as R1.
  unfold bind.
  destruct (Fetch.watermarks strptime collate_ltb sats nrjs w2) as [[ld|c|e] w3];
    simpl in R1; subst w3; try reflexivity.
  apply readonly_select_new.
Qed.

(** X10: The table is created and committed as soon as the downloads are
    aggregated: whatever happens afterwards (a watermark that cannot be
    read, the lock held, a failing insert), the table exists when the run
    is over.  A run that ends before that point leaves the database as it
    was, without the table if there was none. *)
Theorem table_created (sources : list (string * option string)) (locked : bool)
  (t : option (list row)) :
  (forall g w0, gather sources (start t) = (Done g, w0) ->
                after_run t (sources, locked) <> None) /\
  ((forall g w0, gather sources (start t) <> (Done g, w0)) ->
   after_run t (sources, locked) = t).
Proof.
  unfold Fetch.after_run. simpl fst; simpl snd. split.
  - intros g w0 Hg. pose proof (prepare_creates _ _ _ _ Hg) as Hp.
    unfold Fetch.main.
    destruct (Fetch.prepare strptime collate_ltb sources (start t))
      as [[nd|c|e] w1] eqn:E; simpl in Hp; subst w1.
    + rewrite (bind_done _ _ _ _ _ E).
      destruct (write_cases locked nd
                  (World (Some (rows t)) (Some (rows t)) false (emitted w0)))
        as [[_ Hc]|[_ Hc]]; rewrite Hc.
      * destruct (insert_all_view nd
                    (World (Some (rows t)) (Some (rows t)) false (emitted w0))
                    (rows t) eq_refl) as (t' & ->).
        discriminate.
      * discriminate.
    + rewrite (bind_exit _ _ _ _ _ E). discriminate.
    + rewrite (bind_raise _ _ _ _ _ E). discriminate.
  - intros Hg. assert (S := silent_gather sources (start t)).
    unfold Fetch.main, Fetch.prepare. unfold bind at 1 2.
    destruct (gather sources (start t)) as [[g|c|e] w0] eqn:E.
    + now elim (Hg g w0).
    + simpl. apply S.
    + simpl. apply S.
Qed.

(** X11: Every row a run adds, when the satellites of the downloads are
    ints, is strictly later than the watermark the script computed for
    its satellite and energy channel when the run began: the instant of
    the datetime stored for them that is greatest in the order of the
    collation, or of the sentinel.  Where the collation is a strict total
    order that puts the datetimes stored for them in the order of their
    instants, the row is strictly later than every instant stored for
    them: there a reading older than the latest stored one is never
    filled in afterwards, also when it is not stored. *)
Theorem added_rows_are_later (sources : list (string * option string))
  (locked : bool) (t : option (list row)) (wf : world) :
  forallb int_satellite (aggregated sources) = true ->
  main sources locked (start t) = (Done tt, wf) ->
  exists added,
    rows (committed wf) = (rows t ++ added)%list /\
    forall r, In r added ->
      exists i mark,
        strptime (datetime r) = Some i /\
        watermark (rows t) (satellite r) (energy r) = Some mark /\
        (mark < i)%Z /\
        (strict_order collate_ltb ->
         in_order strptime collate_ltb (satellite r) (energy r) (rows t) ->
         forall r' j,
           In r' (rows t) -> of_pair (satellite r) (energy r) r' ->
           strptime (datetime r') = Some j -> (j < i)%Z).
Proof.
  intros Hint H.
  destruct (main_done _ _ _ _ _ _ H)
    as (data & sats & nrjs & w0 & ld & added & Hg & Hs & _ & Hc & Hadd & _).
  rewrite (aggregated_data _ _ _ _ _ _ Hg), forallb_forall in Hint.
  exists added. rewrite Hc. split; [reflexivity|].
  intros r Hr. destruct (Hadd r Hr) as (d & Hd & Hk & Hrow).
  destruct (kept_later _ _ _ _ _ _ _ _ Hs (Hint d Hd) Hk Hrow)
    as (i & mark & Hi & Hw & Hlt).
  exists i, mark. split; [exact Hi|]. split; [exact Hw|]. split; [exact Hlt|].
  intros Hord Hio r' j Hr' Hp Hj.
  pose proof (watermark_latest _ _ _ _ _ _ Hord Hio Hw r' j Hr' Hp Hj). lia.
Qed.

(** X12: When the satellites of the downloads are ints, the watermark
    the script computes for a satellite and an energy channel (the
    instant of the greatest stored datetime in the order of the column's
    collation) does not go back from one run to the next, however the run
    ends and whatever that order is. *)
Theorem next_watermark_not_earlier (sources : list (string * option string))
  (locked : bool) (t : option (list row)) (z : Z) (s : string) (m1 m2 : Z) :
  forallb int_satellite (aggregated sources) = true ->
  watermark (rows t) z s = Some m1 ->
  watermark (rows (after_run t (sources, locked))) z s = Some m2 ->
  (m1 <= m2)%Z.
Proof.
  unfold Fetch.after_run. simpl fst; simpl snd. intros Hint H1 H2.
  destruct (Fetch.main strptime collate_ltb sources locked (start t))
    as [o wf] eqn:Hm.
  assert (Ho : o = Done tt \/ o <> Done tt).
  { destruct o as [[]|c|e]; [now left | right; discriminate | right; discriminate]. }
  destruct Ho as [->|Ho].
  - destruct (main_done _ _ _ _ _ _ Hm)
      as (data & sats & nrjs & w0 & ld & added & Hg & Hs & _ & Hc & Hadd & _).
    rewrite (aggregated_data _ _ _ _ _ _ Hg), forallb_forall in Hint.
    simpl in H2. rewrite Hc in H2. simpl in H2.
    apply (mark_grows strptime collate_ltb (rows t) added (Some z) (Some s) m1 m2);
      [|exact H1|exact H2].
    intros r Hr Hmatch.
    destruct (Hadd r Hr) as (d & Hd & Hk & Hrow).
    destruct (kept_later _ _ _ _ _ _ _ _ Hs (Hint d Hd) Hk Hrow)
      as (i & m & Hi & Hw & Hlt).
    unfold matches in Hmatch. apply andb_prop in Hmatch as [Ez Es].
    apply Z.eqb_eq in Ez. apply String.eqb_eq in Es.
    rewrite Ez, Es in Hw. rewrite H1 in Hw. injection Hw as <-.
    now exists i.
  - pose proof (main_cases sources locked t) as Hk.
    rewrite Hm in Hk. simpl in Hk, H2. rewrite (Hk Ho) in H2.
    rewrite H1 in H2. injection H2 as <-. lia.
Qed.

Lemma find_app {A} (p : A -> bool) (l l' : list A) :
  find p (l ++ l') = match find p l with Some x => Some x | None => find p l' end.
Proof.
  induction l as [|x l IH]; simpl; [reflexivity|]. now destruct (p x).
Qed.

Lemma same_key_trans (a b c : row) :
  same_key a b = true -> same_key b c = true -> same_key a c = true.
Proof. rewrite !same_key_iff. congruence. Qed.

Lemma find_insert (r0 r : row) (t : list row) :
  find (same_key r0) (insert_do_nothing r t) = find (same_key r0) (t ++ [r]).
Proof.
  unfold insert_do_nothing.
  destruct (existsb (same_key r) t) eqn:E; [|reflexivity].
  rewrite find_app. simpl.
  destruct (find (same_key r0) t) as [x|] eqn:F; [reflexivity|].
  destruct (same_key r0 r) eqn:K; [|reflexivity].
  exfalso. apply existsb_exists in E as (x & Hx & Kx).
  apply (find_none _ _ F) in Hx.
  now rewrite (same_key_trans _ _ _ K Kx) in Hx.
Qed.

Lemma find_inserts (r0 : row) (rs t : list row) :
  find (same_key r0) (fold_left (fun t r => insert_do_nothing r t) rs t)
  = find (same_key r0) (t ++ rs).
Proof.
  revert t. induction rs as [|r rs IH]; intros t; simpl.
  - now rewrite app_nil_r.
  - rewrite IH, find_app, find_insert, <- find_app, <- app_assoc. reflexivity.
Qed.

(** X20: Under a key the table holds, after a completed run, the first
    row with that key among the rows the run found followed by the rows
    of the readings it inserted, in their order: a stored row is never
    replaced by a later reading with its key, and of two readings with
    one key in a batch the first is the one stored. *)
Theorem first_row_of_a_key_stays (sources : list (string * option string))
  (locked : bool) (t : option (list row)) (wf : world) :
  main sources locked (start t) = (Done tt, wf) ->
  exists new_data w1 rs,
    prepare sources (start t) = (Done new_data, w1) /\
    Forall2 (fun d r => row_of d = Done r) new_data rs /\
    forall r0,
      find (same_key r0) (rows (committed wf))
      = find (same_key r0) (rows t ++ rs).
Proof.
  intros H.
  destruct (main_stores _ _ _ _ H) as (nd & w1 & rs & Hp & HF & Hc & _).
  exists nd, w1, rs. split; [exact Hp|]. split; [exact HF|].
  intros r0. rewrite Hc. simpl. apply find_inserts.
Qed.

End Write.
Lemma reported_count_witness :
  let t := Some [Fixtures.stored "2024-05-01T00:00:00Z" "1.5e-07"] in
  let sources := [("primary", Some Fixtures.two_readings);
                  ("secondary", Some Fixtures.two_readings)] in
  let wf := snd (Fetch.main Utc.strptime_z String.ltb sources false (start t)) in
  emitted wf = [NewValuesAdded 2] /\
  List.length (rows (committed wf)) = 2%nat /\
  exists new_data w1 added,
    Fetch.prepare Utc.strptime_z String.ltb sources (start t)
    = (Done new_data, w1) /\
    emitted wf = (emitted w1 ++ [NewValuesAdded (List.length new_data)])%list /\
    rows (committed wf) = (rows t ++ added)%list /\
    (List.length added <= List.length new_data)%nat.
Proof.
  intros t sources wf.
  split; [vm_compute; reflexivity|]. split; [vm_compute; reflexivity|].
  apply (reported_count Utc.strptime_z String.ltb sources false t wf).
  vm_compute. reflexivity.
Defined.

Lemma batch_all_or_nothing_witness :
  let t := Some [Fixtures.stored "2024-05-01T00:00:00Z" "1.5e-07"] in
  let sources := [("primary", Some Fixtures.two_readings);
                  ("secondary", Some Samples.no_flux)] in
  rows (Fetch.after_run Utc.strptime_z String.ltb t (sources, false)) = rows t.
Proof.
  intros t sources.
  apply (proj1 (batch_all_or_nothing Utc.strptime_z String.ltb sources false t)).
  vm_compute. discriminate.
Defined.

Lemma table_created_witness :
  let sources := [("primary", Some Fixtures.two_readings)] in
  Fetch.after_run Utc.strptime_z String.ltb None (sources, true) <> None.
Proof.
  intros sources.
  apply (proj1 (table_created Utc.strptime_z String.ltb sources true None)
           (match fst (gather sources (start None)) with
            | Done g => g
            | _ => ([], [], [])
            end)
           (snd (gather sources (start None)))).
  vm_compute. reflexivity.
Defined.

Lemma added_rows_are_later_witness :
  let t := Some [Fixtures.stored "2024-05-01T00:00:00Z" "1.5e-07"] in
  let sources := [("primary", Some Fixtures.two_readings)] in
  let wf := snd (Fetch.main Utc.strptime_z String.ltb sources false (start t)) in
  exists added,
    rows (committed wf) = (rows t ++ added)%list /\
    forall r, In r added ->
      exists i mark,
        Utc.strptime_z (datetime r) = Some i /\
        Fetch.watermark Utc.strptime_z String.ltb (rows t) (satellite r) (energy r)
        = Some mark /\
        (mark < i)%Z /\
        (strict_order String.ltb ->
         in_order Utc.strptime_z String.ltb (satellite r) (energy r) (rows t) ->
         forall r' j,
           In r' (rows t) -> of_pair (satellite r) (energy r) r' ->
           Utc.strptime_z (datetime r') = Some j -> (j < i)%Z).
Proof.
  intros t sources wf.
  apply (added_rows_are_later Utc.strptime_z String.ltb sources false t wf).
  - vm_compute. reflexivity.
  - vm_compute. reflexivity.
Defined.

Lemma next_watermark_not_earlier_witness :
  let t := Some [Fixtures.stored "2024-05-01T00:00:00Z" "1.5e-07"] in
  let sources := [("primary", Some Fixtures.two_readings)] in
  let t1 := Fetch.after_run Utc.strptime_z String.ltb t (sources, false) in
  Fetch.watermark Utc.strptime_z String.ltb (rows t) 16 "0.05-0.4nm"
  = Some 1714521600%Z /\
  Fetch.watermark Utc.strptime_z String.ltb (rows t1) 16 "0.05-0.4nm"
  = Some 1714521660%Z /\
  (1714521600 <= 1714521660)%Z.
Proof.
  intros t sources t1.
  assert (H1 : Fetch.watermark Utc.strptime_z String.ltb (rows t) 16 "0.05-0.4nm"
               = Some 1714521600%Z) by (vm_compute; reflexivity).
  assert (H2 : Fetch.watermark Utc.strptime_z String.ltb (rows t1) 16 "0.05-0.4nm"
               = Some 1714521660%Z) by (vm_compute; reflexivity).
  split; [exact H1|]. split; [exact H2|].
  assert (H0 : forallb int_satellite (aggregated sources) = true)
    by (vm_compute; reflexivity).
  exact (next_watermark_not_earlier Utc.strptime_z String.ltb sources false t
           16 "0.05-0.4nm" _ _ H0 H1 H2).
Defined.

(** With a satellite that is not an int the two properties fail.  The
    table holds a row of satellite 16 at 01:00 UTC; a reading whose
    satellite is written 16.4, at 02:00 with the offset +02:00, is tested
    against the sentinel and stored as satellite 16: the row added is an
    hour before the watermark of satellite 16, which then goes back to
    the instant of that row, its datetime being the greatest in byte
    order. *)
Example float_satellite_moves_watermark_back :
  let t := Some [Fixtures.stored "2024-05-01T01:00:00Z" "1.5e-07"] in
  let sources := [("primary", Some Samples.float_satellite)] in
  let t1 := Fetch.after_run Utc.strptime_offset String.ltb t (sources, false) in
  rows t1
  = (rows t ++ [Fixtures.stored "2024-05-01T02:00:00+02:00" "1.5e-07"])%list /\
  Utc.strptime_offset "2024-05-01T02:00:00+02:00" = Some 1714521600%Z /\
  Fetch.watermark Utc.strptime_offset String.ltb (rows t) 16 "0.05-0.4nm"
  = Some 1714525200%Z /\
  Fetch.watermark Utc.strptime_offset String.ltb (rows t1) 16 "0.05-0.4nm"
  = Some 1714521600%Z.
Proof. vm_compute. repeat split. Qed.

Lemma first_row_of_a_key_stays_witness :
  let t := Some [Fixtures.stored "2024-05-01T00:00:00Z" "9.9e-07"] in
  let sources := [("primary", Some Fixtures.two_readings);
                  ("secondary", Some Fixtures.two_readings)] in
  let wf := snd (Fetch.main Utc.strptime_z String.ltb sources false (start t)) in
  List.length (rows (committed wf)) = 2%nat /\
  exists new_data w1 rs,
    Fetch.prepare Utc.strptime_z String.ltb sources (start t)
    = (Done new_data, w1) /\
    Forall2 (fun d r => row_of d = Done r) new_data rs /\
    forall r0,
      find (same_key r0) (rows (committed wf))
      = find (same_key r0) (rows t ++ rs).
Proof.
  intros t sources wf. split; [vm_compute; reflexivity|].
  apply (first_row_of_a_key_stays Utc.strptime_z String.ltb sources false t wf).
  vm_compute. reflexivity.
Defined.

End WriteFacts.

(** ** fetch.py: a watermark that cannot be read *)

Module WatermarkFacts.
Import Script ScriptFacts PyOps PyOpsFacts Repair Fetch GatherFacts FetchFacts.
Import WriteFacts.
Local Open Scope script_scope.

(** A loop that leaves the world [w] alone and meets an element at which
    its body raises. *)
Lemma for_each_raises_at {Row Event A S} (xs : list A)
  (body : A -> S -> Script.M Row Event S) (x : A) (w : Script.world Row Event) :
  (forall y s, snd (body y s w) = w) ->
  (forall y s, no_exit (body y s w)) ->
  In x xs -> (forall s, raises (body x s w)) ->
  forall s, raises (for_each xs body s w).
Proof.
  intros Hro Hne Hin Hx. induction xs as [|y r IH]; [easy|].
  intros s. simpl. unfold bind.
  destruct Hin as [->|Hin].
  - destruct (Hx s) as [e He]. destruct (body x s w) as [o w1]; simpl in He.
    subst o. now exists e.
  - specialize (Hne y s). specialize (Hro y s).
    destruct (body y s w) as [[s1|c|e] w1]; simpl in *.
    + subst w1. now apply IH.
    + now elim (Hne c).
    + now exists e.
Qed.

Section Marks.

Variable strptime : string -> option Z.
Variable collate_ltb : string -> string -> bool.

Local Abbreviation prepare := (Fetch.prepare strptime collate_ltb).
Local Abbreviation main := (Fetch.main strptime collate_ltb).
Local Abbreviation watermark := (Fetch.watermark strptime collate_ltb).
Local Abbreviation watermarks := (Fetch.watermarks strptime collate_ltb).
Local Abbreviation watermarks_of := (Fetch.watermarks_of strptime collate_ltb).
Local Abbreviation watermark_step := (Fetch.watermark_step strptime collate_ltb).
Local Abbreviation latest := (Fetch.latest strptime collate_ltb).
Local Abbreviation latest_of := (Fetch.latest_of strptime collate_ltb).

Lemma latest_of_no_exit (t : list row) (sat nrj : value) (c : Z) :
  latest_of t sat nrj <> Exit c.
Proof.
  unfold Fetch.latest_of, and_then.
  destruct (where_int sat) as [z|c'|e] eqn:Ez.
  - destruct (where_text nrj) as [x|c'|e] eqn:Ex.
    + unfold py_strptime.
      destruct (sql_max collate_ltb _); destruct (strptime _); discriminate.
    + exfalso. revert Ex. unfold where_text.
      destruct nrj; try discriminate. destruct (unsendable s); discriminate.
    + discriminate.
  - exfalso. revert Ez. unfold where_int. destruct sat; try discriminate.
    destruct (option_map _ _) as [[| |]|]; discriminate.
  - discriminate.
Qed.

Lemma lookup_no_exit {A} (k : value) (d : list (value * A)) (c : Z) :
  lookup k d <> Exit c.
Proof. induction d as [|[k' x] r IH]; simpl; [discriminate|]. now destruct (eqb k k'). Qed.

Lemma watermark_step_at (t : list row) (sat nrj : value)
  (ld : list (value * list (value * Z))) (w : world) :
  view w = Some t ->
  snd (watermark_step sat nrj ld w) = w /\
  no_exit (watermark_step sat nrj ld w) /\
  (forall e, latest_of t sat nrj = Raise e -> raises (watermark_step sat nrj ld w)).
Proof.
  intros Hv. unfold Fetch.watermark_step, bind. rewrite (latest_spec _ _ _ _ _ _ Hv).
  pose proof (latest_of_no_exit t sat nrj) as Hn.
  destruct (latest_of t sat nrj) as [m|c|e]; simpl.
  - unfold lift. pose proof (lookup_no_exit sat ld) as Hl.
    destruct (lookup sat ld) as [by_sat|c|e]; simpl.
    + split; [reflexivity|]. split; [intros c; discriminate | discriminate].
    + now elim (Hl c).
    + split; [reflexivity|]. split; [intros c; discriminate | discriminate].
  - now elim (Hn c).
  - split; [reflexivity|]. split; [intros c; discriminate|].
    intros _ _. now exists e.
Qed.

Lemma watermarks_of_at (t : list row) (energies : list value) (sat : value)
  (ld : list (value * list (value * Z))) (w : world) :
  view w = Some t ->
  snd (watermarks_of energies sat ld w) = w /\
  no_exit (watermarks_of energies sat ld w) /\
  (forall nrj e, In nrj energies -> latest_of t sat nrj = Raise e ->
                 raises (watermarks_of energies sat ld w)).
Proof.
  intros Hv. unfold Fetch.watermarks_of.
  split; [|split].
  - apply readonly_for_each. intros nrj ld0.
    unfold Fetch.watermark_step. quiet. apply readonly_latest.
  - generalize (if has_key sat ld then ld else store sat [] ld). clear ld.
    induction energies as [|nrj r IH]; intros ld0 c; simpl; [discriminate|].
    unfold bind.
    destruct (watermark_step_at t sat nrj ld0 w Hv) as (Hro & Hne & _).
    destruct (Fetch.watermark_step strptime collate_ltb sat nrj ld0 w)
      as [[ld1|c1|e1] w1]; simpl in *.
    + subst w1. apply IH.
    + now elim (Hne c1).
    + discriminate.
  - intros nrj e Hin He.
    apply (for_each_raises_at _ _ nrj); [| |exact Hin|].
    + intros y s0. now apply (watermark_step_at t).
    + intros y s0. now apply (watermark_step_at t).
    + intros s0. now apply (watermark_step_at t sat nrj s0 w Hv) with (e := e).
Qed.

Lemma watermarks_at (t : list row) (satellites energies : list value)
  (sat nrj : value) (e : exn) (w : world) :
  view w = Some t ->
  In sat satellites -> In nrj energies -> latest_of t sat nrj = Raise e ->
  raises (watermarks satellites energies w).
Proof.
  intros Hv Hs Hn He. unfold Fetch.watermarks.
  apply (for_each_raises_at _ _ sat); [| |exact Hs|].
  - intros y s0. now apply (watermarks_of_at t).
  - intros y s0. now apply (watermarks_of_at t).
  - intros s0. now apply (watermarks_of_at t energies sat s0 w Hv) with (nrj := nrj) (e := e).
Qed.

(** X13: When the watermark of a satellite and an energy channel that
    occur in the batch cannot be read (the greatest stored datetime of the
    two, or the sentinel when none is stored, is no timestamp for
    [strptime]), the run dies of an exception in the loop of lines
    178-187: nothing is inserted, the connection stays open.  The
    satellite and the energy channel need not occur in the same
    reading. *)
Theorem unreadable_watermark_stops_run (sources : list (string * option string))
  (locked : bool) (t : option (list row))
  (data satellites energies : list value) (w0 : world)
  (d1 d2 : value) (z : Z) (s : string) :
  gather sources (start t) = (Done (data, satellites, energies), w0) ->
  In d1 data -> getitem d1 "satellite" = Done (PInt z) ->
  In d2 data -> getitem d2 "energy" = Done (PStr s) ->
  watermark (rows t) z s = None ->
  exists e w',
    main sources locked (start t) = (Raise e, w') /\
    rows (committed w') = rows t /\ closed w' = false.
Proof.
  intros Hg Hd1 G1 Hd2 G2 Hw.
  pose proof Hg as Hagg. unfold gather in Hagg.
  apply bind_inv_done in Hagg as (jsons & wj & _ & Hagg).
  apply aggregate_covered in Hagg as [[_ S2] [_ N2]].
  destruct (S2 d1 _ Hd1 G1) as (sat & Hsat & Es).
  destruct (N2 d2 _ Hd2 G2) as (nrj & Hnrj & En).
  assert (He : exists e, Fetch.latest_of strptime collate_ltb (rows t) sat nrj = Raise e).
  { destruct nrj; try discriminate En. simpl in En.
    apply String.eqb_eq in En. subst s0.
    unfold Fetch.latest_of, Fetch.watermark in *.
    destruct sat; try discriminate Es; simpl in Es.
    - simpl. eauto.
    - apply Z.eqb_eq in Es. subst z0. simpl.
      destruct (unsendable s); simpl; [eauto|].
      destruct (sql_max collate_ltb _) as [x|]; simpl; rewrite Hw; eauto. }
  destruct He as (e0 & He).
  pose proof (prepare_creates strptime collate_ltb _ _ _ _ Hg) as Hp.
  set (w2 := World (Some (rows t)) (Some (rows t)) false (emitted w0)) in *.
  assert (Hr : raises (Fetch.watermarks strptime collate_ltb satellites energies w2)).
  { apply (watermarks_at (rows t) _ _ sat nrj e0); auto. }
  assert (Hprep : exists e, Fetch.prepare strptime collate_ltb sources (start t)
                            = (Raise e, w2)).
  { destruct (Fetch.prepare strptime collate_ltb sources (start t)) as [o w1] eqn:E.
    simpl in Hp. subst w1.
    unfold Fetch.prepare in E. rewrite (bind_done _ _ _ _ _ Hg) in E.
    unfold bind at 1 in E. unfold create_table at 1 in E.
    unfold bind at 1 in E. unfold commit at 1 in E.
    cbn [view committed closed emitted] in E.
    assert (S := silent_gather sources (start t)). rewrite Hg in S.
    destruct S as (_ & Sv & Scl). simpl in Sv, Scl.
    rewrite Sv, Scl in E.
    change (Some match t with Some t0 => t0 | None => [] end)
      with (Some (rows t)) in E.
    fold w2 in E. destruct Hr as [e He'].
    unfold bind in E.
    destruct (Fetch.watermarks strptime collate_ltb satellites energies w2)
      as [o2 w3]; simpl in He'. subst o2.
    injection E as <- _. now exists e. }
  destruct Hprep as (e & Hprep).
  exists e, w2. unfold Fetch.main. rewrite (bind_raise _ _ _ _ _ Hprep).
  now repeat split.
Qed.

End Marks.
Lemma unreadable_watermark_stops_run_witness :
  let t := Some [Fixtures.stored "yesterday" "1.5e-07"] in
  let sources := [("primary", Some Fixtures.two_readings)] in
  exists e w',
    Fetch.main Utc.strptime_z String.ltb sources false (start t) = (Raise e, w') /\
    rows (committed w') = rows t /\ closed w' = false.
Proof.
  intros t sources.
  apply (unreadable_watermark_stops_run Utc.strptime_z String.ltb sources false t
           [Samples.renamed_reading; Fixtures.second_reading]
           [PInt 16] [PStr "0.05-0.4nm"]
           (snd (gather sources (start t)))
           Fixtures.second_reading Fixtures.second_reading 16 "0.05-0.4nm").
  - vm_compute. reflexivity.
  - right. left. reflexivity.
  - reflexivity.
  - right. left. reflexivity.
  - reflexivity.
  - vm_compute. reflexivity.
Defined.

End WatermarkFacts.

(** ** fetch.py: when a run completes *)

Module CompleteFacts.
Import Script ScriptFacts PyOps PyOpsFacts PyFacts Repair Fetch GatherFacts FetchFacts.
Import Batch CheckFacts AggregateFacts WriteFacts.
Local Open Scope script_scope.

Section Completes.

Variable strptime : string -> option Z.
Variable collate_ltb : string -> string -> bool.

Local Abbreviation prepare := (Fetch.prepare strptime collate_ltb).
Local Abbreviation main := (Fetch.main strptime collate_ltb).
Local Abbreviation watermark := (Fetch.watermark strptime collate_ltb).





End Completes.

(** Readings that are not complete.  A flux of 1e39 is refused by the
    insert of line 203, after the table was created; an unpaired
    surrogate in the energy channel is refused by the driver at the query
    of line 182; a satellite written 16.0 is stored as 16. *)
Example flux_out_of_range_stops_run :
  Fetch.main Utc.strptime_z String.ltb [("primary", Some Samples.huge_flux)]
    false (start None)
  = (Raise DatabaseError, World (Some []) (Some []) false []).
Proof. vm_compute. reflexivity. Qed.

Example lone_surrogate_stops_run :
  Fetch.main Utc.strptime_z String.ltb [("primary", Some Samples.lone_surrogate)]
    false (start None)
  = (Raise ValueError, World (Some []) (Some []) false []).
Proof. vm_compute. reflexivity. Qed.

Example whole_float_satellite_is_stored :
  let t := Some [Fixtures.stored "2024-05-01T00:00:00Z" "1.5e-07"] in
  rows (Fetch.after_run Utc.strptime_z String.ltb t
          ([("primary", Some Samples.whole_float)], false))
  = (rows t ++ [Fixtures.stored "2024-05-01T00:30:00Z" "1.5e-07"])%list.
Proof. vm_compute. reflexivity. Qed.

End CompleteFacts.

(** ** fetch.py: exit statuses *)

Module ExitFacts.
Import Script ScriptFacts PyOps PyOpsFacts Repair Fetch GatherFacts FetchFacts.
Import ItemFacts WriteFacts WatermarkFacts CheckFacts.
Local Open Scope script_scope.

Section Exits.

Variable strptime : string -> option Z.
Variable collate_ltb : string -> string -> bool.

Local Abbreviation prepare := (Fetch.prepare strptime collate_ltb).
Local Abbreviation main := (Fetch.main strptime collate_ltb).

Lemma validate_exit (urls : list string) (jsons : list value) (w w' : world)
  (c : Z) :
  validate urls jsons w = (Exit c, w') -> c = 1%Z.
Proof.
  unfold validate, bind. intros H.
  pose proof (no_exit_for_each (combine urls jsons) validate_step
                validate_step_no_exit false w) as Hn.
  destruct (for_each (combine urls jsons) validate_step false w)
    as [[ok|c0|e] w1]; simpl in *.
  - destruct ok; [discriminate H|]. unfold emit, exit, lift in H.
    now injection H as <- _.
  - now elim (Hn c0).
  - discriminate H.
Qed.

Lemma checked_exit (sources : list (string * option string)) (w w' : world)
  (c : Z) :
  checked sources w = (Exit c, w') ->
  (c = 0%Z /\ existsb usable (map text_of sources) = false) \/
  (c = 1%Z /\ existsb usable (map text_of sources) = true).
Proof.
  unfold checked. intros H.
  destruct (download_spec sources w) as (w1 & E1 & _).
  rewrite (bind_done _ _ _ _ _ E1) in H.
  destruct (check_texts_spec (map fst sources) (map text_of sources) w1)
    as (w2 & _ & E2).
  rewrite snd_combine_sources in E2.
  destruct (existsb usable (map text_of sources)).
  - right. split; [|reflexivity].
    rewrite (bind_done _ _ _ _ _ E2) in H.
    destruct (parse_spec (map fst sources) (map text_of sources) w2)
      as (w3 & E3 & _).
    rewrite (bind_done _ _ _ _ _ E3) in H.
    unfold bind in H.
    destruct (validate (map fst sources) _ w3) as [[[]|c0|e] w4] eqn:E4;
      try discriminate H.
    injection H as <- _. exact (validate_exit _ _ _ _ _ E4).
  - left. rewrite (bind_exit _ _ _ _ _ E2) in H. now injection H as <- _.
Qed.

Lemma and_then_no_exit {A B} (o : outcome A) (f : A -> outcome B) :
  (forall c, o <> Exit c) -> (forall a c, f a <> Exit c) ->
  forall c, and_then o f <> Exit c.
Proof.
  intros Ho Hf c. destruct o as [a|c0|e]; simpl;
    [apply Hf | now elim (Ho c0) | discriminate].
Qed.

Lemma is_new_no_exit (ld : list (value * list (value * Z))) (d : value) (c : Z) :
  Fetch.is_new strptime ld d <> Exit c.
Proof.
  unfold Fetch.is_new. revert c.
  apply and_then_no_exit; [intros; apply getitem_no_exit|intros tt].
  apply and_then_no_exit.
  { intros c. unfold py_strptime. destruct tt; try discriminate.
    destruct (strptime s); discriminate. }
  intros i.
  apply and_then_no_exit; [intros; apply getitem_no_exit|intros sat].
  apply and_then_no_exit; [intros; apply lookup_no_exit|intros by_sat].
  apply and_then_no_exit; [intros; apply getitem_no_exit|intros nrj].
  apply and_then_no_exit; [intros; apply lookup_no_exit|intros m].
  discriminate.
Qed.

Lemma select_step_no_exit (ld : list (value * list (value * Z))) (d : value)
  (new_data : list value) (w : world) :
  no_exit (select_step strptime ld d new_data w).
Proof.
  rewrite select_step_spec. intros c. simpl.
  apply and_then_no_exit; [intros; apply is_new_no_exit | discriminate].
Qed.

Lemma insert_text_no_exit (v : value) (c : Z) : insert_text v <> Exit c.
Proof.
  unfold insert_text. destruct v; try discriminate.
  destruct (unsendable s); discriminate.
Qed.

Lemma insert_int_no_exit (v : value) (c : Z) : insert_int v <> Exit c.
Proof.
  unfold insert_int. destruct v; try discriminate.
  - destruct (in_int4 z); discriminate.
  - destruct (option_map _ _) as [[| |neg m p]|]; try discriminate.
    destruct (in_int4 _); discriminate.
Qed.

Lemma insert_real_no_exit (v : value) (c : Z) : insert_real v <> Exit c.
Proof.
  unfold insert_real. destruct v; try discriminate.
  - destruct (_ <? _)%Z; discriminate.
  - destruct (option_map _ _) as [d|]; [|discriminate].
    destruct (in_real d); discriminate.
Qed.

Lemma row_of_no_exit (d : value) (c : Z) : row_of d <> Exit c.
Proof.
  unfold row_of. revert c.
  do 6 (apply and_then_no_exit; [intros; apply getitem_no_exit|intros ?]).
  apply and_then_no_exit; [intros; apply insert_text_no_exit|intros dt].
  apply and_then_no_exit; [intros; apply insert_int_no_exit|intros z].
  apply and_then_no_exit; [intros; apply insert_text_no_exit|intros s].
  do 3 (apply and_then_no_exit; [intros; apply insert_real_no_exit|intros ?]).
  discriminate.
Qed.

Lemma insert_step_no_exit (d : value) (n : nat) (w : world) :
  no_exit (insert_step d n w).
Proof.
  rewrite insert_step_spec. intros c.
  pose proof (row_of_no_exit d) as H.
  destruct (row_of d) as [r|c0|e]; [|now elim (H c0)|discriminate].
  destruct (view w); discriminate.
Qed.

Lemma where_int_no_exit (v : value) (c : Z) : where_int v <> Exit c.
Proof.
  unfold where_int. destruct v; try discriminate.
  destruct (option_map _ _) as [[| |neg m p]|]; discriminate.
Qed.

Lemma where_text_no_exit (v : value) (c : Z) : where_text v <> Exit c.
Proof. destruct v; try discriminate. simpl. destruct (unsendable s); discriminate. Qed.

Lemma py_strptime_no_exit (v : value) (c : Z) : py_strptime strptime v <> Exit c.
Proof.
  destruct v; try discriminate. simpl. destruct (strptime s); discriminate.
Qed.

Lemma watermark_step_no_exit (sat nrj : value)
  (ld : list (value * list (value * Z))) (w : world) :
  no_exit (Fetch.watermark_step strptime collate_ltb sat nrj ld w).
Proof.
  unfold Fetch.watermark_step, Fetch.latest, select_max.
  apply no_exit_bind.
  - apply no_exit_bind.
    + apply no_exit_bind;
        [apply no_exit_lift; intros; apply where_int_no_exit|intros z w1].
      apply no_exit_bind;
        [apply no_exit_lift; intros; apply where_text_no_exit|intros s w2].
      apply no_exit_bind.
      * unfold read_table. intros c. destruct (view w2); discriminate.
      * intros rs w3 c. discriminate.
    + intros [m|] w1; apply no_exit_lift; intros; apply py_strptime_no_exit.
  - intros m w1. apply no_exit_bind;
      [apply no_exit_lift; intros; apply lookup_no_exit|].
    intros by_sat w2 c. discriminate.
Qed.

Lemma prepare_exit (sources : list (string * option string))
  (w w' : world) (c : Z) :
  prepare sources w = (Exit c, w') ->
  exists wc, checked sources w = (Exit c, wc).
Proof.
  unfold Fetch.prepare, gather. intros H. unfold bind at 1 in H.
  destruct (checked sources w) as [[jsons|c0|e] w0] eqn:Hc.
  - exfalso. rewrite (bind_done _ _ _ _ _ Hc) in H.
    assert (Ha : no_exit (aggregate jsons w0)).
    { apply no_exit_for_each. intros; apply collect_all_no_exit. }
    destruct (aggregate jsons w0) as [[[[data sats] nrjs]|c1|e1] w1];
      [|now elim (Ha c1)|discriminate H].
    assert (Hn : no_exit
              ((create_table ;; commit ;;
                latest_data <- Fetch.watermarks strptime collate_ltb sats nrjs ;;
                Fetch.select_new strptime data latest_data) w1)).
    { apply no_exit_bind; [intros c1; discriminate|intros [] w2].
      apply no_exit_bind; [intros c1; discriminate|intros [] w3].
      apply no_exit_bind.
      * apply no_exit_for_each. intros sat ld w4.
        unfold Fetch.watermarks_of. apply no_exit_for_each.
        intros; apply watermark_step_no_exit.
      * intros ld w4. apply no_exit_for_each. intros; apply select_step_no_exit. }
    apply (Hn c). now rewrite H.
  - rewrite (bind_exit _ _ _ _ _ Hc) in H.
    injection H as <- _. now exists w0.
  - rewrite (bind_raise _ _ _ _ _ Hc) in H. discriminate.
Qed.

(** X15: The exit statuses of fetch.py once it is connected.  It leaves
    by [exit] in three places only: with status 0 when no source gave a
    non-empty text, with status 1 when some did but the validation of
    lines 143-154 found no document to accept, and with status 0 when the
    table is locked by another session.  In each case the stored rows
    are untouched and the connection is left open. *)
Theorem exit_statuses (sources : list (string * option string)) (locked : bool)
  (t : option (list row)) (c : Z) (w' : world) :
  main sources locked (start t) = (Exit c, w') ->
  ((c = 0%Z /\ existsb usable (map text_of sources) = false) \/
   (c = 1%Z /\ existsb usable (map text_of sources) = true) \/
   (c = 0%Z /\ locked = true /\
    exists new_data w1, prepare sources (start t) = (Done new_data, w1))) /\
  rows (committed w') = rows t /\ closed w' = false.
Proof.
  intros H. split.
  - unfold Fetch.main in H.
    destruct (Fetch.prepare strptime collate_ltb sources (start t))
      as [[nd|c0|e] w1] eqn:Hp.
    + right. right. rewrite (bind_done _ _ _ _ _ Hp) in H.
      unfold write, lock_table in H. destruct locked.
      * unfold bind, emit, exit, lift in H. simpl in H. injection H as <- _.
        split; [reflexivity|]. split; [reflexivity|]. now exists nd, w1.
      * exfalso. rewrite (bind_done _ _ w1 tt w1 eq_refl) in H.
        pose proof (no_exit_for_each nd insert_step insert_step_no_exit 0%nat w1)
          as Hn.
        unfold insert_all in H. unfold bind at 1 in H.
        destruct (for_each nd insert_step 0%nat w1) as [[n|c1|e1] w2];
          simpl in Hn.
        -- discriminate H.
        -- now elim (Hn c1).
        -- discriminate H.
    + rewrite (bind_exit _ _ _ _ _ Hp) in H. injection H as <- <-.
      destruct (prepare_exit _ _ _ _ Hp) as (wc & Hc).
      destruct (checked_exit _ _ _ _ Hc) as [?|?]; auto.
    + rewrite (bind_raise _ _ _ _ _ Hp) in H. discriminate H.
  - pose proof (main_cases strptime collate_ltb sources locked t) as Hk.
    pose proof (closed_iff_done strptime collate_ltb sources locked t) as Hcl.
    rewrite H in Hk, Hcl. simpl in Hk, Hcl. split.
    + apply Hk. discriminate.
    + destruct (closed w'); [|reflexivity].
      destruct Hcl as [Hcl _]. discriminate (Hcl eq_refl).
Qed.

End Exits.
Lemma exit_statuses_witness :
  let sources := [("primary", Some Fixtures.error_page)] in
  let run := Fetch.main Utc.strptime_z String.ltb sources false (start None) in
  fst run = Exit 1 /\
  existsb usable (map text_of sources) = true /\
  rows (committed (snd run)) = rows None /\ closed (snd run) = false.
Proof.
  intros sources run.
  assert (E : run = (Exit 1, snd run)) by (vm_compute; reflexivity).
  destruct (exit_statuses Utc.strptime_z String.ltb sources false None 1%Z
              (snd run) E) as [[(H & _)|[(_ & H)|(H & _)]] H2];
    try discriminate H.
  split; [now rewrite E|]. split; [exact H | exact H2].
Defined.

End ExitFacts.

(** ** draw.py: the rows in the range *)

Module RangeFacts.
Import Script ScriptFacts Draw DrawFacts.
Local Open Scope script_scope.

Section Range.

Variable strptime : string -> option Z.
Variable collate_leb : string -> string -> bool.

Local Abbreviation main := (Draw.main strptime collate_leb).
Local Abbreviation select_range := (Draw.select_range collate_leb).
Local Abbreviation points_of := (Draw.points_of strptime).

Definition in_range (start_ end_ : string) (r : row) : bool :=
  collate_leb start_ (datetime r) && collate_leb (datetime r) end_.

Lemma points_of_in (sat : Z) (nrj : string) (result : list row) (p : point) :
  In p (points_of sat nrj result) <->
  exists r, In r result /\ satellite r = sat /\ energy r = nrj /\
            strptime (datetime r) = Some (fst p) /\ corrected_flux r = snd p.
Proof.
  unfold Draw.points_of. rewrite in_flat_map. split.
  - intros (r & Hr & Hp).
    destruct (Z.eqb sat (satellite r)) eqn:E1; [|destruct Hp].
    destruct (String.eqb nrj (energy r)) eqn:E2; [|destruct Hp].
    simpl in Hp. destruct (strptime (datetime r)) as [dt|] eqn:E3; [|destruct Hp].
    destruct Hp as [<-|[]]. apply Z.eqb_eq in E1. apply String.eqb_eq in E2.
    exists r. simpl. auto.
  - intros (r & Hr & <- & <- & Hs & Hf). exists r. split; [exact Hr|].
    rewrite Z.eqb_refl, String.eqb_refl, Hs. simpl. left.
    rewrite Hf. now destruct p.
Qed.

(** The series a completed run plotted, against the rows it fetched. *)
Lemma series_of_rows (start_ end_ : string) (w w' : world) :
  main start_ end_ w = (Done tt, w') ->
  exists result,
    select_range start_ end_ w = (Done result, w) /\
    (forall s, In s (skipn (List.length (emitted w)) (emitted w')) ->
       Permutation (points_of (of_satellite s) (of_energy s) result)
                   (combine (dts s) (values s))) /\
    (forall r, In r result ->
       exists s, In s (skipn (List.length (emitted w)) (emitted w')) /\
                 of_satellite s = satellite r /\ of_energy s = energy r).
Proof.
  intros H.
  apply plot_done in H as (result & data & ess & Hsel & Hk & Hp & Hm & HF & ->).
  destruct (Forall2_combine _ _ _ HF) as (C1 & C2 & C3).
  destruct (sorted_keys_spec (map fst data)) as (HP & HS).
  destruct Hk as [Hk1 Hk2].
  exists result. split; [exact Hsel|].
  cbn [emitted]. rewrite skipn_app, Nat.sub_diag, skipn_all. simpl.
  split.
  - intros s Hs.
    apply in_concat in Hs as (es & Hes & Hs).
    assert (Hsat : exists sat, In (sat, es) (combine (sorted_keys (map fst data)) ess)).
    { rewrite <- C2 in Hes. apply in_map_iff in Hes as ([sat es'] & E & Hin).
      simpl in E. subst es'. now exists sat. }
    destruct Hsat as (sat & Hin).
    destruct (Forall2_combine_in _ _ _ _ _ HF Hin) as (ess' & HF' & ->).
    apply in_concat in Hs as (es & Hes' & Hs).
    destruct (FetchFacts.Forall2_in_r _ _ _ _ HF' Hes') as (g & Hg & pts & Hsort & ->).
    destruct Hs as [<-|[]]. simpl.
    destruct (find Z.eqb sat data) as [by_sat|] eqn:E; [|destruct Hg].
    simpl in Hg.
    assert (Hmem : points_of sat (fst g) result = snd g).
    { rewrite <- Hm. unfold member. rewrite E.
      rewrite (find_in String.eqb String_eqb_eq (fst g) (snd g)); [reflexivity| |].
      - apply (Hk2 sat). now apply (in_find Z.eqb Z_eqb_eq).
      - now destruct g. }
    rewrite Hmem, combine_fst_snd.
    now destruct (sort_points_spec _ _ Hsort).
  - intros r Hr.
    assert (Hne : points_of (satellite r) (energy r) result <> []).
    { apply in_split in Hr as (l1 & l2 & ->).
      unfold Draw.points_of. rewrite flat_map_app. simpl.
      rewrite Z.eqb_refl, String.eqb_refl. simpl.
      destruct (strptime (datetime r)) as [dt|] eqn:E.
      - intros Habs. apply app_eq_nil in Habs as [_ Habs]. discriminate.
      - elim (Hp r); [apply in_or_app; right; now left | exact E]. }
    rewrite <- Hm in Hne. unfold member in Hne.
    destruct (find Z.eqb (satellite r) data) as [by_sat|] eqn:E1;
      [|now elim Hne].
    destruct (find String.eqb (energy r) by_sat) as [pts|] eqn:E2;
      [|now elim Hne].
    apply (in_find Z.eqb Z_eqb_eq) in E1. apply (in_find String.eqb String_eqb_eq) in E2.
    assert (Hkey : In (satellite r) (sorted_keys (map fst data))).
    { apply (Permutation_in _ HP). apply in_map_iff. now exists (satellite r, by_sat). }
    destruct (C3 _ Hkey) as (ss & Hss).
    destruct (Forall2_combine_in _ _ _ _ _ HF Hss) as (ess' & HF' & ->).
    rewrite (find_in Z.eqb Z_eqb_eq _ _ _ Hk1 E1) in HF'. simpl in HF'.
    destruct (FetchFacts.Forall2_in_l _ _ _ _ HF' E2) as (es & Hes & ps & _ & ->).
    exists (Series (satellite r) (energy r) (map fst ps) (map snd ps)).
    split; [|split; reflexivity].
    apply in_concat. exists (concat ess'). split.
    + rewrite <- C2. apply in_map_iff. now exists (satellite r, concat ess').
    + apply in_concat. eexists. split; [exact Hes | now left].
Qed.

(** X16: The plot shows the rows of the table whose datetime lies
    between [--start] and [--end], both ends included, and nothing else:
    when the script gets through its plotting loop, every such row is a
    point of the series of its satellite and energy channel, and every
    point of every series is such a row.  The bounds are compared as the
    database compares the texts, not as instants. *)
Theorem range_is_inclusive (start_ end_ : string) (t : list row) (w' : world) :
  main start_ end_ (start (Some t)) = (Done tt, w') ->
  (forall r, In r t ->
     collate_leb start_ (datetime r) = true ->
     collate_leb (datetime r) end_ = true ->
     exists s i,
       In s (emitted w') /\
       of_satellite s = satellite r /\ of_energy s = energy r /\
       strptime (datetime r) = Some i /\
       In (i, corrected_flux r) (combine (dts s) (values s))) /\
  (forall s i v,
     In s (emitted w') -> In (i, v) (combine (dts s) (values s)) ->
     exists r,
       In r t /\
       collate_leb start_ (datetime r) = true /\
       collate_leb (datetime r) end_ = true /\
       satellite r = of_satellite s /\ energy r = of_energy s /\
       strptime (datetime r) = Some i /\ corrected_flux r = v) /\
  (forall r, In r t ->
     collate_leb start_ start_ = true -> collate_leb start_ end_ = true ->
     datetime r = start_ ->
     exists s, In s (emitted w') /\ of_satellite s = satellite r /\
               of_energy s = energy r).
Proof.
  intros H.
  destruct (series_of_rows _ _ _ _ H) as (result & Hsel & Hs & Hr).
  cbn [start emitted List.length skipn] in Hs, Hr.
  assert (Hres : result = filter (in_range start_ end_) t).
  { unfold Draw.select_range, bind, read_table, start in Hsel. simpl in Hsel.
    unfold ret in Hsel. now injection Hsel as <-. }
  assert (Hin : forall r, In r t ->
                  collate_leb start_ (datetime r) = true ->
                  collate_leb (datetime r) end_ = true ->
                  exists s i,
                    In s (emitted w') /\
                    of_satellite s = satellite r /\ of_energy s = energy r /\
                    strptime (datetime r) = Some i /\
                    In (i, corrected_flux r) (combine (dts s) (values s))).
  { intros r Hin H1 H2.
    assert (Hrr : In r result).
    { rewrite Hres. apply filter_In. split; [exact Hin|].
      unfold in_range. now rewrite H1, H2. }
    destruct (Hr r Hrr) as (s & Hse & Hsat & Hnrj).
    pose proof (Hs s Hse) as HP.
    destruct (strptime (datetime r)) as [i|] eqn:Ei.
    - exists s, i. repeat split; auto.
      apply (Permutation_in _ HP). apply points_of_in.
      exists r. simpl. auto.
    - exfalso.
      apply plot_done in H as (result' & _ & _ & Hsel' & _ & Hp & _).
      rewrite Hsel in Hsel'. injection Hsel' as <-.
      now apply (Hp r Hrr). }
  split; [exact Hin|]. split.
  - intros s i v Hse Hp.
    apply (Permutation_in _ (Permutation_sym (Hs s Hse))) in Hp.
    apply points_of_in in Hp as (r & Hrr & Hsat & Hnrj & Hi & Hv).
    rewrite Hres in Hrr. apply filter_In in Hrr as [Hrt Hrange].
    unfold in_range in Hrange. apply andb_prop in Hrange as [H1 H2].
    exists r. simpl in *. auto 10.
  - intros r Hrt Hrefl Hle Hdt.
    destruct (Hin r Hrt) as (s & i & Hse & Hsat & Hnrj & _);
      [now rewrite Hdt | now rewrite Hdt|].
    now exists s.
Qed.

Lemma group_unreadable (result : list row) (r : row) :
  In r result -> strptime (datetime r) = None ->
  forall data (w : world),
    for_each result
      (fun items data =>
         match strptime (datetime items) with
         | Some dt =>
             ret (add_point (satellite items) (energy items)
                            (dt, corrected_flux items) data)
         | None => raise ValueError
         end) data w
    = (Raise ValueError, w).
Proof.
  intros Hin Hbad. induction result as [|x l IH]; [destruct Hin|].
  intros data w. simpl. unfold bind at 1.
  destruct (strptime (datetime x)) as [dt|] eqn:E.
  - unfold ret at 1. destruct Hin as [->|Hin]; [congruence|]. now apply IH.
  - reflexivity.
Qed.

(** X17: One stored datetime in the range that [strptime] cannot read
    stops the plot: line 140 raises [ValueError] after the connection was
    closed and before anything is plotted, whatever the other rows are. *)
Theorem unreadable_datetime_stops_plot (start_ end_ : string) (t : list row)
  (r : row) :
  In r t ->
  collate_leb start_ (datetime r) = true ->
  collate_leb (datetime r) end_ = true ->
  strptime (datetime r) = None ->
  main start_ end_ (start (Some t))
  = (Raise ValueError, World (Some t) (Some t) true []).
Proof.
  intros Hin H1 H2 Hbad.
  unfold Draw.main, Draw.select_range, start.
  unfold bind at 1 2. unfold read_table at 1. cbn [view]. unfold ret at 1.
  unfold bind at 1. unfold close at 1. cbn [committed view closed emitted].
  unfold bind at 1. unfold group.
  rewrite (group_unreadable _ r); [reflexivity| |exact Hbad].
  apply filter_In. split; [exact Hin|]. now rewrite H1, H2.
Qed.

Lemma plot_keeps_table (start_ end_ : string) (t : option (list row)) :
  committed (snd (main start_ end_ (start t))) = t /\
  view (snd (main start_ end_ (start t))) = t.
Proof.
  assert (H : preserves (fun w : world => committed w = t /\ view w = t)
                        (main start_ end_)).
  { unfold Draw.main, Draw.select_range, group, plot_all, plot_group.
    preserve; try (intros w Hw; exact Hw).
    apply readonly_preserves, readonly_read_table. }
  apply H. now split.
Qed.

(** X18: draw.py only reads: however it ends, the table is as it found
    it.  And it gets through its plotting loop, with the connection
    closed, whenever the table exists and every row in the range has a
    datetime [strptime] reads and a corrected flux that is not NULL. *)
Theorem plot_completes (start_ end_ : string) (t : list row) :
  (forall r, In r t ->
     collate_leb start_ (datetime r) && collate_leb (datetime r) end_ = true ->
     strptime (datetime r) <> None /\ corrected_flux r <> None) ->
  (exists es,
      main start_ end_ (start (Some t))
      = (Done tt, World (Some t) (Some t) true es)) /\
  (forall start' end' t',
      committed (snd (main start' end' (start t'))) = t' /\
      view (snd (main start' end' (start t'))) = t').
Proof.
  intros Hall. split; [|intros; apply plot_keeps_table].
  destruct (main_total strptime collate_leb start_ end_ t Hall) as (w' & H).
  destruct (plot_keeps_table start_ end_ (Some t)) as [Hc Hv].
  assert (Hcl : closed (snd (main start_ end_ (start (Some t)))) = true).
  { apply closed_iff_queried. discriminate. }
  rewrite H in Hc, Hv, Hcl. simpl in Hc, Hv, Hcl.
  exists (emitted w'). rewrite H. destruct w' as [c v cl es].
  simpl in *. now subst.
Qed.

End Range.
Lemma range_is_inclusive_witness :
  let t := Fixtures.plotted_rows in
  let start_ := "2024-05-01T00:01:00Z" in
  let end_ := "2024-05-01T00:03:00Z" in
  let w' := snd (Draw.main Utc.strptime_z String.leb start_ end_ (start (Some t))) in
  (exists s, In s (emitted w') /\ of_satellite s = 15%Z /\
             of_energy s = "0.1-0.8nm" /\
             In (1714521660%Z, Some PrimFloat.zero) (combine (dts s) (values s))) /\
  (exists s, In s (emitted w') /\ of_satellite s = 15%Z /\
             of_energy s = "0.1-0.8nm" /\
             In (1714521780%Z, Some PrimFloat.two) (combine (dts s) (values s))).
Proof.
  intros t start_ end_ w'.
  destruct (range_is_inclusive Utc.strptime_z String.leb start_ end_ t w')
    as (H & _ & _); [vm_compute; reflexivity|].
  split.
  - destruct (H (Draw.Row "2024-05-01T00:01:00Z" 15 "0.1-0.8nm"
                          (Some PrimFloat.zero) None None))
      as (s & i & Hs & H1 & H2 & Hi & Hin).
    + right. left. reflexivity.
    + reflexivity.
    + reflexivity.
    + exists s. vm_compute in Hi. injection Hi as <-. auto.
  - destruct (H (Draw.Row "2024-05-01T00:03:00Z" 15 "0.1-0.8nm"
                          (Some PrimFloat.two) None None))
      as (s & i & Hs & H1 & H2 & Hi & Hin).
    + left. reflexivity.
    + reflexivity.
    + reflexivity.
    + exists s. vm_compute in Hi. injection Hi as <-. auto.
Defined.

Lemma unreadable_datetime_stops_plot_witness :
  let t := (Fixtures.plotted_rows ++ [Samples.without_offset])%list in
  Draw.main Utc.strptime_z String.leb
    "2024-05-01T00:00:00Z" "2024-05-02T00:00:00Z" (start (Some t))
  = (Raise ValueError, World (Some t) (Some t) true []).
Proof.
  intros t.
  apply (unreadable_datetime_stops_plot Utc.strptime_z String.leb
           "2024-05-01T00:00:00Z" "2024-05-02T00:00:00Z" t Samples.without_offset).
  - right. right. right. left. reflexivity.
  - reflexivity.
  - reflexivity.
  - reflexivity.
Defined.

Lemma plot_completes_witness :
  let t := Fixtures.plotted_rows in
  exists es,
    Draw.main Utc.strptime_z String.leb
      "2024-05-01T00:00:00Z" "2024-05-02T00:00:00Z" (start (Some t))
    = (Done tt, World (Some t) (Some t) true es).
Proof.
  intros t.
  apply (plot_completes Utc.strptime_z String.leb
           "2024-05-01T00:00:00Z" "2024-05-02T00:00:00Z" t).
  intros r [<-|[<-|[<-|[]]]] _; split; vm_compute; discriminate.
Defined.

End RangeFacts.

(** ** draw.py: the order of the series of a satellite *)

Module LegendFacts.
Import Script ScriptFacts Draw DrawFacts Legend.
Local Open Scope script_scope.

Lemma keys_alter_eq {V} (k : string) (f : option V -> V) (d : list (string * V)) :
  map fst (alter String.eqb k f d) = add_key k (map fst d).
Proof.
  unfold add_key. induction d as [|[k' v] r IH]; simpl; [reflexivity|].
  destruct (String.eqb k k') eqn:E; simpl; [reflexivity|].
  rewrite IH. now destruct (existsb (String.eqb k) (map fst r)).
Qed.

Definition energies (sat : Z) (data : groups) : list string :=
  map fst (or_empty (find Z.eqb sat data)).

Lemma energies_add_point (sat s : Z) (n : string) (p : point) (data : groups) :
  energies sat (add_point s n p data)
  = if Z.eqb sat s then add_key n (energies sat data) else energies sat data.
Proof.
  unfold energies, add_point.
  destruct (Z.eqb sat s) eqn:E.
  - apply Z.eqb_eq in E. subst s.
    rewrite (find_alter_same Z.eqb Z_eqb_eq). simpl.
    apply keys_alter_eq.
  - rewrite (find_alter_other Z.eqb Z_eqb_eq); [reflexivity|].
    intros ->. now rewrite Z.eqb_refl in E.
Qed.

Section Order.

Variable strptime : string -> option Z.
Variable collate_leb : string -> string -> bool.

Local Abbreviation main := (Draw.main strptime collate_leb).
Local Abbreviation select_range := (Draw.select_range collate_leb).

Lemma group_energies (sat : Z) (result : list row) :
  forall (data data' : groups) (w w' : world),
    for_each result
      (fun items data =>
         match strptime (datetime items) with
         | Some dt =>
             ret (add_point (satellite items) (energy items)
                            (dt, corrected_flux items) data)
         | None => raise ValueError
         end) data w = (Done data', w') ->
    energies sat data'
    = fold_left (fun keys r =>
                   if Z.eqb sat (satellite r) then add_key (energy r) keys
                   else keys) result (energies sat data).
Proof.
  induction result as [|r l IH]; intros data data' w w' H; simpl in *.
  - unfold ret in H. now injection H as <- _.
  - apply bind_inv_done in H as (d1 & w1 & H1 & H).
    destruct (strptime (datetime r)) as [dt|]; [|discriminate H1].
    unfold ret in H1. injection H1 as <- <-.
    rewrite (IH _ _ _ _ H), energies_add_point. reflexivity.
Qed.

Lemma filter_series (sat : Z) (keys : list Z) (ess : list (list series)) :
  Forall2 (fun k es => Forall (fun s => of_satellite s = k) es) keys ess ->
  NoDup keys ->
  (forall es, In (sat, es) (combine keys ess) ->
     filter (fun s => Z.eqb sat (of_satellite s)) (concat ess) = es) /\
  (~ In sat keys ->
     filter (fun s => Z.eqb sat (of_satellite s)) (concat ess) = []).
Proof.
  assert (Hall : forall k es, Forall (fun s => of_satellite s = k) es ->
            filter (fun s => Z.eqb sat (of_satellite s)) es
            = if Z.eqb sat k then es else []).
  { intros k es. induction 1 as [|s es Hs _ IH]; simpl.
    - now destruct (Z.eqb sat k).
    - rewrite Hs, IH. now destruct (Z.eqb sat k). }
  induction 1 as [|k es keys ess Hk HF IH]; intros Hn; simpl.
  - split; [intros es []|reflexivity].
  - inversion Hn as [|? ? Hnk Hn']; subst.
    destruct (IH Hn') as [IH1 IH2].
    rewrite filter_app, (Hall k es Hk). split.
    + intros es' [E|Hin].
      * injection E as <- <-. rewrite Z.eqb_refl.
        rewrite IH2; [apply app_nil_r|exact Hnk].
      * assert (Hne : Z.eqb sat k = false).
        { apply Z.eqb_neq. intros ->. apply Hnk.
          apply in_combine_l in Hin. exact Hin. }
        rewrite Hne. simpl. now apply IH1.
    + intros Hnot.
      assert (Hne : Z.eqb sat k = false).
      { apply Z.eqb_neq. intros ->. apply Hnot. now left. }
      rewrite Hne. simpl. apply IH2. intros Hin. apply Hnot. now right.
Qed.

Lemma plotted_satellite (sat : Z) (gs : list (string * list point))
  (ess : list (list series)) :
  Forall2 (plotted sat) gs ess ->
  Forall (fun s => of_satellite s = sat) (concat ess).
Proof.
  induction 1 as [|g es gs ess (pts & _ & ->) HF IH]; simpl; [constructor|].
  constructor; [reflexivity|exact IH].
Qed.

(** X19: Within a satellite the series come in the order in which the
    energy channels first appear among the fetched rows of that
    satellite; so the order of the plot calls, and with it of the legend,
    is fixed by the order of the rows the query returned. *)
Theorem energies_in_order_of_appearance (start_ end_ : string)
  (t : option (list row)) (w' : world) :
  main start_ end_ (start t) = (Done tt, w') ->
  exists result,
    select_range start_ end_ (start t) = (Done result, start t) /\
    forall sat,
      map of_energy (filter (fun s => Z.eqb sat (of_satellite s)) (emitted w'))
      = first_seen sat result.
Proof.
  intros H. unfold Draw.main in H.
  apply bind_inv_done in H as (result & w1 & H1 & H).
  assert (w1 = start t) as ->.
  { unfold Draw.select_range, bind, read_table in H1.
    destruct (view (start t)); [|discriminate]. unfold ret in H1.
    now injection H1. }
  exists result. split; [exact H1|]. intros sat.
  apply bind_inv_done in H as ([] & w2 & H2 & H).
  unfold close in H2. injection H2 as <-.
  apply bind_inv_done in H as (data & w3 & H3 & H).
  pose proof (group_energies sat result _ _ _ _ H3) as Hg.
  apply group_spec in H3 as (-> & [Hk1 Hk2] & _ & _).
  apply plot_all_spec in H as (ess & HF & ->).
  cbn [start emitted app].
  change (fold_left _ result (energies sat [])) with (first_seen sat result) in Hg.
  rewrite <- Hg.
  destruct (sorted_keys_spec (map fst data)) as (HP & _).
  destruct (filter_series sat (sorted_keys (map fst data)) ess) as [F1 F2].
  { clear - HF. induction HF as [|k es keys ess' (ess2 & HF2 & ->) _ IH];
      constructor; [|exact IH].
    now apply (plotted_satellite k _ _ HF2). }
  { exact (Permutation_NoDup HP Hk1). }
  destruct (Forall2_combine _ _ _ HF) as (_ & _ & C3).
  destruct (in_dec Z.eq_dec sat (sorted_keys (map fst data))) as [Hin|Hnot].
  - destruct (C3 sat Hin) as (es & Hes).
    rewrite (F1 es Hes).
    destruct (Forall2_combine_in _ _ _ _ _ HF Hes) as (ess2 & HF2 & ->).
    now rewrite (plotted_energies _ _ _ HF2).
  - rewrite (F2 Hnot). unfold energies.
    destruct (find Z.eqb sat data) as [by_sat|] eqn:E; [|reflexivity].
    exfalso. apply Hnot. apply (Permutation_in _ HP).
    apply (in_find Z.eqb Z_eqb_eq) in E.
    apply in_map_iff. now exists (sat, by_sat).
Qed.

End Order.
Lemma energies_in_order_of_appearance_witness :
  let t := Some Samples.two_channels in
  let w' := snd (Draw.main Utc.strptime_z String.leb
                   "2024-05-01T00:00:00Z" "2024-05-02T00:00:00Z" (start t)) in
  map of_energy (filter (fun s => Z.eqb 16 (of_satellite s)) (emitted w'))
  = ["0.1-0.8nm"; "0.05-0.4nm"].
Proof.
  intros t w'.
  destruct (energies_in_order_of_appearance Utc.strptime_z String.leb
              "2024-05-01T00:00:00Z" "2024-05-02T00:00:00Z" t w')
    as (result & Hsel & H); [vm_compute; reflexivity|].
  rewrite (H 16%Z). vm_compute in Hsel. injection Hsel as <-. reflexivity.
Defined.

End LegendFacts.
